(** * Closure solver of discorg (lib/closure.ts): a shallow embedding

    The solver reduces maximum-weight closure to an s-t minimum cut
    (class [Dinic]), wraps it in a penalty search ([solveClosureBySize])
    and trims the result to a size cap ([enforceSizeLimit]).

    Conventions of the embedding.
    - A JavaScript number is a binary64 value; the embedding computes
      with exact rationals ([Q]) and puts every result in lowest terms
      ([Qred]), so equal numbers are equal terms.  The two agree as long
      as no result is rounded.  An addition or subtraction of binary64
      numbers whose exact result is an integer of magnitude at most 2^53
      is not rounded, and the source only adds, subtracts, compares and
      halves.  The theorems that depend on the value of a sum or of a
      flow are therefore stated with integer inputs whose sums stay
      within 2^53 ([exact_range], [exact_calls], [exact_caps],
      [exact_search]).
    - A function returns [None] where the source would raise a TypeError
      (an array read out of range followed by a property access), where
      a value would leave the modelled numbers ([Infinity]), or where an
      iteration bound of the model is exhausted.  The totality theorems
      show that none of this happens on the entry points.
    - [graph.chunks] is the list of (key, chunk) pairs in the order
      [Object.values] enumerates them. *)

From Stdlib Require Import QArith Qabs Qminmax Qreduction Qround Lia Lqa ZArith.
From stdpp Require Import base option list strings gmap.

Local Open Scope Q_scope.

(** ** Numbers *)

Definition nadd (a b : Q) : Q := Qred (a + b).
Definition nsub (a b : Q) : Q := Qred (a - b).
Definition nneg (a : Q) : Q := Qred (- a).
Definition nabs (a : Q) : Q := Qred (Qabs a).
Definition nhalf (a : Q) : Q := Qred (a / 2).

(** [Math.min] and [Math.max] on two finite numbers. *)
Definition nmin (a b : Q) : Q := if Qle_bool a b then a else b.
Definition nmax (a b : Q) : Q := if Qle_bool a b then b else a.

(** Strict comparison [a > b]. *)
Definition gtb (a b : Q) : bool := negb (Qle_bool a b).

(** The literal [1e-9]: the binary64 number nearest to 10^-9, which is
    4835703278458517 / 2^82 and lies slightly above 10^-9. *)
Definition EPS : Q := 4835703278458517 # 4835703278458516698824704.

(** [cap > 1e-9] *)
Definition gt_eps (c : Q) : bool := gtb c EPS.

(** [Math.min(pushed, cap)] where [pushed] may be [Infinity] ([None]). *)
Definition min_pushed (pushed : option Q) (c : Q) : Q :=
  match pushed with
  | None => c
  | Some p => nmin p c
  end.

(** ** Bounded loops

    [loop_pos bound step a] runs [step] from [a] until it answers [inr]
    (the loop condition failed), at most [bound] times; the bound is a
    binary number, so a large bound costs nothing when the loop stops
    early. *)

Section Loop.
Context {A B : Type} (step : A → option (A + B)).

Fixpoint loop_nat (n : nat) (a : A) : option (A + B) :=
  match n with
  | O => Some (inl a)
  | S n' =>
      match step a with
      | Some (inl a') => loop_nat n' a'
      | r => r
      end
  end.

Fixpoint loop_pos (p : positive) (a : A) : option (A + B) :=
  match p with
  | xH => step a
  | xO p' =>
      match loop_pos p' a with
      | Some (inl a') => loop_pos p' a'
      | r => r
      end
  | xI p' =>
      match step a with
      | Some (inl a') =>
          match loop_pos p' a' with
          | Some (inl a'') => loop_pos p' a''
          | r => r
          end
      | r => r
      end
  end.

Definition while_loop (bound : positive) (a : A) : option B :=
  match loop_pos bound a with
  | Some (inr b) => Some b
  | _ => None
  end.
End Loop.

(** ** The flow network (class Dinic) *)

Record DinicEdge := mkEdge { to : nat; rev : nat; cap : Q }.

Abbreviation Adj := (list (list DinicEdge)).

(** [new Dinic(size)] *)
Definition newDinic (size : nat) : Adj := replicate size [].

(** [addEdge(u, v, cap)]: both lengths are read before either push. *)
Definition addEdge (u v : nat) (c : Q) (adj : Adj) : option Adj :=
  lv ← adj !! v;
  lu ← adj !! u;
  let fwd := mkEdge v (length lv) c in
  let bwd := mkEdge u (length lu) 0 in
  let adj1 := <[u := lu ++ [fwd]]> adj in
  lv1 ← adj1 !! v;
  Some (<[v := lv1 ++ [bwd]]> adj1).

(** [e.cap = c] on the edge object stored at [adj[u][i]]. *)
Definition set_cap (u i : nat) (c : Q) (adj : Adj) : option Adj :=
  es ← adj !! u;
  e ← es !! i;
  Some (<[u := <[i := mkEdge (to e) (rev e) c]> es]> adj).

Definition slot (adj : Adj) (u i : nat) : option DinicEdge :=
  es ← adj !! u; es !! i.

(** *** bfs *)

(** [level[e.to] < 0]; an index out of range reads [undefined], and
    [undefined < 0] is false. *)
Definition level_unset (level : list Z) (w : nat) : bool :=
  match level !! w with
  | Some l => (l <? 0)%Z
  | None => false
  end.

(** One pass of the inner [for (const e of this.adj[v])] of bfs. *)
Definition bfs_relax (v : nat) (acc : list Z * list nat) (e : DinicEdge)
  : list Z * list nat :=
  let '(level, q) := acc in
  if gt_eps (cap e) && level_unset level (to e) then
    match level !! v with
    | Some lv => (<[to e := (lv + 1)%Z]> level, q ++ [to e])
    | None => (level, q)
    end
  else (level, q).

(** The loop [for (let i = 0; i < q.length; i++)]. *)
Fixpoint bfs_loop (fuel : nat) (adj : Adj) (i : nat) (q : list nat)
  (level : list Z) : option (list Z) :=
  match q !! i with
  | None => Some level
  | Some v =>
      match fuel with
      | O => None
      | S fuel' =>
          es ← adj !! v;
          let '(level', q') := foldl (bfs_relax v) (level, q) es in
          bfs_loop fuel' adj (S i) q' level'
      end
  end.

(** [bfs()]: the level array after the search; the caller tests
    [level[sink] >= 0]. *)
Definition bfs (adj : Adj) (source : nat) : option (list Z) :=
  let level := replicate (length adj) (-1)%Z in
  if decide (source < length adj)%nat then
    bfs_loop (length adj) adj 0 [source] (<[source := 0%Z]> level)
  else None.

Definition level_reached (level : list Z) (w : nat) : bool :=
  match level !! w with
  | Some l => (0 <=? l)%Z
  | None => false
  end.

(** *** dfs *)

Record FlowState := mkFS { fs_adj : Adj; fs_it : list nat }.

(** [level[e.to] === level[v] + 1] *)
Definition level_next (level : list Z) (v w : nat) : bool :=
  match level !! v, level !! w with
  | Some lv, Some lw => (lw =? lv + 1)%Z
  | _, _ => false
  end.

(** [it[v]++] *)
Definition it_incr (v : nat) (st : FlowState) : FlowState :=
  match fs_it st !! v with
  | Some i => mkFS (fs_adj st) (<[v := S i]> (fs_it st))
  | None => st
  end.

(** [e.cap -= tr; this.adj[e.to][e.rev].cap += tr] for the edge object
    [e] stored at [adj[v][i]]. *)
Definition push_edge (v i : nat) (tr : Q) (adj : Adj) : option Adj :=
  e ← slot adj v i;
  adj1 ← set_cap v i (nsub (cap e) tr) adj;
  r ← slot adj1 (to e) (rev e);
  set_cap (to e) (rev e) (nadd (cap r) tr) adj1.

(** The [for (; it[v] < this.adj[v].length; it[v]++)] loop of dfs;
    [rec] is the recursive call [dfs(e.to, Math.min(pushed, e.cap))]
    and [n] bounds the number of iterations. *)
Fixpoint dfs_edges (rec : nat → Q → FlowState → option (Q * FlowState))
  (level : list Z) (v : nat) (pushed : option Q) (n : nat) (st : FlowState)
  : option (Q * FlowState) :=
  es ← fs_adj st !! v;
  i ← fs_it st !! v;
  match es !! i with
  | None => Some (0, st)
  | Some e =>
      match n with
      | O => None
      | S n' =>
          if gt_eps (cap e) && level_next level v (to e) then
            '(tr, st1) ← rec (to e) (min_pushed pushed (cap e)) st;
            if gtb tr 0 then
              adj2 ← push_edge v i tr (fs_adj st1);
              Some (tr, mkFS adj2 (fs_it st1))
            else dfs_edges rec level v pushed n' (it_incr v st1)
          else dfs_edges rec level v pushed n' (it_incr v st)
      end
  end.

(** [pushed === 0] *)
Definition pushed_zero (pushed : option Q) : bool :=
  match pushed with
  | Some p => Qeq_bool p 0
  | None => false
  end.

(** [dfs(v, pushed)]; [d] bounds the recursion depth.  At the sink the
    source returns [pushed], which is a modelled number unless it is
    still [Infinity]. *)
Fixpoint dfs (d : nat) (level : list Z) (sink : nat) (v : nat)
  (pushed : option Q) (st : FlowState) : option (Q * FlowState) :=
  match d with
  | O => None
  | S d' =>
      if bool_decide (v = sink) || pushed_zero pushed then
        match pushed with
        | Some p => Some (p, st)
        | None => None
        end
      else
        es ← fs_adj st !! v;
        dfs_edges (λ w p, dfs d' level sink w (Some p)) level v pushed
          (S (length es)) st
  end.

(** The depth bound handed to the root call: levels grow by one along
    every recursive call. *)
Definition depth_bound (level : list Z) : nat :=
  S (S (Z.to_nat (foldr Z.max 0%Z level))).

(** [dfs(source, Number.POSITIVE_INFINITY)] *)
Definition dfs_root (level : list Z) (source sink : nat) (st : FlowState)
  : option (Q * FlowState) :=
  dfs (depth_bound level) level sink source None st.

(** *** maxFlow *)

Definition sum_caps (es : list DinicEdge) : Q :=
  foldr (λ e acc, cap e + acc) 0 es.

(** Iteration bound of the two loops of [maxFlow]: every augmentation
    moves more than [1e-9] out of the source's edges, so there are
    fewer than [10^9] times their capacity. *)
Definition flow_bound (adj : Adj) (source : nat) : positive :=
  match adj !! source with
  | Some es => Z.to_pos (Qceiling (sum_caps es * 1000000000) + 2)
  | None => 1%positive
  end.

(** [while (pushed > 0) { flow += pushed; pushed = dfs(...) }] on the
    state (flow, pushed, network). *)
Definition push_step (level : list Z) (source sink : nat)
  (a : Q * Q * FlowState) : option (Q * Q * FlowState + Q * FlowState) :=
  let '(flow, pushed, st) := a in
  if gtb pushed 0 then
    '(pushed', st') ← dfs_root level source sink st;
    Some (inl (nadd flow pushed, pushed', st'))
  else Some (inr (flow, st)).

(** [while (bfs()) { it.fill(0); ... }] on the state (flow, network). *)
Definition phase_step (bound : positive) (source sink : nat)
  (a : Q * Adj) : option (Q * Adj + Q * Adj) :=
  let '(flow, adj) := a in
  level ← bfs adj source;
  if level_reached level sink then
    let st := mkFS adj (replicate (length adj) 0%nat) in
    '(pushed, st1) ← dfs_root level source sink st;
    '(flow', st2) ← while_loop (push_step level source sink) bound
                      (flow, pushed, st1);
    Some (inl (flow', fs_adj st2))
  else Some (inr (flow, adj)).

(** [maxFlow(source, sink)]: the flow value and the residual network. *)
Definition maxFlow (adj : Adj) (source sink : nat) : option (Q * Adj) :=
  let bound := flow_bound adj source in
  while_loop (phase_step bound source sink) bound (0, adj).

(** *** reachable *)

(** [seen[w] = true]; writing past the end of a JavaScript array extends
    it (the holes read as [undefined], which is falsy). *)
Definition js_set_true (w : nat) (seen : list bool) : list bool :=
  if decide (w < length seen)%nat then <[w := true]> seen
  else seen ++ replicate (w - length seen) false ++ [true].

Definition seen_at (seen : list bool) (w : nat) : bool :=
  default false (seen !! w).

Definition reach_relax (acc : list bool * list nat) (e : DinicEdge)
  : list bool * list nat :=
  let '(seen, stack) := acc in
  if gt_eps (cap e) && negb (seen_at seen (to e)) then
    (js_set_true (to e) seen, to e :: stack)
  else (seen, stack).

(** [while (stack.length) { const v = stack.pop(); ... }]; the head of
    the list is the top of the stack. *)
Fixpoint reach_loop (fuel : nat) (adj : Adj) (stack : list nat)
  (seen : list bool) : option (list bool) :=
  match stack with
  | [] => Some seen
  | v :: stack' =>
      match fuel with
      | O => None
      | S fuel' =>
          es ← adj !! v;
          let '(seen', stack'') := foldl reach_relax (seen, stack') es in
          reach_loop fuel' adj stack'' seen'
      end
  end.

Definition reachable (adj : Adj) (source : nat) : option (list bool) :=
  reach_loop (S (length adj)) adj [source]
    (js_set_true source (replicate (length adj) false)).

(** ** Graphs and solutions (lib/types.ts) *)

Module Types.
Record Chunk := mkChunk { id : string; weight : option Q }.
Record Edge := mkEdge { from : string; to : string }.
Record Graph := mkGraph { chunks : list (string * Chunk); edges : list Edge }.
Record ClosureSolution := mkSolution {
  closure : list string;
  totalWeight : Q;
  size : nat;
  penalty : option Q
}.
End Types.

Abbreviation Chunk := Types.Chunk.
Abbreviation Edge := Types.Edge.
Abbreviation Graph := Types.Graph.
Abbreviation ClosureSolution := Types.ClosureSolution.

(** [Object.values(graph.chunks)] *)
Definition values (g : Graph) : list Chunk := (Types.chunks g).*2.

(** [c.weight ?? 0] *)
Definition weight_or0 (c : Chunk) : Q := default 0 (Types.weight c).

(** [graph.chunks[id]?.weight ?? 0] *)
Definition lookup_weight (g : Graph) (i : string) : Q :=
  match list_find (λ kc, kc.1 = i) (Types.chunks g) with
  | Some (_, (_, c)) => weight_or0 c
  | None => 0
  end.

(** [chunks.findIndex((c) => c.id === x)]; [None] is [-1]. *)
Definition findIndex (chunks : list Chunk) (x : string) : option nat :=
  fst <$> list_find (λ c, Types.id c = x) chunks.

(** ** Closure Builder *)

Definition source : nat := 0.
Definition sink : nat := 1.
Definition offset : nat := 2.

(** [weights.reduce((acc, w) => acc + Math.abs(w - penalty), 0) + 1] *)
Definition INF_of (weights : list Q) (penalty : Q) : Q :=
  nadd (foldl (λ acc w, nadd acc (nabs (nsub w penalty))) 0 weights) 1.

(** The first [chunks.forEach]: one terminal edge per chunk. *)
Fixpoint add_chunk_edges (penalty : Q) (idx : nat) (chunks : list Chunk)
  (adj : Adj) : option Adj :=
  match chunks with
  | [] => Some adj
  | c :: rest =>
      let node := (idx + offset)%nat in
      let w := nsub (weight_or0 c) penalty in
      adj' ← (if Qle_bool 0 w then addEdge source node w adj
              else addEdge node sink (nneg w) adj);
      add_chunk_edges penalty (S idx) rest adj'
  end.

(** [graph.edges.forEach]: one edge of capacity [INF] per dependency
    whose two ends are found among the chunks. *)
Fixpoint add_dep_edges (chunks : list Chunk) (INF : Q) (es : list Edge)
  (adj : Adj) : option Adj :=
  match es with
  | [] => Some adj
  | e :: rest =>
      adj' ← match findIndex chunks (Types.from e),
                   findIndex chunks (Types.to e) with
             | Some fromIdx, Some toIdx =>
                 addEdge (fromIdx + offset) (toIdx + offset) INF adj
             | _, _ => Some adj
             end;
      add_dep_edges chunks INF rest adj'
  end.

(** The flow network of [buildClosure]. *)
Definition network (g : Graph) (penalty : Q) : option Adj :=
  let chunks := values g in
  let weights := weight_or0 <$> chunks in
  let INF := INF_of weights penalty in
  adj1 ← add_chunk_edges penalty 0 chunks
            (newDinic (length chunks + offset));
  add_dep_edges chunks INF (Types.edges g) adj1.

(** The second [chunks.forEach]: ids of the chunks whose node is
    reached. *)
Fixpoint collect (reach : list bool) (idx : nat) (chunks : list Chunk)
  : list string :=
  match chunks with
  | [] => []
  | c :: rest =>
      if seen_at reach (idx + offset) then
        Types.id c :: collect reach (S idx) rest
      else collect reach (S idx) rest
  end.

(** [ids.reduce((acc, id) => acc + (graph.chunks[id]?.weight ?? 0), 0)] *)
Definition total_of (g : Graph) (ids : list string) : Q :=
  foldl (λ acc i, nadd acc (lookup_weight g i)) 0 ids.

Definition buildClosure (g : Graph) (penalty : Q) : option ClosureSolution :=
  let chunks := values g in
  if decide (length chunks = 0%nat) then
    Some (Types.mkSolution [] 0 0 (Some penalty))
  else
    adj ← network g penalty;
    '(_, adj') ← maxFlow adj source sink;
    reach ← reachable adj' source;
    let closure := collect reach 0 chunks in
    Some (Types.mkSolution closure (total_of g closure) (length closure)
            (Some penalty)).

Definition maximumWeightClosure (g : Graph) : option ClosureSolution :=
  buildClosure g 0.

(** ** Size Enforcer *)

(** A JavaScript [Set] of strings: its elements in insertion order. *)
Definition set_add (x : string) (s : list string) : list string :=
  if bool_decide (x ∈ s) then s else s ++ [x].
Definition set_has (s : list string) (x : string) : bool :=
  bool_decide (x ∈ s).
Definition set_delete (x : string) (s : list string) : list string :=
  filter (λ y, y ≠ x) s.
(** [new Set(ids)] *)
Definition set_of (ids : list string) : list string :=
  foldl (λ s x, set_add x s) [] ids.

(** [Array.prototype.sort] with a numeric comparator; the sort is
    stable. *)
Fixpoint sort_insert {A} (cmp : A → A → Q) (x : A) (l : list A) : list A :=
  match l with
  | [] => [x]
  | y :: l' =>
      if gtb (cmp x y) 0 then y :: sort_insert cmp x l' else x :: y :: l'
  end.
Definition js_sort {A} (cmp : A → A → Q) (l : list A) : list A :=
  foldr (sort_insert cmp) [] l.

(** [l.slice(0, k)] for an integer [k]; a negative [k] counts from the
    end. *)
Definition slice0 {A} (k : Z) (l : list A) : list A :=
  if (0 <=? k)%Z then take (Z.to_nat k) l
  else take (length l - Z.to_nat (- k)) l.

(** The reverse-dependency index [dependents]. *)
Definition dependents_of (es : list Edge) : gmap string (list string) :=
  foldl (λ m e,
           <[Types.to e := set_add (Types.from e)
                             (default [] (m !! Types.to e))]> m)
        ∅ es.

(** The [weights] record of [enforceSizeLimit], for ids other than
    [__proto__].  The record is an object literal: an assignment to its
    [__proto__] stores nothing, and the comparators then compute with
    [NaN] on that id, which leaves the order of the sorted ids to the
    engine.  The theorems on that order exclude the id. *)
Definition weights_of (g : Graph) (ids : list string) : gmap string Q :=
  foldl (λ acc i, <[i := lookup_weight g i]> acc) ∅ ids.

(** [weights[a] ?? 0] *)
Definition weight_in (weights : gmap string Q) (a : string) : Q :=
  default 0 (weights !! a).

(** [deps ? [...deps].some((d) => keep.has(d)) : false] *)
Definition isDependency (dependents : gmap string (list string))
  (keep : list string) (cid : string) : bool :=
  match dependents !! cid with
  | Some deps => existsb (set_has keep) deps
  | None => false
  end.

(** The [for (const cid of removable)] loop with its [break]. *)
Fixpoint trim (dependents : gmap string (list string)) (k : Z)
  (removable : list string) (keep : list string) : list string :=
  match removable with
  | [] => keep
  | cid :: rest =>
      if (Z.of_nat (length keep) <=? k)%Z then keep
      else if isDependency dependents keep cid then
             trim dependents k rest keep
           else trim dependents k rest (set_delete cid keep)
  end.

(** The keep set after the removal loop. *)
Definition trimmed (g : Graph) (closureIds : list string) (k : Z)
  : list string :=
  let dependents := dependents_of (Types.edges g) in
  let weights := weights_of g closureIds in
  let removable :=
    js_sort (λ a b, nsub (weight_in weights a) (weight_in weights b))
      closureIds in
  trim dependents k removable (set_of closureIds).

Definition enforceSizeLimit (g : Graph) (closureIds : list string) (k : Z)
  : list string :=
  if (Z.of_nat (length closureIds) <=? k)%Z then closureIds
  else
    let weights := weights_of g closureIds in
    let keep := trimmed g closureIds k in
    if (k <? Z.of_nat (length keep))%Z then
      slice0 k
        (js_sort (λ a b, nsub (weight_in weights b) (weight_in weights a))
           keep)
    else keep.

(** The last-resort branch of [enforceSizeLimit] is taken. *)
Definition fallback_taken (g : Graph) (closureIds : list string) (k : Z)
  : bool :=
  negb (Z.of_nat (length closureIds) <=? k)%Z
  && (k <? Z.of_nat (length (trimmed g closureIds k)))%Z.

(** ** Size-Target Search *)

(** [Math.min(...ws)] and [Math.max(...ws)]; on an empty list the
    source gets an infinity, which is not a modelled number. *)
Definition min_list (ws : list Q) : option Q :=
  match ws with
  | [] => None
  | w :: rest => Some (foldl nmin w rest)
  end.
Definition max_list (ws : list Q) : option Q :=
  match ws with
  | [] => None
  | w :: rest => Some (foldl nmax w rest)
  end.

(** [Math.abs(c.size - k)] *)
Definition size_diff (c : ClosureSolution) (k : Z) : Z :=
  Z.abs (Z.of_nat (Types.size c) - k).

(** The test that replaces [best] by [candidate]. *)
Definition better (best : option ClosureSolution) (candidate : ClosureSolution)
  (k : Z) : bool :=
  match best with
  | None => true
  | Some b =>
      (size_diff candidate k <? size_diff b k)%Z
      || ((size_diff candidate k =? size_diff b k)%Z
          && gtb (Types.totalWeight candidate) (Types.totalWeight b))
  end.

(** The [for (let i = 0; i < 36; i++)] loop on (low, high, best). *)
Fixpoint search (g : Graph) (k : Z) (n : nat) (low high : Q)
  (best : option ClosureSolution) : option (option ClosureSolution) :=
  match n with
  | O => Some best
  | S n' =>
      let penalty := nhalf (nadd low high) in
      candidate ← buildClosure g penalty;
      let best' := if better best candidate k then Some candidate else best in
      if (k <? Z.of_nat (Types.size candidate))%Z
      then search g k n' penalty high best'
      else search g k n' low penalty best'
  end.

(** The penalty search with [n] iterations: its best candidate, or the
    unconstrained solution when there is none. *)
Definition search_from (n : nat) (g : Graph) (k : Z) : option ClosureSolution :=
  let weights := weight_or0 <$> values g in
  minW ← min_list weights;
  maxW ← max_list weights;
  let low := nsub (nsub minW (nabs minW)) 5 in
  let high := nadd (nadd maxW (nabs maxW)) 5 in
  best ← search g k n low high None;
  match best with
  | Some b => Some b
  | None => maximumWeightClosure g
  end.

(** The source runs 36 iterations. *)
Definition search_final (g : Graph) (k : Z) : option ClosureSolution :=
  search_from 36 g k.

Definition solveClosureBySize (g : Graph) (k : Z) : option ClosureSolution :=
  let chunks := values g in
  if (k <=? 0)%Z || bool_decide (length chunks = 0%nat) then
    Some (Types.mkSolution [] 0 0 None)
  else if (Z.of_nat (length chunks) <=? k)%Z then maximumWeightClosure g
  else
    final ← search_final g k;
    let finalIds := enforceSizeLimit g (Types.closure final) k in
    Some (Types.mkSolution finalIds (total_of g finalIds) (length finalIds)
            (Types.penalty final)).

(** ** Sample graphs *)

Definition chunk (i : string) (w : Q) : string * Chunk :=
  (i, Types.mkChunk i (Some w)).

(** A needs B; weights 10 and -3. *)
Definition graph_pull : Graph :=
  Types.mkGraph [chunk "A" 10; chunk "B" (-3)] [Types.mkEdge "A" "B"].

(** The chain A -> B -> C with weights 10, 5, 1. *)
Definition graph_chain : Graph :=
  Types.mkGraph [chunk "A" 10; chunk "B" 5; chunk "C" 1]
    [Types.mkEdge "A" "B"; Types.mkEdge "B" "C"].


(** A dependency on an id that is not a chunk. *)
Definition graph_dangling : Graph :=
  Types.mkGraph [chunk "A" 10] [Types.mkEdge "A" "Z"].

(** No chunks at all. *)
Definition graph_empty : Graph := Types.mkGraph [] [].

(** One chunk of weight zero and no dependencies. *)
Definition graph_zero : Graph := Types.mkGraph [chunk "A" 0] [].

(** A needs B and C; weights 1.5e-9, -1e-9 and -1e-9. *)
Definition graph_tiny : Graph :=
  Types.mkGraph
    [chunk "A" (3 # 2000000000); chunk "B" (-1 # 1000000000);
     chunk "C" (-1 # 1000000000)]
    [Types.mkEdge "A" "B"; Types.mkEdge "A" "C"].

(** Six chunks with weights 15, 23, 29, -16, -29 and 11 times 1e-10. *)
Definition graph_nonmono : Graph :=
  Types.mkGraph
    [chunk "A" (15 # 10000000000); chunk "B" (23 # 10000000000);
     chunk "C" (29 # 10000000000); chunk "D" (-16 # 10000000000);
     chunk "E" (-29 # 10000000000); chunk "F" (11 # 10000000000)]
    [Types.mkEdge "A" "F"; Types.mkEdge "C" "E"; Types.mkEdge "B" "C";
     Types.mkEdge "F" "D"; Types.mkEdge "A" "E"].

(** ** The chunk list of a solution (app/components/RepoRunner.tsx) *)

(** The property names that an object literal or a parsed JSON object
    inherits from [Object.prototype]. *)
Definition object_prototype_keys : list string :=
  ["constructor"; "__defineGetter__"; "__defineSetter__"; "hasOwnProperty";
   "__lookupGetter__"; "__lookupSetter__"; "isPrototypeOf";
   "propertyIsEnumerable"; "toString"; "valueOf"; "__proto__";
   "toLocaleString"].

(** The chunk stored under the key [i] of [graph.chunks]. *)
Definition own_chunk (g : Graph) (i : string) : option Chunk :=
  match list_find (λ kc, kc.1 = i) (Types.chunks g) with
  | Some (_, (_, c)) => Some c
  | None => None
  end.

(** What a property read on [graph.chunks] evaluates to. *)
Inductive Member :=
| OwnChunk (c : Chunk)
| Inherited
| Undefined.

(** [graph.chunks[id]]: the chunk stored under the key; without such a
    key the member of [Object.prototype] of that name, a function or an
    object; [undefined] otherwise. *)
Definition lookup_chunk (g : Graph) (i : string) : Member :=
  match own_chunk g i with
  | Some c => OwnChunk c
  | None =>
      if bool_decide (i ∈ object_prototype_keys) then Inherited else Undefined
  end.

(** [Boolean(m)]: chunks, functions and objects are truthy. *)
Definition truthy (m : Member) : bool :=
  match m with
  | Undefined => false
  | _ => true
  end.

Definition as_chunk (m : Member) : option Chunk :=
  match m with
  | OwnChunk c => Some c
  | _ => None
  end.

(** [closure.closure.map((id) => graph.chunks[id]).filter(Boolean)
      .sort((a, b) => b.weight - a.weight)].
    An inherited member passes the filter; the list then holds a value
    that is no chunk, which is not modelled ([None]).  The comparator
    reads [weight] without a default: on a chunk that has none it
    answers [NaN], and the order that the engine then produces is not
    modelled either ([None]). *)
Definition chunkListFromClosure (g : Graph) (sol : ClosureSolution)
  : option (list Chunk) :=
  let members := filter (λ m, truthy m = true)
                   (lookup_chunk g <$> Types.closure sol) in
  found ← mapM as_chunk members;
  if forallb (λ c, bool_decide (is_Some (Types.weight c))) found then
    Some (js_sort (λ a b, nsub (weight_or0 b) (weight_or0 a)) found)
  else None.
(** * Specification vocabulary *)

(** The part of a network that [maxFlow] never changes: the endpoints
    and the pairing of the edges. *)
Definition shape (adj : Adj) : list (list (nat * nat)) :=
  map (map (λ e, (to e, rev e))) adj.

(** Every edge names a paired edge that points back. *)
Definition wf_adj (adj : Adj) : Prop :=
  ∀ u i e, slot adj u i = Some e →
    ∃ r, slot adj (to e) (rev e) = Some r ∧ to r = u.

Definition nonneg (adj : Adj) : Prop :=
  ∀ u i e, slot adj u i = Some e → 0 <= cap e.

(** Residual capacity leaving a node set [X]. *)
Definition crossing (X : nat → bool) (e : DinicEdge) : Q :=
  if X (to e) then 0 else cap e.

Definition row_cut (X : nat → bool) (es : list DinicEdge) : Q :=
  foldr (λ e acc, crossing X e + acc) 0 es.

Fixpoint cut_from (X : nat → bool) (u : nat) (adj : Adj) : Q :=
  match adj with
  | [] => 0
  | es :: rest => (if X u then row_cut X es else 0) + cut_from X (S u) rest
  end.

Definition rescut (X : nat → bool) (adj : Adj) : Q := cut_from X 0 adj.

(** A set of numbers closed under the arithmetic of an augmentation
    (the integers, for one). *)
Record closed_grid (G : Q → Prop) : Prop := mkGrid {
  grid_eq : ∀ a b, a == b → G a → G b;
  grid_zero : G 0;
  grid_add : ∀ a b, G a → G b → G (a + b);
  grid_sub : ∀ a b, G a → G b → G (a - b)
}.

Definition on_grid (G : Q → Prop) (adj : Adj) : Prop :=
  ∀ u i e, slot adj u i = Some e → G (cap e).

(** Node [u] lies on a strictly lower level than node [v]. *)
Definition level_lt (level : list Z) (u v : nat) : Prop :=
  ∃ lu lv, level !! u = Some lu ∧ level !! v = Some lv ∧ (lu < lv)%Z.

(** What one call [dfs(v, pushed)] that returns [tr] does to the
    network and to the cursors. *)
Record dfs_post (level : list Z) (t v : nat) (pushed : option Q)
  (st : FlowState) (tr : Q) (st' : FlowState) : Prop := mkPost {
  post_shape : shape (fs_adj st') = shape (fs_adj st);
  post_it_len : length (fs_it st') = length (fs_it st);
  post_it_low : ∀ u, level_lt level u v → fs_it st' !! u = fs_it st !! u;
  post_tr_nonneg : 0 <= tr;
  post_tr_le : ∀ p, pushed = Some p → tr <= p;
  post_tr_eps : 0 < tr → EPS < tr;
  post_same : ¬ 0 < tr → fs_adj st' = fs_adj st;
  post_cut : ∀ X, X t = false →
    rescut X (fs_adj st') == rescut X (fs_adj st) - (if X v then tr else 0);
  post_nonneg : nonneg (fs_adj st');
  post_cap_drop : ∀ u i e e',
    slot (fs_adj st) u i = Some e → slot (fs_adj st') u i = Some e' →
    cap e - tr <= cap e';
  post_cap_low : ∀ u i e e', level_lt level u v →
    slot (fs_adj st) u i = Some e → slot (fs_adj st') u i = Some e' →
    cap e <= cap e';
  post_grid : ∀ G, closed_grid G → on_grid G (fs_adj st) →
    (∀ p, pushed = Some p → G p) → G tr ∧ on_grid G (fs_adj st')
}.

(** Node [w] got level [lw] from an open edge out of a node one level
    below. *)
Definition has_parent (adj : Adj) (level : list Z) (w : nat) (lw : Z) : Prop :=
  ∃ u i e lu, slot adj u i = Some e ∧ to e = w ∧ EPS < cap e ∧
              level !! u = Some lu ∧ (0 <= lu)%Z ∧ lw = (lu + 1)%Z.

(** Invariant of the bfs loop at queue position [i]. *)
Record bfs_inv (adj : Adj) (s i : nat) (q : list nat) (level : list Z)
  : Prop := mkBfsInv {
  bi_len : length level = length adj;
  bi_src : level !! s = Some 0%Z;
  bi_nodup : NoDup q;
  bi_queue : ∀ w, w ∈ q ↔ level_reached level w = true;
  bi_parent : ∀ w lw, level !! w = Some lw → (0 <= lw)%Z →
                      w = s ∨ has_parent adj level w lw;
  bi_done : ∀ j u k e, (j < i)%nat → q !! j = Some u →
                       slot adj u k = Some e → EPS < cap e →
                       level_reached level (to e) = true
}.

(** What [bfs] guarantees about the level array. *)
Record bfs_post (adj : Adj) (s : nat) (level : list Z) : Prop := mkBfsPost {
  bp_len : length level = length adj;
  bp_src : level !! s = Some 0%Z;
  bp_parent : ∀ w lw, level !! w = Some lw → (0 <= lw)%Z →
                      w = s ∨ has_parent adj level w lw;
  bp_closed : ∀ u k e, slot adj u k = Some e → EPS < cap e →
                       level_reached level u = true →
                       level_reached level (to e) = true
}.

(** Number of nodes not yet marked by [reachable]. *)
Fixpoint unseen (seen : list bool) : nat :=
  match seen with
  | [] => 0
  | b :: rest => (if b then 0 else 1) + unseen rest
  end.

(** A node set closed under the open residual edges. *)
Definition open_closed (adj : Adj) (Y : nat → Prop) : Prop :=
  ∀ u k e, slot adj u k = Some e → EPS < cap e → Y u → Y (to e).

(** State of [reachable] while the edges of the popped node [v] are
    scanned; [pre] are the edges already scanned. *)
Record reach_mid (adj : Adj) (s v : nat) (pre : list DinicEdge)
  (stack : list nat) (seen : list bool) : Prop := mkReachMid {
  rm_len : length seen = length adj;
  rm_src : seen_at seen s = true;
  rm_cur : seen_at seen v = true;
  rm_stack : ∀ x, x ∈ stack → seen_at seen x = true;
  rm_closed : ∀ u k e, slot adj u k = Some e → EPS < cap e →
                       seen_at seen u = true → u ∉ stack → u ≠ v →
                       seen_at seen (to e) = true;
  rm_pre : ∀ e, e ∈ pre → EPS < cap e → seen_at seen (to e) = true;
  rm_sound : ∀ Y : nat → Prop, Y s → open_closed adj Y →
                               ∀ w, seen_at seen w = true → Y w
}.

(** Invariant of the [while (stack.length)] loop. *)
Record reach_inv (adj : Adj) (s : nat) (stack : list nat) (seen : list bool)
  : Prop := mkReachInv {
  ri_len : length seen = length adj;
  ri_src : seen_at seen s = true;
  ri_stack : ∀ x, x ∈ stack → seen_at seen x = true;
  ri_closed : ∀ u k e, slot adj u k = Some e → EPS < cap e →
                       seen_at seen u = true → u ∉ stack →
                       seen_at seen (to e) = true;
  ri_sound : ∀ Y : nat → Prop, Y s → open_closed adj Y →
                               ∀ w, seen_at seen w = true → Y w
}.

(** What [reachable] guarantees: the marked nodes are the least set
    that holds the source and is closed under open edges. *)
Record reach_post (adj : Adj) (s : nat) (seen : list bool) : Prop := mkReachPost {
  rp_len : length seen = length adj;
  rp_src : seen_at seen s = true;
  rp_closed : open_closed adj (λ u, seen_at seen u = true);
  rp_sound : ∀ Y : nat → Prop, Y s → open_closed adj Y →
                               ∀ w, seen_at seen w = true → Y w
}.

(** From [v] the sink can be reached along open edges that climb one
    level at a time. *)
Inductive live (adj : Adj) (level : list Z) (t : nat) : nat → Prop :=
| live_sink : live adj level t t
| live_step v i e :
    slot adj v i = Some e → EPS < cap e →
    level_next level v (to e) = true →
    live adj level t (to e) → live adj level t v.

(** The edges that the cursors have passed lead nowhere. *)
Definition dead_before (adj : Adj) (level : list Z) (t : nat)
  (it : list nat) : Prop :=
  ∀ v iv i e, it !! v = Some iv → (i < iv)%nat →
    slot adj v i = Some e → EPS < cap e →
    level_next level v (to e) = true →
    ¬ live adj level t (to e).

(** What the edge loop of dfs assumes about its recursive call: the
    postcondition, an answer, and no missed path. *)
Definition rec_ok (level : list Z) (t v : nat)
  (rec : nat → Q → FlowState → option (Q * FlowState)) : Prop :=
  ∀ w p st tr st',
    level_next level v w = true → EPS < p →
    wf_adj (fs_adj st) → nonneg (fs_adj st) →
    rec w p st = Some (tr, st') →
    dfs_post level t w (Some p) st tr st'.

Definition rec_total (level : list Z) (v : nat)
  (rec : nat → Q → FlowState → option (Q * FlowState)) : Prop :=
  ∀ w p st,
    level_next level v w = true → EPS < p →
    wf_adj (fs_adj st) → nonneg (fs_adj st) →
    length (fs_it st) = length (fs_adj st) →
    (w < length (fs_adj st))%nat →
    ∃ r, rec w p st = Some r.

Definition rec_complete (level : list Z) (t v : nat)
  (rec : nat → Q → FlowState → option (Q * FlowState)) : Prop :=
  ∀ w p st tr st',
    level_next level v w = true → EPS < p →
    wf_adj (fs_adj st) → nonneg (fs_adj st) →
    dead_before (fs_adj st) level t (fs_it st) →
    rec w p st = Some (tr, st') → ¬ 0 < tr →
    ¬ live (fs_adj st) level t w ∧
    dead_before (fs_adj st) level t (fs_it st').

(** The residual network [adj] carries a flow of value [F] on top of
    the network [adj0]. *)
Record flow_inv (adj0 : Adj) (s t : nat) (F : Q) (adj : Adj) : Prop := mkFlowInv {
  fi_shape : shape adj = shape adj0;
  fi_nonneg : nonneg adj;
  fi_flow : 0 <= F;
  fi_cut : ∀ X, X t = false →
    rescut X adj == rescut X adj0 - (if X s then F else 0);
  fi_cap : ∀ u i e0 e, slot adj0 u i = Some e0 → slot adj u i = Some e →
    cap e0 - F <= cap e;
  fi_grid : ∀ G, closed_grid G → on_grid G adj0 → G F ∧ on_grid G adj
}.

(** Number of augmentations that a flow of value [F] leaves room for
    under the capacity [C] of the source. *)
Definition flow_measure (C F : Q) : nat :=
  Z.to_nat (Qceiling ((C - F) * 1000000000)).

(** The cut that holds the source alone. *)
Definition only (s : nat) : nat → bool := λ u, bool_decide (u = s).

(** Invariant of the inner loop of [maxFlow] during one phase that
    started at flow value [F0]. *)
Definition push_inv (adj0 : Adj) (s t : nat) (F0 : Q)
  (a : Q * Q * FlowState) : Prop :=
  let '(flow, pushed, st) := a in
  flow_inv adj0 s t (flow + pushed) (fs_adj st) ∧
  length (fs_it st) = length (fs_adj st) ∧
  0 <= flow ∧ 0 <= pushed ∧ (0 < pushed → EPS < pushed) ∧
  F0 + EPS < flow + pushed.

(** No open path from the source to the sink is left. *)
Definition saturated (adj : Adj) (s t : nat) : Prop :=
  ∃ level, bfs_post adj s level ∧ level_reached level t = false.

(** ** Graphs *)

(** The ids of the chunks in enumeration order. *)
Definition ids (g : Graph) : list string := Types.id <$> values g.

(** [graph.chunks] is a record: its keys are distinct, and every chunk
    is stored under its own id. *)
Definition wf_graph (g : Graph) : Prop :=
  NoDup (Types.chunks g).*1 ∧
  Forall (λ kc, Types.id kc.2 = kc.1) (Types.chunks g).

(** [weight - penalty] of a chunk. *)
Definition profit_of (p : Q) (c : Chunk) : Q := nsub (weight_or0 c) p.

(** The edges of the network of [buildClosure]: tail, head, initial
    capacity. *)
Inductive net_slot (chunks : list Chunk) (p INF : Q) (deps : list Edge)
  : nat → nat → Q → Prop :=
| ns_src idx c :
    chunks !! idx = Some c → Qle_bool 0 (profit_of p c) = true →
    net_slot chunks p INF deps source (idx + offset) (profit_of p c)
| ns_src_back idx c :
    chunks !! idx = Some c → Qle_bool 0 (profit_of p c) = true →
    net_slot chunks p INF deps (idx + offset) source 0
| ns_snk idx c :
    chunks !! idx = Some c → Qle_bool 0 (profit_of p c) = false →
    net_slot chunks p INF deps (idx + offset) sink (nneg (profit_of p c))
| ns_snk_back idx c :
    chunks !! idx = Some c → Qle_bool 0 (profit_of p c) = false →
    net_slot chunks p INF deps sink (idx + offset) 0
| ns_dep d fi ti :
    d ∈ deps → findIndex chunks (Types.from d) = Some fi →
    findIndex chunks (Types.to d) = Some ti →
    net_slot chunks p INF deps (fi + offset) (ti + offset) INF
| ns_dep_back d fi ti :
    d ∈ deps → findIndex chunks (Types.from d) = Some fi →
    findIndex chunks (Types.to d) = Some ti →
    net_slot chunks p INF deps (ti + offset) (fi + offset) 0.

Definition net_slots (chunks : list Chunk) (p INF : Q) (deps : list Edge)
  (adj : Adj) : Prop :=
  ∀ u i e, slot adj u i = Some e → net_slot chunks p INF deps u (to e) (cap e).

(** Capacity that the terminal edges of the chunks from index [idx] on
    add to the cut [X]. *)
Fixpoint chunk_cut (X : nat → bool) (p : Q) (idx : nat) (chunks : list Chunk)
  : Q :=
  match chunks with
  | [] => 0
  | c :: rest =>
      (if Qle_bool 0 (profit_of p c)
       then (if X source && negb (X (idx + offset)%nat) then profit_of p c else 0)
       else (if X (idx + offset)%nat && negb (X sink)
             then nneg (profit_of p c) else 0))
      + chunk_cut X p (S idx) rest
  end.

(** Capacity that the dependency edges add to the cut [X]. *)
Fixpoint dep_cut (X : nat → bool) (chunks : list Chunk) (INF : Q)
  (deps : list Edge) : Q :=
  match deps with
  | [] => 0
  | d :: rest =>
      match findIndex chunks (Types.from d), findIndex chunks (Types.to d) with
      | Some fi, Some ti =>
          if X (fi + offset)%nat && negb (X (ti + offset)%nat) then INF else 0
      | _, _ => 0
      end + dep_cut X chunks INF rest
  end.

(** Every dependency with both ends among the chunks has its edge. *)
Definition deps_present (chunks : list Chunk) (INF : Q) (deps : list Edge)
  (adj : Adj) : Prop :=
  ∀ d fi ti, d ∈ deps →
    findIndex chunks (Types.from d) = Some fi →
    findIndex chunks (Types.to d) = Some ti →
    ∃ i e, slot adj (fi + offset) i = Some e ∧ to e = (ti + offset)%nat
           ∧ cap e = INF.

(** Every chunk of non-negative profit among the first [n] has its edge
    out of the source. *)
Definition srcs_present (chunks : list Chunk) (p : Q) (n : nat) (adj : Adj)
  : Prop :=
  ∀ idx c, (idx < n)%nat → chunks !! idx = Some c →
    Qle_bool 0 (profit_of p c) = true →
    ∃ i e, slot adj source i = Some e ∧ to e = (idx + offset)%nat
           ∧ cap e = profit_of p c.

(** [Σ |w - p|] over a list of weights. *)
Fixpoint abs_sum (p : Q) (ws : list Q) : Q :=
  match ws with
  | [] => 0
  | w :: rest => Qabs (w - p) + abs_sum p rest
  end.

(** The intermediate values of one run of [buildClosure] on a graph
    that has chunks, with what is known about them. *)
Record closure_run (g : Graph) (p : Q) (adj0 : Adj) (F : Q) (adj : Adj)
  (reach : list bool) : Prop := mkRun {
  run_network : network g p = Some adj0;
  run_length : length adj0 = (length (values g) + offset)%nat;
  run_wf : wf_adj adj0;
  run_slots : net_slots (values g) p (INF_of (weight_or0 <$> values g) p)
                (Types.edges g) adj0;
  run_deps : deps_present (values g) (INF_of (weight_or0 <$> values g) p)
               (Types.edges g) adj0;
  run_srcs : srcs_present (values g) p (length (values g)) adj0;
  run_cut : ∀ X, rescut X adj0 ==
                 chunk_cut X p 0 (values g)
                 + dep_cut X (values g) (INF_of (weight_or0 <$> values g) p)
                     (Types.edges g);
  run_maxFlow : maxFlow adj0 source sink = Some (F, adj);
  run_flow : flow_inv adj0 source sink F adj;
  run_saturated : saturated adj source sink;
  run_reachable : reachable adj source = Some reach;
  run_reach : reach_post adj source reach;
  run_result : buildClosure g p =
    Some (Types.mkSolution (collect reach 0 (values g))
            (total_of g (collect reach 0 (values g)))
            (length (collect reach 0 (values g))) (Some p))
}.

(** A list of ids is closed under the dependencies whose target is a
    chunk of the graph. *)
Definition closed_in (g : Graph) (l : list string) : Prop :=
  ∀ d, d ∈ Types.edges g → Types.to d ∈ ids g →
       Types.from d ∈ l → Types.to d ∈ l.

(** What every result of [buildClosure] satisfies. *)
Record built (g : Graph) (sol : ClosureSolution) : Prop := mkBuilt {
  b_sub : sublist (Types.closure sol) (ids g);
  b_size : Types.size sol = length (Types.closure sol);
  b_total : Types.totalWeight sol = total_of g (Types.closure sol);
  b_closed : NoDup (ids g) → closed_in g (Types.closure sol)
}.

(** The index [m] records exactly the dependencies [es]. *)
Definition dep_map_ok (es : list Edge) (m : gmap string (list string)) : Prop :=
  ∀ b a, (∃ deps, m !! b = Some deps ∧ a ∈ deps) ↔
         (∃ e, e ∈ es ∧ Types.to e = b ∧ Types.from e = a).

(** The keys of [graph.chunks]. *)
Definition keys (g : Graph) : list string := (Types.chunks g).*1.


(** ** Optimality *)

Definition is_int (q : Q) : Prop := ∃ z : Z, q == inject_Z z.

(** Every chunk weight is an integer. *)
Definition int_weights (g : Graph) : Prop :=
  Forall (λ c, is_int (weight_or0 c)) (values g).

(** *** The exact range

    Every integer of magnitude at most 2^53 is a binary64 number, and
    an addition or subtraction of binary64 numbers whose exact result
    is such an integer returns it unrounded. *)
Definition two53 : Q := 9007199254740992.

(** [INF], which bounds every capacity and every flow value that
    [buildClosure] computes at penalty [p], is at most 2^53.  With
    integer weights and an integer penalty every number that
    [buildClosure] computes on the way to the closure is then an
    integer of magnitude at most 2^53; at penalty 0 so is the total
    weight. *)
Definition exact_range (g : Graph) (p : Q) : Prop :=
  INF_of (weight_or0 <$> values g) p <= two53.

(** Total profit [Σ (weight - p)] of the chunks whose node is in [X];
    the chunks are numbered from [idx]. *)
Fixpoint profit_sum (X : nat → bool) (p : Q) (idx : nat) (chunks : list Chunk)
  : Q :=
  match chunks with
  | [] => 0
  | c :: rest =>
      (if X (idx + offset)%nat then profit_of p c else 0)
      + profit_sum X p (S idx) rest
  end.

(** Total of the non-negative profits. *)
Fixpoint pos_sum (p : Q) (chunks : list Chunk) : Q :=
  match chunks with
  | [] => 0
  | c :: rest =>
      (if Qle_bool 0 (profit_of p c) then profit_of p c else 0)
      + pos_sum p rest
  end.

(** [X] holds the source, not the sink, and with the node of a chunk
    the nodes of the chunks it depends on. *)
Record closed_cut (g : Graph) (X : nat → bool) : Prop := mkClosedCut {
  cc_source : X source = true;
  cc_sink : X sink = false;
  cc_deps : ∀ d fi ti, d ∈ Types.edges g →
    findIndex (values g) (Types.from d) = Some fi →
    findIndex (values g) (Types.to d) = Some ti →
    X (fi + offset)%nat = true → X (ti + offset)%nat = true
}.

(** ** Networks as a client builds them *)

(** A sequence of [addEdge(u, v, cap)] calls. *)
Fixpoint add_edges (es : list (nat * nat * Q)) (adj : Adj) : option Adj :=
  match es with
  | [] => Some adj
  | (u, v, c) :: rest => adj' ← addEdge u v c adj; add_edges rest adj'
  end.

(** [new Dinic(n)] followed by the calls [es]. *)
Definition dinic_of (n : nat) (es : list (nat * nat * Q)) : option Adj :=
  add_edges es (newDinic n).

(** Capacity of the calls [es] that lead out of the node set [X]. *)
Fixpoint cut_cap (X : nat → bool) (es : list (nat * nat * Q)) : Q :=
  match es with
  | [] => 0
  | (u, v, c) :: rest =>
      (if X u && negb (X v) then c else 0) + cut_cap X rest
  end.

(** Sum of the capacities of the calls [es]. *)
Definition calls_total (es : list (nat * nat * Q)) : Q :=
  foldr (λ e acc, e.2 + acc) 0 es.

(** The calls have integer capacities that add up to at most 2^53:
    every capacity and every flow value that [maxFlow] computes on
    their network is an integer of magnitude at most 2^53. *)
Definition exact_calls (es : list (nat * nat * Q)) : Prop :=
  Forall (λ e, is_int e.2) es ∧ calls_total es <= two53.

(** Sum of the capacities of all edge objects of a network. *)
Definition total_caps (adj : Adj) : Q :=
  foldr (λ es acc, sum_caps es + acc) 0 adj.

(** The same for a network that is given as it stands. *)
Definition exact_caps (adj : Adj) : Prop :=
  on_grid is_int adj ∧ total_caps adj <= two53.

(** [w] can be reached from [s] along edges of capacity above [1e-9]. *)
Inductive connected (adj : Adj) (s : nat) : nat → Prop :=
| conn_refl : connected adj s s
| conn_step u i e :
    connected adj s u → slot adj u i = Some e → EPS < cap e →
    connected adj s (to e).

(** Number of edge objects of a network. *)
Definition edge_count (adj : Adj) : nat :=
  foldr (λ es n, (length es + n)%nat) 0%nat adj.

(** ** Closures *)

(** The chunks that a closure cannot leave out when nothing has a
    negative profit: those of profit above [1e-9], and the chunks they
    depend on. *)
Inductive pulled (g : Graph) (p : Q) : string → Prop :=
| pulled_profit c :
    c ∈ values g → EPS < profit_of p c → pulled g p (Types.id c)
| pulled_dep d :
    d ∈ Types.edges g → pulled g p (Types.from d) → Types.to d ∈ ids g →
    pulled g p (Types.to d).

(** The node marks that select the chunks whose id is in [l]. *)
Definition marks_of (g : Graph) (l : list string) : list bool :=
  true :: false :: ((λ c, bool_decide (Types.id c ∈ l)) <$> values g).

(** ** Sorted lists *)

(** The values [w] do not decrease along the list. *)
Inductive ascending {A} (w : A → Q) : list A → Prop :=
| asc_nil : ascending w []
| asc_cons x l :
    Forall (λ y, w x <= w y) l → ascending w l → ascending w (x :: l).

(** Total weight of a list of chunks. *)
Definition sum_weights (l : list Chunk) : Q :=
  foldr (λ c acc, weight_or0 c + acc) 0 l.

(** ** The candidates of the penalty search *)

(** The candidates that [search] builds, in the order of the
    iterations. *)
Fixpoint visited (g : Graph) (k : Z) (n : nat) (low high : Q)
  : option (list ClosureSolution) :=
  match n with
  | O => Some []
  | S n' =>
      let penalty := nhalf (nadd low high) in
      c ← buildClosure g penalty;
      rest ← (if (k <? Z.of_nat (Types.size c))%Z
              then visited g k n' penalty high
              else visited g k n' low penalty);
      Some (c :: rest)
  end.

(** Candidate [b] is at least as good as [c]: closer in size to [k],
    or as close and not lighter. *)
Definition at_least (k : Z) (b c : ClosureSolution) : Prop :=
  (size_diff b k < size_diff c k)%Z
  ∨ (size_diff b k = size_diff c k
     ∧ Types.totalWeight c <= Types.totalWeight b).

(** The weights are integers of magnitude at most [M], and the number
    [n] of chunks is small enough for [n * (3 * M + 5) + 1 <= 2^17].
    The penalties of the 36 iterations are then multiples of 2^-36 of
    magnitude at most [2 * M + 5], and every number that [buildClosure]
    computes at them is a multiple of 2^-36 of magnitude at most 2^17,
    which binary64 represents: the search runs without rounding. *)
Definition exact_search (g : Graph) (M : Q) : Prop :=
  int_weights g ∧ Forall (λ c, Qabs (weight_or0 c) <= M) (values g) ∧
  inject_Z (Z.of_nat (length (values g))) * (3 * M + 5) + 1 <= 131072.

(** ** Missing weights *)

(** The graph in which every missing weight is written out as [0]. *)
Definition with_default_weights (g : Graph) : Graph :=
  Types.mkGraph
    ((λ kc, (kc.1, Types.mkChunk (Types.id kc.2) (Some (weight_or0 kc.2))))
       <$> Types.chunks g)
    (Types.edges g).

(** ** More samples *)

(** A network of four nodes with source 0 and sink 1; its largest flow
    is 5. *)
Definition calls_sample : list (nat * nat * Q) :=
  [(0%nat, 2%nat, 3); (0%nat, 3%nat, 2); (2%nat, 1%nat, 2);
   (3%nat, 1%nat, 3); (2%nat, 3%nat, 1)].

Definition adj_sample : Adj :=
  Eval vm_compute in default [] (dinic_of 4 calls_sample).

(** Three chunks without dependencies. *)
Definition graph_flat : Graph :=
  Types.mkGraph [chunk "A" 3; chunk "B" 1; chunk "C" 2] [].

(** [graph_pull] with its dependency listed twice. *)
Definition graph_pull_twice : Graph :=
  Types.mkGraph (Types.chunks graph_pull)
    [Types.mkEdge "A" "B"; Types.mkEdge "A" "B"].

(** * Verification *)

(** ** Arithmetic of the modelled numbers *)

Lemma nadd_eq a b : nadd a b == a + b.
Proof. apply Qred_correct. Qed.

Lemma nsub_eq a b : nsub a b == a - b.
Proof. apply Qred_correct. Qed.

Lemma nneg_eq a : nneg a == - a.
Proof. apply Qred_correct. Qed.

Lemma nabs_eq a : nabs a == Qabs a.
Proof. apply Qred_correct. Qed.

Lemma nhalf_eq a : nhalf a == a / 2.
Proof. apply Qred_correct. Qed.

Lemma gtb_true a b : gtb a b = true ↔ b < a.
Proof.
  unfold gtb. rewrite negb_true_iff, <- not_true_iff_false, Qle_bool_iff.
  split; [apply Qnot_le_lt | apply Qlt_not_le].
Qed.

Lemma gtb_false a b : gtb a b = false ↔ a <= b.
Proof.
  unfold gtb. rewrite negb_false_iff, Qle_bool_iff. tauto.
Qed.

Lemma gt_eps_true c : gt_eps c = true ↔ EPS < c.
Proof. apply gtb_true. Qed.

Lemma gt_eps_false c : gt_eps c = false ↔ c <= EPS.
Proof. apply gtb_false. Qed.

Lemma EPS_pos : 0 < EPS.
Proof. reflexivity. Qed.

Lemma nmin_le_l a b : nmin a b <= a.
Proof.
  unfold nmin. destruct (Qle_bool a b) eqn:E; [apply Qle_refl |].
  apply Qlt_le_weak, gtb_true. unfold gtb. by rewrite E.
Qed.

Lemma nmin_le_r a b : nmin a b <= b.
Proof.
  unfold nmin. destruct (Qle_bool a b) eqn:E; [by apply Qle_bool_iff | apply Qle_refl].
Qed.

Lemma nmin_glb a b c : c < a → c < b → c < nmin a b.
Proof. unfold nmin. by destruct (Qle_bool a b). Qed.

Lemma min_pushed_le_cap pushed c : min_pushed pushed c <= c.
Proof. destruct pushed; simpl; [apply nmin_le_r | apply Qle_refl]. Qed.

Lemma min_pushed_le_pushed p c : min_pushed (Some p) c <= p.
Proof. apply nmin_le_l. Qed.

(** ** Bounded loops *)

Section LoopFacts.
Context {A B : Type} (step : A → option (A + B)).

Lemma loop_nat_add n m a :
  loop_nat step (n + m) a =
  match loop_nat step n a with
  | Some (inl a') => loop_nat step m a'
  | r => r
  end.
Proof.
  revert a. induction n as [|n IH]; intros a; simpl; [done |].
  destruct (step a) as [[a' | b] |]; auto.
Qed.

Lemma loop_pos_nat p a : loop_pos step p a = loop_nat step (Pos.to_nat p) a.
Proof.
  revert a. induction p as [p IH | p IH |]; intros a.
  - rewrite Pos2Nat.inj_xI.
    replace (S (2 * Pos.to_nat p)) with (1 + (Pos.to_nat p + Pos.to_nat p))%nat by lia.
    rewrite loop_nat_add. simpl.
    destruct (step a) as [[a' | b] |]; [| done | done].
    rewrite loop_nat_add, <- IH.
    destruct (loop_pos step p a') as [[a'' | b] |]; auto.
  - rewrite Pos2Nat.inj_xO.
    replace (2 * Pos.to_nat p)%nat with (Pos.to_nat p + Pos.to_nat p)%nat by lia.
    rewrite loop_nat_add, <- IH. simpl.
    destruct (loop_pos step p a) as [[a' | b] |]; auto.
  - simpl. by destruct (step a) as [[a' | b] |].
Qed.

(** A loop whose every continuing step keeps an invariant and lowers
    a measure stops within the bound and establishes what the final
    step establishes. *)
Lemma while_loop_total (Inv : A → Prop) (Post : B → Prop) (m : A → nat) :
  (∀ a, Inv a →
     ∃ r, step a = Some r ∧
          match r with
          | inl a' => Inv a' ∧ (m a' < m a)%nat
          | inr b => Post b
          end) →
  ∀ bound a, Inv a → (m a < Pos.to_nat bound)%nat →
  ∃ b, while_loop step bound a = Some b ∧ Post b.
Proof.
  intros Hstep bound a HI Hm. unfold while_loop. rewrite loop_pos_nat.
  generalize dependent a.
  induction (Pos.to_nat bound) as [|n IH]; intros a HI Hm; [lia |].
  simpl. destruct (Hstep a HI) as ([a' | b] & -> & H).
  - destruct H as [HI' Hm']. apply IH; [done | lia].
  - eauto.
Qed.
End LoopFacts.

(** ** Slots, shapes and cuts *)

Lemma slot_Some adj u i e :
  slot adj u i = Some e ↔ ∃ es, adj !! u = Some es ∧ es !! i = Some e.
Proof.
  unfold slot. destruct (adj !! u) as [es|]; simpl; split.
  - eauto.
  - by intros (es' & [= <-] & H).
  - done.
  - by intros (es' & [=] & _).
Qed.

Lemma slot_lt adj u i e : slot adj u i = Some e → (u < length adj)%nat.
Proof.
  intros (es & H & _)%slot_Some. by apply lookup_lt_Some in H.
Qed.

Lemma set_cap_Some adj u i c e :
  slot adj u i = Some e →
  ∃ adj', set_cap u i c adj = Some adj'.
Proof.
  intros (es & H1 & H2)%slot_Some. unfold set_cap. rewrite H1. simpl.
  rewrite H2. simpl. eauto.
Qed.

Lemma slot_set_cap adj u i c adj' :
  set_cap u i c adj = Some adj' →
  ∃ e, slot adj u i = Some e ∧
       slot adj' u i = Some (mkEdge (to e) (rev e) c) ∧
       ∀ u' i', (u', i') ≠ (u, i) → slot adj' u' i' = slot adj u' i'.
Proof.
  unfold set_cap. intros H.
  destruct (adj !! u) as [es|] eqn:Hu; simpl in H; [| done].
  destruct (es !! i) as [e|] eqn:Hi; simpl in H; [| done].
  injection H as <-. exists e.
  assert (Hlu : (u < length adj)%nat) by by eapply lookup_lt_Some.
  assert (Hli : (i < length es)%nat) by by eapply lookup_lt_Some.
  split; [| split].
  - unfold slot. by rewrite Hu.
  - unfold slot. rewrite list_lookup_insert_eq by done. simpl.
    by rewrite list_lookup_insert_eq.
  - intros u' i' Hne. unfold slot.
    destruct (decide (u' = u)) as [-> | Hu'].
    + rewrite list_lookup_insert_eq by done. rewrite Hu. simpl.
      apply list_lookup_insert_ne. congruence.
    + by rewrite list_lookup_insert_ne.
Qed.

Lemma shape_set_cap adj u i c adj' :
  set_cap u i c adj = Some adj' → shape adj' = shape adj.
Proof.
  unfold set_cap. intros H.
  destruct (adj !! u) as [es|] eqn:Hu; simpl in H; [| done].
  destruct (es !! i) as [e|] eqn:Hi; simpl in H; [| done].
  injection H as <-. unfold shape.
  rewrite !list_fmap_insert. simpl.
  rewrite (list_insert_id (map _ es)).
  - apply list_insert_id. by rewrite list_lookup_fmap, Hu.
  - by rewrite list_lookup_fmap, Hi.
Qed.

Lemma shape_length adj adj' : shape adj = shape adj' → length adj = length adj'.
Proof.
  intros H. apply (f_equal length) in H. unfold shape in H.
  by rewrite !length_map in H.
Qed.

Lemma shape_row adj adj' u es :
  shape adj = shape adj' → adj !! u = Some es →
  ∃ es', adj' !! u = Some es' ∧ length es' = length es
         ∧ map (λ e, (to e, rev e)) es' = map (λ e, (to e, rev e)) es.
Proof.
  intros H Hu. apply (f_equal (λ l, l !! u)) in H. unfold shape in H.
  rewrite !list_lookup_fmap, Hu in H. simpl in H.
  destruct (adj' !! u) as [es'|]; [| done]. injection H as H.
  exists es'. split; [done |]. split; [| done].
  apply (f_equal length) in H. by rewrite !length_map in H.
Qed.

Lemma shape_slot adj adj' u i e :
  shape adj = shape adj' → slot adj u i = Some e →
  ∃ e', slot adj' u i = Some e' ∧ to e' = to e ∧ rev e' = rev e.
Proof.
  intros H (es & Hu & Hi)%slot_Some.
  destruct (shape_row _ _ _ _ H Hu) as (es' & Hu' & _ & Hm).
  apply (f_equal (λ l, l !! i)) in Hm.
  rewrite !list_lookup_fmap, Hi in Hm. simpl in Hm.
  destruct (es' !! i) as [e'|] eqn:Hi'; [| done]. injection Hm as H1 H2.
  exists e'. split; [| done]. apply slot_Some. eauto.
Qed.

Lemma wf_adj_shape adj adj' : shape adj = shape adj' → wf_adj adj → wf_adj adj'.
Proof.
  intros H Hwf u i e' He'.
  destruct (shape_slot _ _ _ _ _ (eq_sym H) He') as (e & He & Ht & Hr).
  destruct (Hwf _ _ _ He) as (r & Hr1 & Hr2).
  destruct (shape_slot _ _ _ _ _ H Hr1) as (r' & Hr' & Ht' & _).
  exists r'. rewrite <- Ht, <- Hr. split; [done | congruence].
Qed.

(** *** Cut sums *)

Lemma row_cut_nonneg X es : (∀ e, e ∈ es → 0 <= cap e) → 0 <= row_cut X es.
Proof.
  induction es as [|e es IH]; intros H; simpl; [lra |].
  assert (0 <= cap e) by (apply H; left).
  assert (0 <= row_cut X es) by (apply IH; intros; apply H; by right).
  unfold crossing. destruct (X (to e)); lra.
Qed.

Lemma row_cut_app X es1 es2 :
  row_cut X (es1 ++ es2) == row_cut X es1 + row_cut X es2.
Proof.
  induction es1 as [|e es1 IH]; simpl; [lra | rewrite IH; lra].
Qed.

Lemma row_cut_insert X es i e e' :
  es !! i = Some e →
  row_cut X (<[i := e']> es) == row_cut X es - crossing X e + crossing X e'.
Proof.
  revert i. induction es as [|x es IH]; intros [|i] H; simplify_eq/=.
  - lra.
  - rewrite (IH i H). lra.
Qed.

Lemma row_cut_elem X es i e :
  (∀ e, e ∈ es → 0 <= cap e) → es !! i = Some e →
  crossing X e <= row_cut X es.
Proof.
  revert i. induction es as [|x es IH]; intros [|i] Hn H; simplify_eq/=.
  - assert (0 <= row_cut X es) by (apply row_cut_nonneg; intros; apply Hn; by right).
    lra.
  - assert (0 <= cap x) by (apply Hn; left).
    assert (crossing X e <= row_cut X es)
      by (eapply IH; [intros; apply Hn; by right | done]).
    unfold crossing at 2. destruct (X (to x)); lra.
Qed.

Lemma cut_from_insert X b (adj : Adj) u es es' :
  adj !! u = Some es →
  cut_from X b (<[u := es']> adj) ==
  cut_from X b adj
  - (if X (b + u)%nat then row_cut X es else 0)
  + (if X (b + u)%nat then row_cut X es' else 0).
Proof.
  revert b u. induction adj as [|x adj IH]; intros b [|u] H; simplify_eq/=.
  - rewrite Nat.add_0_r. lra.
  - rewrite (IH (S b) u H). replace (S b + u)%nat with (b + S u)%nat by lia. lra.
Qed.

Lemma cut_from_nonneg X b adj :
  (∀ es e, es ∈ adj → e ∈ es → 0 <= cap e) → 0 <= cut_from X b adj.
Proof.
  revert b. induction adj as [|x adj IH]; intros b H; simpl; [lra |].
  assert (0 <= row_cut X x) by (apply row_cut_nonneg; intros; eapply H; [left | done]).
  assert (0 <= cut_from X (S b) adj) by (apply IH; intros; eapply H; [by right | done]).
  destruct (X b); lra.
Qed.

Lemma cut_from_elem (X : nat → bool) b (adj : Adj) u es :
  (∀ es e, es ∈ adj → e ∈ es → 0 <= cap e) → adj !! u = Some es →
  (if X (b + u)%nat then row_cut X es else 0) <= cut_from X b adj.
Proof.
  revert b u. induction adj as [|x adj IH]; intros b [|u] Hn H; simplify_eq/=.
  - rewrite Nat.add_0_r.
    assert (0 <= cut_from X (S b) adj)
      by (apply cut_from_nonneg; intros; eapply Hn; [by right | done]).
    lra.
  - assert (0 <= row_cut X x) by (apply row_cut_nonneg; intros; eapply Hn; [left | done]).
    assert ((if X (S b + u)%nat then row_cut X es else 0) <= cut_from X (S b) adj)
      by (apply IH; [intros; eapply Hn; [by right | done] | done]).
    replace (b + S u)%nat with (S b + u)%nat by lia.
    destruct (X b); lra.
Qed.

Lemma nonneg_elems adj :
  nonneg adj → ∀ es e, es ∈ adj → e ∈ es → 0 <= cap e.
Proof.
  intros Hn es e [u Hu]%list_elem_of_lookup [i Hi]%list_elem_of_lookup.
  apply (Hn u i). apply slot_Some. eauto.
Qed.

Lemma rescut_nonneg X adj : nonneg adj → 0 <= rescut X adj.
Proof. intros H. apply cut_from_nonneg. by apply nonneg_elems. Qed.

(** A single edge that leaves [X] carries no more than the whole cut. *)
Lemma rescut_edge X adj u i e :
  nonneg adj → slot adj u i = Some e → X u = true → X (to e) = false →
  cap e <= rescut X adj.
Proof.
  intros Hn (es & Hu & Hi)%slot_Some HXu HXe.
  pose proof (cut_from_elem X 0 adj u es (nonneg_elems _ Hn) Hu) as H1.
  simpl in H1. rewrite HXu in H1.
  assert (H2 : crossing X e <= row_cut X es).
  { eapply row_cut_elem; [| done]. intros e' He'.
    eapply nonneg_elems; [done | | done]. apply list_elem_of_lookup. eauto. }
  unfold crossing in H2. rewrite HXe in H2. unfold rescut. lra.
Qed.

Lemma rescut_set_cap X adj u i c adj' e :
  slot adj u i = Some e → set_cap u i c adj = Some adj' →
  rescut X adj' ==
  rescut X adj + (if X u && negb (X (to e)) then c - cap e else 0).
Proof.
  intros (es & Hu & Hi)%slot_Some H. unfold set_cap in H.
  rewrite Hu in H. simpl in H. rewrite Hi in H. simpl in H. injection H as <-.
  unfold rescut. rewrite (cut_from_insert X 0 adj u es _ Hu). simpl.
  destruct (X u); simpl; [| lra].
  rewrite (row_cut_insert X es i e _ Hi). unfold crossing. simpl.
  destruct (X (to e)); simpl; lra.
Qed.

(** ** One augmentation *)

Lemma push_edge_spec adj v i tr adj' e :
  wf_adj adj → slot adj v i = Some e → to e ≠ v →
  push_edge v i tr adj = Some adj' →
  shape adj' = shape adj ∧
  (∃ r, slot adj (to e) (rev e) = Some r ∧ to r = v ∧
        slot adj' v i = Some (mkEdge (to e) (rev e) (nsub (cap e) tr)) ∧
        slot adj' (to e) (rev e) = Some (mkEdge v (rev r) (nadd (cap r) tr)) ∧
        ∀ u' i', (u', i') ≠ (v, i) → (u', i') ≠ (to e, rev e) →
                 slot adj' u' i' = slot adj u' i') ∧
  ∀ X, rescut X adj' ==
       rescut X adj + (if X v && negb (X (to e)) then - tr else 0)
                    + (if X (to e) && negb (X v) then tr else 0).
Proof.
  intros Hwf He Hne H. unfold push_edge in H. rewrite He in H. simpl in H.
  destruct (set_cap v i (nsub (cap e) tr) adj) as [adj1|] eqn:H1; simpl in H; [| done].
  destruct (slot adj1 (to e) (rev e)) as [r1|] eqn:Hr1; simpl in H; [| done].
  destruct (slot_set_cap _ _ _ _ _ H1) as (e0 & He0 & Hnew1 & Hold1).
  rewrite He in He0. injection He0 as <-.
  destruct (slot_set_cap _ _ _ _ _ H) as (r0 & Hr0 & Hnew2 & Hold2).
  rewrite Hr1 in Hr0. injection Hr0 as <-.
  assert (Hr : slot adj (to e) (rev e) = Some r1).
  { rewrite <- Hold1; [done | congruence]. }
  destruct (Hwf _ _ _ He) as (r' & Hr' & Htr). rewrite Hr in Hr'.
  injection Hr' as <-.
  split; [| split].
  - rewrite (shape_set_cap _ _ _ _ _ H). by apply (shape_set_cap _ _ _ _ _ H1).
  - exists r1. split; [done |]. split; [done |]. split; [| split].
    + rewrite Hold2; [done | congruence].
    + by rewrite Hnew2, Htr.
    + intros u' i' Hn1 Hn2. rewrite Hold2 by done. by apply Hold1.
  - intros X.
    rewrite (rescut_set_cap X _ _ _ _ _ _ Hr1 H).
    rewrite (rescut_set_cap X _ _ _ _ _ _ He H1).
    rewrite Htr. pose proof (nsub_eq (cap e) tr). pose proof (nadd_eq (cap r1) tr).
    destruct (X v), (X (to e)); simpl; lra.
Qed.

Lemma push_edge_Some adj v i tr e :
  wf_adj adj → slot adj v i = Some e →
  ∃ adj', push_edge v i tr adj = Some adj'.
Proof.
  intros Hwf He. unfold push_edge. rewrite He. simpl.
  destruct (set_cap_Some adj v i (nsub (cap e) tr) e He) as [adj1 H1].
  rewrite H1. simpl.
  destruct (Hwf _ _ _ He) as (r & Hr & _).
  destruct (shape_slot adj adj1 _ _ _ (eq_sym (shape_set_cap _ _ _ _ _ H1)) Hr)
    as (r1 & Hr1 & _).
  rewrite Hr1. simpl. by eapply set_cap_Some.
Qed.

Lemma level_next_lt level v w : level_next level v w = true → level_lt level v w.
Proof.
  unfold level_next, level_lt.
  destruct (level !! v) as [lv|]; [| done].
  destruct (level !! w) as [lw|]; [| done].
  intros H%Z.eqb_eq. exists lv, lw. repeat split; lia.
Qed.

Lemma level_lt_trans level u v w :
  level_lt level u v → level_lt level v w → level_lt level u w.
Proof.
  intros (a & b & Ha & Hb & Hab) (b' & c & Hb' & Hc & Hbc).
  exists a, c. simplify_eq. repeat split; [done | done | lia].
Qed.

Lemma level_lt_ne level u v : level_lt level u v → u ≠ v.
Proof. intros (a & b & Ha & Hb & Hab) ->. simplify_eq. lia. Qed.

Lemma dfs_post_refl level t v pushed st :
  nonneg (fs_adj st) → (∀ p, pushed = Some p → EPS < p) →
  dfs_post level t v pushed st 0 st.
Proof.
  intros Hn Hp. pose proof EPS_pos.
  split; try done; try lra.
  - intros p Hpp. specialize (Hp p Hpp). lra.
  - intros X _. destruct (X v); lra.
  - intros u i e e' H1 H2. simplify_eq. lra.
  - intros u i e e' _ H1 H2. simplify_eq. lra.
  - intros G HG Hon _. split; [apply HG | done].
Qed.

Lemma min_pushed_grid G pushed c :
  G c → (∀ p, pushed = Some p → G p) → G (min_pushed pushed c).
Proof.
  intros Hc Hp. destruct pushed as [p|]; simpl; [| done].
  unfold nmin. destruct (Qle_bool p c); auto.
Qed.

Lemma it_incr_adj v st : fs_adj (it_incr v st) = fs_adj st.
Proof. unfold it_incr. by destruct (fs_it st !! v). Qed.

Lemma it_incr_len v st : length (fs_it (it_incr v st)) = length (fs_it st).
Proof.
  unfold it_incr. destruct (fs_it st !! v); [| done]. simpl.
  by rewrite length_insert.
Qed.

Lemma it_incr_other v u st : u ≠ v → fs_it (it_incr v st) !! u = fs_it st !! u.
Proof.
  intros Hne. unfold it_incr. destruct (fs_it st !! v); [| done]. simpl.
  by rewrite list_lookup_insert_ne.
Qed.

(** The state [st0] differs from [st] in the cursors of [v] and of the
    higher levels only. *)
Lemma dfs_post_rebase level t v pushed st0 st tr st' :
  fs_adj st0 = fs_adj st →
  length (fs_it st0) = length (fs_it st) →
  (∀ u, level_lt level u v → fs_it st !! u = fs_it st0 !! u) →
  dfs_post level t v pushed st tr st' →
  dfs_post level t v pushed st0 tr st'.
Proof.
  intros Ha Hl Hlow [].
  split; rewrite ?Ha; try done; try congruence.
  intros u Hu. rewrite <- Hlow by done. auto.
Qed.

Lemma dfs_edges_eq rec level v pushed n st :
  dfs_edges rec level v pushed n st =
  es ← fs_adj st !! v;
  i ← fs_it st !! v;
  match es !! i with
  | None => Some (0, st)
  | Some e =>
      match n with
      | O => None
      | S n' =>
          if gt_eps (cap e) && level_next level v (to e) then
            '(tr, st1) ← rec (to e) (min_pushed pushed (cap e)) st;
            if gtb tr 0 then
              adj2 ← push_edge v i tr (fs_adj st1);
              Some (tr, mkFS adj2 (fs_it st1))
            else dfs_edges rec level v pushed n' (it_incr v st1)
          else dfs_edges rec level v pushed n' (it_incr v st)
      end
  end.
Proof. by destruct n. Qed.

Arguments dfs_edges : simpl never.

Section DfsPost.
Context (level : list Z) (t : nat).

Lemma dfs_step_post v pushed st e i tr st1 adj2 :
  wf_adj (fs_adj st) → nonneg (fs_adj st) →
  slot (fs_adj st) v i = Some e →
  level_next level v (to e) = true →
  dfs_post level t (to e) (Some (min_pushed pushed (cap e))) st tr st1 →
  0 < tr →
  push_edge v i tr (fs_adj st1) = Some adj2 →
  dfs_post level t v pushed st tr (mkFS adj2 (fs_it st1)).
Proof.
  intros Hwf Hn He Hnext Hrec Htr Hpush.
  pose proof (level_next_lt _ _ _ Hnext) as Hlt.
  assert (Hne : to e ≠ v) by (intros Heq; by apply (level_lt_ne _ _ _ Hlt)).
  destruct Hrec as [Hsh Hil Hilow Htr0 Htrle Htreps _ Hcut Hn1 Hdrop Hlow Hgrid].
  destruct (shape_slot _ _ _ _ _ (eq_sym Hsh) He) as (e1 & He1 & Hto & Hrev).
  assert (Hwf1 : wf_adj (fs_adj st1)) by (eapply wf_adj_shape; [| done]; done).
  rewrite <- Hto in Hne.
  destruct (push_edge_spec _ _ _ _ _ _ Hwf1 He1 Hne Hpush)
    as (Hsh2 & (r1 & Hr1 & Htor & Hnew1 & Hnew2 & Hold) & Hcut2).
  pose proof (Hlow v i e e1 Hlt He He1) as Hcap1.
  pose proof (Htrle _ eq_refl) as Hle.
  pose proof (min_pushed_le_cap pushed (cap e)) as Hmc.
  pose proof (nsub_eq (cap e1) tr) as Es. pose proof (nadd_eq (cap r1) tr) as Ea.
  assert (Hslots : ∀ u' i' e', slot adj2 u' i' = Some e' →
    (u' = v ∧ i' = i ∧ cap e' == cap e1 - tr) ∨
    (u' = to e1 ∧ i' = rev e1 ∧ cap e' == cap r1 + tr) ∨
    ((u', i') ≠ (v, i) ∧ slot (fs_adj st1) u' i' = Some e')).
  { intros u' i' e' H.
    destruct (decide ((u', i') = (v, i))) as [[= -> ->] | N1].
    { left. rewrite Hnew1 in H. injection H as <-. by simpl. }
    destruct (decide ((u', i') = (to e1, rev e1))) as [[= -> ->] | N2].
    { right; left. rewrite Hnew2 in H. injection H as <-. by simpl. }
    right; right. split; [done |]. by rewrite <- Hold. }
  split; simpl.
  - by rewrite Hsh2.
  - done.
  - intros u Hu. apply Hilow. eapply level_lt_trans; done.
  - done.
  - intros p ->. simpl in Hle. pose proof (nmin_le_l p (cap e)). lra.
  - done.
  - done.
  - intros X HX. rewrite Hcut2, (Hcut X HX), Hto.
    destruct (X v), (X (to e)); simpl; lra.
  - intros u' i' e' H.
    destruct (Hslots _ _ _ H) as [(-> & -> & E) | [(-> & -> & E) | [_ H']]].
    + lra.
    + pose proof (Hn1 _ _ _ Hr1). lra.
    + by eapply Hn1.
  - intros u' i' e0 e' H0 H.
    destruct (Hslots _ _ _ H) as [(-> & -> & E) | [(-> & -> & E) | [_ H']]].
    + rewrite He in H0. injection H0 as <-. lra.
    + destruct (shape_slot _ _ _ _ _ Hsh Hr1) as (r0 & Hr0 & _).
      assert (e0 = r0) by congruence. subst e0.
      pose proof (Hdrop _ _ _ _ Hr0 Hr1). lra.
    + by eapply Hdrop.
  - intros u' i' e0 e' Hu H0 H.
    pose proof (level_lt_trans _ _ _ _ Hu Hlt) as Hu2.
    destruct (Hslots _ _ _ H) as [(-> & -> & E) | [(-> & -> & E) | [_ H']]].
    + by apply level_lt_ne in Hu.
    + rewrite Hto in Hu2. by apply level_lt_ne in Hu2.
    + by eapply Hlow.
  - intros G HG Hon Hpg.
    destruct (Hgrid G HG Hon) as [Gtr Hon1].
    { intros p [= <-]. apply min_pushed_grid; [by eapply Hon | done]. }
    split; [done |]. intros u' i' e' H.
    destruct (Hslots _ _ _ H) as [(-> & -> & E) | [(-> & -> & E) | [_ H']]].
    + eapply grid_eq; [done | symmetry; exact E |].
      apply grid_sub; [done | by eapply Hon1 | done].
    + eapply grid_eq; [done | symmetry; exact E |].
      apply grid_add; [done | by eapply Hon1 | done].
    + by eapply Hon1.
Qed.

Lemma dfs_edges_post rec v pushed :
  (∀ p, pushed = Some p → EPS < p) →
  rec_ok level t v rec →
  ∀ n st tr st',
    wf_adj (fs_adj st) → nonneg (fs_adj st) →
    dfs_edges rec level v pushed n st = Some (tr, st') →
    dfs_post level t v pushed st tr st'.
Proof.
  intros Hp Hrec n. induction n as [|n IH]; intros st tr st' Hwf Hn H;
    rewrite dfs_edges_eq in H;
    destruct (fs_adj st !! v) as [es|] eqn:Hes; simpl in H; try done;
    destruct (fs_it st !! v) as [i|] eqn:Hi; simpl in H; try done;
    destruct (es !! i) as [e|] eqn:He; try done;
    try (injection H as <- <-; by apply dfs_post_refl).
  assert (Hslot : slot (fs_adj st) v i = Some e) by (apply slot_Some; eauto).
  destruct (gt_eps (cap e) && level_next level v (to e)) eqn:Hadm.
  - apply andb_true_iff in Hadm as [Hcap Hnext].
    apply gt_eps_true in Hcap.
    destruct (rec (to e) (min_pushed pushed (cap e)) st) as [[tr1 st1]|] eqn:Hr;
      simpl in H; [| done].
    assert (Hmp : EPS < min_pushed pushed (cap e)).
    { destruct pushed as [p|]; simpl; [| done]. apply nmin_glb; auto. }
    pose proof (Hrec _ _ _ _ _ Hnext Hmp Hwf Hn Hr) as Hpost.
    destruct (gtb tr1 0) eqn:Hgt.
    + apply gtb_true in Hgt.
      destruct (push_edge v i tr1 (fs_adj st1)) as [adj2|] eqn:Hpush;
        simpl in H; [| done].
      injection H as <- <-. by eapply dfs_step_post.
    + apply gtb_false in Hgt.
      assert (Hsame : fs_adj st1 = fs_adj st) by (apply Hpost; lra).
      apply IH in H; rewrite ?it_incr_adj, ?Hsame; try done.
      eapply dfs_post_rebase; [| | | exact H].
      * by rewrite it_incr_adj.
      * rewrite it_incr_len. symmetry. apply Hpost.
      * intros u Hu. rewrite it_incr_other by (by apply level_lt_ne in Hu).
        apply Hpost. eapply level_lt_trans; [done |].
        by apply level_next_lt.
  - apply IH in H; rewrite ?it_incr_adj; try done.
    eapply dfs_post_rebase; [| | | exact H].
    + by rewrite it_incr_adj.
    + by rewrite it_incr_len.
    + intros u Hu. by rewrite it_incr_other by (by apply level_lt_ne in Hu).
Qed.

Lemma dfs_post_sound d :
  ∀ v pushed st tr st',
    (∀ p, pushed = Some p → EPS < p) →
    wf_adj (fs_adj st) → nonneg (fs_adj st) →
    dfs d level t v pushed st = Some (tr, st') →
    dfs_post level t v pushed st tr st'.
Proof.
  induction d as [|d IH]; intros v pushed st tr st' Hp Hwf Hn H; [done |].
  simpl in H.
  destruct (bool_decide (v = t) || pushed_zero pushed) eqn:Hstop.
  - destruct pushed as [p|]; [| done]. injection H as <- <-.
    pose proof (Hp p eq_refl) as Hpp. pose proof EPS_pos.
    assert (v = t) as ->.
    { apply orb_true_iff in Hstop as [Hv%bool_decide_eq_true | Hz]; [done |].
      simpl in Hz. apply Qeq_bool_iff in Hz. lra. }
    split; try done; try lra.
    + intros q [= <-]. lra.
    + intros X ->. lra.
    + intros u i e e' H1 H2. simplify_eq. lra.
    + intros u i e e' _ H1 H2. simplify_eq. lra.
    + intros G HG Hon Hg. split; [by apply Hg | done].
  - destruct (fs_adj st !! v) as [es|]; simpl in H; [| done].
    eapply dfs_edges_post; [done | | done | done | exact H].
    intros w p st0 tr0 st0' _ Hp0 Hwf0 Hn0 H0.
    eapply IH; [| done | done | exact H0]. by intros q [= <-].
Qed.
End DfsPost.

(** ** Breadth-first levels *)

Lemma level_reached_true level w :
  level_reached level w = true ↔ ∃ l, level !! w = Some l ∧ (0 <= l)%Z.
Proof.
  unfold level_reached. destruct (level !! w) as [l|]; split.
  - intros H%Z.leb_le. eauto.
  - intros (l' & [= <-] & H). by apply Z.leb_le.
  - done.
  - by intros (l' & [=] & _).
Qed.

Lemma level_unset_true level w :
  level_unset level w = true ↔ ∃ l, level !! w = Some l ∧ (l < 0)%Z.
Proof.
  unfold level_unset. destruct (level !! w) as [l|]; split.
  - intros H%Z.ltb_lt. eauto.
  - intros (l' & [= <-] & H). by apply Z.ltb_lt.
  - done.
  - by intros (l' & [=] & _).
Qed.

Lemma level_unset_reached level w :
  (w < length level)%nat → level_unset level w = false →
  level_reached level w = true.
Proof.
  intros Hlt H. destruct (lookup_lt_is_Some_2 level w Hlt) as [l Hl].
  apply level_reached_true. exists l. split; [done |].
  unfold level_unset in H. rewrite Hl in H. by apply Z.ltb_ge in H.
Qed.

Lemma wf_adj_to_lt adj u i e :
  wf_adj adj → slot adj u i = Some e → (to e < length adj)%nat.
Proof.
  intros Hwf He. destruct (Hwf _ _ _ He) as (r & Hr & _).
  by apply slot_lt in Hr.
Qed.

Section Bfs.
Context (adj : Adj) (s : nat) (Hwf : wf_adj adj).

(** Setting the level of an unset node keeps what was reached. *)
Lemma bfs_inv_set i q level v lv w :
  bfs_inv adj s i q level → (i ≤ length q)%nat →
  level !! v = Some lv → (0 <= lv)%Z →
  level_unset level w = true →
  (∃ k e, slot adj v k = Some e ∧ to e = w ∧ EPS < cap e) →
  bfs_inv adj s i (q ++ [w]) (<[w := (lv + 1)%Z]> level)
  ∧ ∀ x, level_reached level x = true →
         level_reached (<[w := (lv + 1)%Z]> level) x = true.
Proof.
  intros [Hlen Hsrc Hnd Hq Hpar Hdone] Hi Hv Hlv Hw (k & e & He & Hto & Hcap).
  apply level_unset_true in Hw as (l & Hl & Hneg).
  assert (Hkeep : ∀ x lx, level !! x = Some lx → (0 <= lx)%Z →
                          <[w := (lv + 1)%Z]> level !! x = Some lx).
  { intros x lx Hx Hpos. rewrite list_lookup_insert_ne; [done |].
    intros ->. simplify_eq. lia. }
  assert (Hmono : ∀ x, level_reached level x = true →
                       level_reached (<[w := (lv + 1)%Z]> level) x = true).
  { intros x (lx & Hx & Hpos)%level_reached_true.
    apply level_reached_true. eauto. }
  assert (Hwlt : (w < length level)%nat) by by eapply lookup_lt_Some.
  split; [| done]. split.
  - by rewrite length_insert.
  - by apply Hkeep.
  - apply NoDup_app. split; [done |]. split; [| apply NoDup_singleton].
    intros x Hx ->%list_elem_of_singleton.
    apply Hq, level_reached_true in Hx as (lx & Hx & Hpos). simplify_eq. lia.
  - intros x. rewrite elem_of_app, list_elem_of_singleton. split.
    + intros [Hx | ->]; [by apply Hmono, Hq |].
      apply level_reached_true. exists (lv + 1)%Z.
      rewrite list_lookup_insert_eq by done. split; [done | lia].
    + intros (lx & Hx & Hpos)%level_reached_true.
      destruct (decide (x = w)) as [-> | Hne]; [by right |].
      left. apply Hq, level_reached_true. exists lx.
      by rewrite list_lookup_insert_ne in Hx.
  - intros x lx Hx Hpos.
    destruct (decide (x = w)) as [-> | Hne].
    + right. rewrite list_lookup_insert_eq in Hx by done. injection Hx as <-.
      exists v, k, e, lv. repeat split; try done. by apply Hkeep.
    + rewrite list_lookup_insert_ne in Hx by done.
      destruct (Hpar x lx Hx Hpos) as [-> | (u & k' & e' & lu & ? & ? & ? & ? & ? & ?)];
        [by left | right].
      exists u, k', e', lu. repeat split; try done. by apply Hkeep.
  - intros j u k' e' Hj Hu He' Hcap'.
    rewrite lookup_app_l in Hu by lia.
    apply Hmono. by eapply Hdone.
Qed.

(** One edge of the node at the head of the queue. *)
Lemma bfs_relax_inv i q level v k e :
  bfs_inv adj s i q level → q !! i = Some v →
  slot adj v k = Some e →
  ∃ level' q' l,
    bfs_relax v (level, q) e = (level', q') ∧ q' = q ++ l ∧
    bfs_inv adj s i q' level' ∧
    (∀ x, level_reached level x = true → level_reached level' x = true) ∧
    (EPS < cap e → level_reached level' (to e) = true).
Proof.
  intros Hinv Hqi He.
  assert (Hv : level_reached level v = true).
  { apply Hinv. apply list_elem_of_lookup. eauto. }
  apply level_reached_true in Hv as (lv & Hv & Hlv).
  assert (Hi : (i ≤ length q)%nat) by (apply lookup_lt_Some in Hqi; lia).
  unfold bfs_relax.
  destruct (gt_eps (cap e) && level_unset level (to e)) eqn:Hc.
  - apply andb_true_iff in Hc as [Hcap%gt_eps_true Hun].
    rewrite Hv.
    destruct (bfs_inv_set i q level v lv (to e) Hinv Hi Hv Hlv Hun) as [Hinv' Hmono];
      [by exists k, e |].
    eexists _, _, [to e].
    split; [done |]. split; [done |]. split; [exact Hinv' |].
    split; [exact Hmono |].
    intros _. apply level_reached_true. exists (lv + 1)%Z.
    split; [| lia]. apply list_lookup_insert_eq.
    apply level_unset_true in Hun as (l & Hl & _). by eapply lookup_lt_Some.
  - exists level, q, []. rewrite app_nil_r.
    split; [done |]. split; [done |]. split; [exact Hinv |].
    split; [done |].
    intros Hcap%gt_eps_true. rewrite Hcap in Hc. simpl in Hc.
    apply level_unset_reached; [| done].
    rewrite (bi_len _ _ _ _ _ Hinv). by eapply wf_adj_to_lt.
Qed.

(** All edges of the node at the head of the queue. *)
Lemma bfs_fold_inv i v es :
  adj !! v = Some es →
  ∀ suf pre q level,
    es = pre ++ suf →
    bfs_inv adj s i q level → q !! i = Some v →
    (∀ e, e ∈ pre → EPS < cap e → level_reached level (to e) = true) →
    ∃ level' q',
      foldl (bfs_relax v) (level, q) suf = (level', q') ∧
      bfs_inv adj s i q' level' ∧ q' !! i = Some v ∧
      (∀ e, e ∈ es → EPS < cap e → level_reached level' (to e) = true).
Proof.
  intros Hes suf. induction suf as [|e suf IH]; intros pre q level -> Hinv Hqi Hpre.
  - exists level, q. rewrite app_nil_r.
    split; [done |]. split; [done |]. split; [done |].
    intros e He. by apply Hpre.
  - assert (He : slot adj v (length pre) = Some e).
    { apply slot_Some. exists (pre ++ e :: suf). split; [done |].
      by rewrite list_lookup_middle. }
    destruct (bfs_relax_inv i q level v _ e Hinv Hqi He)
      as (level1 & q1 & l & Hr & -> & Hinv1 & Hmono & Hnew).
    cbn [foldl]. rewrite Hr.
    destruct (IH (pre ++ [e]) (q ++ l) level1) as (level' & q' & Hf & ? & ? & ?).
    + by rewrite <- app_assoc.
    + done.
    + apply lookup_app_l_Some; done.
    + intros e' [He' | ->%list_elem_of_singleton]%elem_of_app Hcap; auto.
    + by exists level', q'.
Qed.

Lemma bfs_inv_step i q level v es level' q' :
  bfs_inv adj s i q level → q !! i = Some v → adj !! v = Some es →
  foldl (bfs_relax v) (level, q) es = (level', q') →
  bfs_inv adj s (S i) q' level'.
Proof.
  intros Hinv Hqi Hes Hf.
  destruct (bfs_fold_inv i v es Hes es [] q level eq_refl Hinv Hqi)
    as (level1 & q1 & Hf1 & Hinv1 & Hqi1 & Hall).
  { intros e He. by apply elem_of_nil in He. }
  rewrite Hf in Hf1. injection Hf1 as <- <-.
  destruct Hinv1 as [? ? ? ? ? Hdone]. split; try done.
  intros j u k e Hj Hu He Hcap.
  destruct (decide (j = i)) as [-> | Hne].
  - rewrite Hqi1 in Hu. injection Hu as <-.
    apply slot_Some in He as (es' & Hes' & Hk). rewrite Hes in Hes'.
    injection Hes' as <-. apply Hall; [| done].
    apply list_elem_of_lookup. eauto.
  - eapply Hdone; [| done | done | done]. lia.
Qed.

Lemma bfs_inv_bound i q level :
  bfs_inv adj s i q level → (length q ≤ length adj)%nat.
Proof.
  intros Hinv.
  assert (Hsub : q ⊆+ seq 0 (length adj)).
  { apply NoDup_submseteq; [apply Hinv |].
    intros w Hw. apply elem_of_seq. split; [lia |]. simpl.
    apply Hinv, level_reached_true in Hw as (l & Hl & _).
    rewrite <- (bi_len _ _ _ _ _ Hinv). by eapply lookup_lt_Some. }
  apply submseteq_length in Hsub. by rewrite length_seq in Hsub.
Qed.

Lemma bfs_loop_post fuel :
  ∀ i q level,
    bfs_inv adj s i q level → (length adj ≤ fuel + i)%nat →
    ∃ level', bfs_loop fuel adj i q level = Some level' ∧
              bfs_post adj s level'.
Proof.
  induction fuel as [|fuel IH]; intros i q level Hinv Hfuel;
    pose proof (bfs_inv_bound _ _ _ Hinv) as Hb.
  - assert (Hq : q !! i = None) by (apply lookup_ge_None; simpl in Hfuel; lia).
    simpl. rewrite Hq. eexists. split; [done |].
    destruct Hinv as [? ? ? Hq' ? Hdone]. split; try done.
    intros u k e He Hcap Hu. apply Hq' in Hu as [j Hj]%list_elem_of_lookup.
    eapply Hdone; [| done | done | done]. apply lookup_lt_Some in Hj.
    apply lookup_ge_None in Hq. lia.
  - simpl. destruct (q !! i) as [v|] eqn:Hq.
    + assert (Hv : (v < length adj)%nat).
      { assert (level_reached level v = true) as (l & Hl & _)%level_reached_true.
        { apply Hinv. apply list_elem_of_lookup. eauto. }
        rewrite <- (bi_len _ _ _ _ _ Hinv). by eapply lookup_lt_Some. }
      destruct (lookup_lt_is_Some_2 adj v Hv) as [es Hes]. rewrite Hes. simpl.
      destruct (foldl (bfs_relax v) (level, q) es) as [level' q'] eqn:Hf.
      apply IH; [by eapply bfs_inv_step | lia].
    + eexists. split; [done |].
      destruct Hinv as [? ? ? Hq' ? Hdone]. split; try done.
      intros u k e He Hcap Hu. apply Hq' in Hu as [j Hj]%list_elem_of_lookup.
      eapply Hdone; [| done | done | done]. apply lookup_lt_Some in Hj.
      apply lookup_ge_None in Hq. lia.
Qed.

Lemma bfs_total :
  (s < length adj)%nat →
  ∃ level, bfs adj s = Some level ∧ bfs_post adj s level.
Proof.
  intros Hs. unfold bfs. rewrite decide_True by done.
  apply bfs_loop_post; [| lia].
  assert (Hlk : ∀ w l, <[s := 0%Z]> (replicate (length adj) (-1)%Z) !! w = Some l →
                       (0 <= l)%Z → w = s ∧ l = 0%Z).
  { intros w l Hl Hpos. destruct (decide (w = s)) as [-> | Hne].
    - rewrite list_lookup_insert_eq in Hl by (by rewrite length_replicate).
      by injection Hl as <-.
    - rewrite list_lookup_insert_ne in Hl by done.
      apply lookup_replicate in Hl as [-> _]. lia. }
  split.
  - by rewrite length_insert, length_replicate.
  - apply list_lookup_insert_eq. by rewrite length_replicate.
  - apply NoDup_singleton.
  - intros w. rewrite list_elem_of_singleton, level_reached_true. split.
    + intros ->. exists 0%Z. split; [| done].
      apply list_lookup_insert_eq. by rewrite length_replicate.
    + intros (l & Hl & Hpos). by apply Hlk in Hl as [-> _].
  - intros w lw Hl Hpos. left. by apply Hlk in Hl as [-> _].
  - intros j u k e Hj. lia.
Qed.
End Bfs.

(** ** Residual reachability *)

Lemma seen_at_lt seen w : seen_at seen w = true → (w < length seen)%nat.
Proof.
  unfold seen_at. destruct (seen !! w) eqn:H; [| done].
  intros _. by eapply lookup_lt_Some.
Qed.

Lemma js_set_true_in w seen :
  (w < length seen)%nat → js_set_true w seen = <[w := true]> seen.
Proof. intros H. unfold js_set_true. by rewrite decide_True. Qed.

Lemma seen_at_insert_eq w seen :
  (w < length seen)%nat → seen_at (<[w := true]> seen) w = true.
Proof. intros H. unfold seen_at. by rewrite list_lookup_insert_eq. Qed.

Lemma seen_at_insert_mono w x seen :
  seen_at seen x = true → seen_at (<[w := true]> seen) x = true.
Proof.
  intros H. destruct (decide (x = w)) as [-> | Hne].
  - apply seen_at_insert_eq. by apply seen_at_lt.
  - unfold seen_at. by rewrite list_lookup_insert_ne.
Qed.

Lemma seen_at_insert_inv w x seen :
  seen_at (<[w := true]> seen) x = true → x = w ∨ seen_at seen x = true.
Proof.
  destruct (decide (x = w)) as [-> | Hne]; [by left |].
  unfold seen_at. rewrite list_lookup_insert_ne by done. by right.
Qed.

Lemma unseen_insert w seen :
  (w < length seen)%nat → seen_at seen w = false →
  S (unseen (<[w := true]> seen)) = unseen seen.
Proof.
  revert w. induction seen as [|b seen IH]; intros [|w] Hlt H; simpl in *; try lia.
  - unfold seen_at in H. simpl in H. by subst b.
  - rewrite <- (IH w); [lia | lia | done].
Qed.

Lemma unseen_replicate n : unseen (replicate n false) = n.
Proof. induction n; simpl; lia. Qed.

Section Reach.
Context (adj : Adj) (s : nat) (Hwf : wf_adj adj).

Lemma reach_relax_mid v pre k e stack seen :
  slot adj v k = Some e →
  reach_mid adj s v pre stack seen →
  ∃ seen' stack',
    reach_relax (seen, stack) e = (seen', stack') ∧
    reach_mid adj s v (pre ++ [e]) stack' seen' ∧
    (unseen seen' + length stack' = unseen seen + length stack)%nat.
Proof.
  intros He [Hlen Hsrc Hcur Hst Hcl Hpre Hsnd]. unfold reach_relax.
  assert (Hto : (to e < length seen)%nat)
    by (rewrite Hlen; by eapply wf_adj_to_lt).
  destruct (gt_eps (cap e) && negb (seen_at seen (to e))) eqn:Hc.
  - apply andb_true_iff in Hc as [Hcap%gt_eps_true Hns%negb_true_iff].
    rewrite js_set_true_in by done.
    eexists _, _. split; [done |]. split; [split |].
    + by rewrite length_insert.
    + by apply seen_at_insert_mono.
    + by apply seen_at_insert_mono.
    + intros x [-> | Hx]%elem_of_cons;
        [by apply seen_at_insert_eq | by apply seen_at_insert_mono, Hst].
    + intros u k' e' He' Hcap' Hu Hnin Hne.
      apply not_elem_of_cons in Hnin as [Hne' Hnin].
      apply seen_at_insert_inv in Hu as [-> | Hu]; [done |].
      apply seen_at_insert_mono. by eapply Hcl.
    + intros e' [He' | ->%list_elem_of_singleton]%elem_of_app Hcap'.
      * by apply seen_at_insert_mono, Hpre.
      * by apply seen_at_insert_eq.
    + intros Y HYs HY w [-> | Hw]%seen_at_insert_inv; [| by eapply Hsnd].
      eapply HY; [exact He | done |]. by eapply Hsnd.
    + pose proof (unseen_insert _ _ Hto Hns). simpl. lia.
  - exists seen, stack. split; [done |]. split; [split; try done | done].
    intros e' [He' | ->%list_elem_of_singleton]%elem_of_app Hcap'; [by apply Hpre |].
    apply gt_eps_true in Hcap'. rewrite Hcap' in Hc. simpl in Hc.
    by apply negb_false_iff in Hc.
Qed.

Lemma reach_fold_mid v es :
  adj !! v = Some es →
  ∀ suf pre stack seen,
    es = pre ++ suf →
    reach_mid adj s v pre stack seen →
    ∃ seen' stack',
      foldl reach_relax (seen, stack) suf = (seen', stack') ∧
      reach_mid adj s v es stack' seen' ∧
      (unseen seen' + length stack' = unseen seen + length stack)%nat.
Proof.
  intros Hes suf. induction suf as [|e suf IH]; intros pre stack seen -> Hm.
  - exists seen, stack. by rewrite app_nil_r.
  - assert (He : slot adj v (length pre) = Some e).
    { apply slot_Some. exists (pre ++ e :: suf). split; [done |].
      by rewrite list_lookup_middle. }
    destruct (reach_relax_mid v pre _ e stack seen He Hm)
      as (seen1 & stack1 & Hr & Hm1 & Hc1).
    cbn [foldl]. rewrite Hr.
    destruct (IH (pre ++ [e]) stack1 seen1) as (seen' & stack' & Hf & Hm' & Hc');
      [by rewrite <- app_assoc | done |].
    exists seen', stack'. split; [done |]. split; [done | lia].
Qed.

Lemma reach_loop_post fuel :
  ∀ stack seen,
    reach_inv adj s stack seen →
    (unseen seen + length stack ≤ fuel)%nat →
    ∃ seen', reach_loop fuel adj stack seen = Some seen' ∧
             reach_post adj s seen'.
Proof.
  induction fuel as [|fuel IH]; intros stack seen Hinv Hfuel.
  - destruct stack as [|v stack]; [| simpl in Hfuel; lia].
    simpl. eexists. split; [done |].
    destruct Hinv as [? ? ? Hcl ?]. split; try done.
    intros u k e He Hcap Hu. eapply Hcl; try done. apply not_elem_of_nil.
  - destruct stack as [|v stack].
    + simpl. eexists. split; [done |].
      destruct Hinv as [? ? ? Hcl ?]. split; try done.
      intros u k e He Hcap Hu. eapply Hcl; try done. apply not_elem_of_nil.
    + destruct Hinv as [Hlen Hsrc Hst Hcl Hsnd].
      assert (Hv : seen_at seen v = true) by (apply Hst; left).
      assert (Hvlt : (v < length adj)%nat)
        by (rewrite <- Hlen; by apply seen_at_lt).
      destruct (lookup_lt_is_Some_2 adj v Hvlt) as [es Hes].
      simpl. rewrite Hes. simpl.
      destruct (reach_fold_mid v es Hes es [] stack seen eq_refl)
        as (seen' & stack' & Hf & [Hlen' Hsrc' Hcur' Hst' Hcl' Hpre' Hsnd'] & Hc).
      { split; try done.
        - intros x Hx. apply Hst. by right.
        - intros u k e He Hcap Hu Hnin Hne. eapply Hcl; try done.
          by apply not_elem_of_cons.
        - intros e He. by apply elem_of_nil in He. }
      rewrite Hf. apply IH; [| simpl in Hfuel; lia].
      split; try done.
      intros u k e He Hcap Hu Hnin.
      destruct (decide (u = v)) as [-> | Hne]; [| by eapply Hcl'].
      apply slot_Some in He as (es' & Hes' & Hk). rewrite Hes in Hes'.
      injection Hes' as <-. apply Hpre'; [| done].
      apply list_elem_of_lookup. eauto.
Qed.

Lemma reachable_total :
  (s < length adj)%nat →
  ∃ seen, reachable adj s = Some seen ∧ reach_post adj s seen.
Proof.
  intros Hs. unfold reachable.
  rewrite js_set_true_in by (by rewrite length_replicate).
  assert (Hlk : ∀ w, seen_at (<[s := true]> (replicate (length adj) false)) w = true
                     → w = s).
  { intros w [-> | Hw]%seen_at_insert_inv; [done |].
    unfold seen_at in Hw. destruct (replicate _ _ !! w) eqn:E; [| done].
    apply lookup_replicate in E as [-> _]. done. }
  apply reach_loop_post.
  - split.
    + by rewrite length_insert, length_replicate.
    + apply seen_at_insert_eq. by rewrite length_replicate.
    + intros x ->%list_elem_of_singleton.
      apply seen_at_insert_eq. by rewrite length_replicate.
    + intros u k e He Hcap ->%Hlk Hnin. exfalso. apply Hnin. by left.
    + intros Y HYs _ w ->%Hlk. done.
  - assert (Hf : seen_at (replicate (length adj) false) s = false).
    { unfold seen_at. by rewrite lookup_replicate_2. }
    pose proof (unseen_insert s (replicate (length adj) false)) as Hu.
    rewrite length_replicate, unseen_replicate in Hu.
    specialize (Hu Hs Hf). simpl. lia.
Qed.
End Reach.

(** ** The search neither fails nor misses a path *)

Lemma level_le_max (level : list Z) w lw :
  level !! w = Some lw → (lw <= foldr Z.max 0 level)%Z.
Proof.
  revert w. induction level as [|x level IH]; intros [|w] H; simplify_eq/=.
  - lia.
  - specialize (IH w H). lia.
Qed.

Section DfsTotal.
Context (level : list Z) (t : nat).

Lemma dfs_edges_total rec v pushed :
  (∀ p, pushed = Some p → EPS < p) →
  rec_ok level t v rec → rec_total level v rec →
  ∀ n st es i,
    wf_adj (fs_adj st) → nonneg (fs_adj st) →
    length (fs_it st) = length (fs_adj st) →
    fs_adj st !! v = Some es → fs_it st !! v = Some i →
    (length es < n + i)%nat →
    ∃ r, dfs_edges rec level v pushed n st = Some r.
Proof.
  intros Hp Hok Htot n. induction n as [|n IH];
    intros st es i Hwf Hn Hlen Hes Hi Hfuel;
    rewrite dfs_edges_eq, Hes; simpl; rewrite Hi; simpl;
    destruct (es !! i) as [e|] eqn:He; eauto.
  { apply lookup_lt_Some in He. lia. }
  assert (Hslot : slot (fs_adj st) v i = Some e) by (apply slot_Some; eauto).
  assert (Hincr : ∀ st1, fs_adj st1 = fs_adj st →
                    length (fs_it st1) = length (fs_it st) →
                    fs_it st1 !! v = Some i →
                    ∃ r, dfs_edges rec level v pushed n (it_incr v st1) = Some r).
  { intros st1 Ha Hl Hi1. apply (IH _ es (S i)); rewrite ?it_incr_adj, ?it_incr_len, ?Ha;
      try done; try congruence; [| lia].
    unfold it_incr. rewrite Hi1. simpl. apply list_lookup_insert_eq.
    by eapply lookup_lt_Some. }
  destruct (gt_eps (cap e) && level_next level v (to e)) eqn:Hadm; [| by apply Hincr].
  apply andb_true_iff in Hadm as [Hcap%gt_eps_true Hnext].
  assert (Hmp : EPS < min_pushed pushed (cap e)).
  { destruct pushed as [p|]; simpl; [| done]. apply nmin_glb; auto. }
  destruct (Htot (to e) _ st Hnext Hmp Hwf Hn Hlen) as [[tr st1] Hr];
    [by eapply wf_adj_to_lt |].
  rewrite Hr. simpl.
  pose proof (Hok _ _ _ _ _ Hnext Hmp Hwf Hn Hr) as Hpost.
  destruct (gtb tr 0) eqn:Hgt.
  - destruct (shape_slot _ _ _ _ _ (eq_sym (post_shape _ _ _ _ _ _ _ Hpost)) Hslot)
      as (e1 & He1 & _).
    destruct (push_edge_Some (fs_adj st1) v i tr e1) as [adj2 H2]; [| done |].
    + eapply wf_adj_shape; [| exact Hwf]. symmetry. apply Hpost.
    + rewrite H2. simpl. eauto.
  - apply gtb_false in Hgt. apply Hincr.
    + apply Hpost. lra.
    + apply Hpost.
    + rewrite <- Hi. apply Hpost. by apply level_next_lt.
Qed.

Lemma dfs_total d :
  ∀ v pushed st lv,
    (∀ p, pushed = Some p → EPS < p) →
    (pushed = None → v ≠ t) →
    wf_adj (fs_adj st) → nonneg (fs_adj st) →
    length (fs_it st) = length (fs_adj st) →
    (v < length (fs_adj st))%nat →
    level !! v = Some lv → (foldr Z.max 0 level < lv + Z.of_nat d)%Z →
    ∃ r, dfs d level t v pushed st = Some r.
Proof.
  induction d as [|d IH]; intros v pushed st lv Hp Hnone Hwf Hn Hlen Hv Hlv Hd.
  { pose proof (level_le_max _ _ _ Hlv). lia. }
  simpl. destruct (bool_decide (v = t) || pushed_zero pushed) eqn:Hstop.
  - destruct pushed as [p|]; [eauto |].
    apply orb_true_iff in Hstop as [Hvt%bool_decide_eq_true | Hz]; [| done].
    by destruct Hnone.
  - destruct (lookup_lt_is_Some_2 _ _ Hv) as [es Hes]. rewrite Hes. simpl.
    assert (Hvi : (v < length (fs_it st))%nat) by lia.
    destruct (lookup_lt_is_Some_2 _ _ Hvi) as [i Hi].
    eapply dfs_edges_total; try done; [| | lia].
    + intros w p st0 tr0 st0' _ Hp0 Hwf0 Hn0 H0.
      eapply dfs_post_sound; [| done | done | exact H0]. by intros q [= <-].
    + intros w p st0 Hnext Hp0 Hwf0 Hn0 Hlen0 Hw.
      unfold level_next in Hnext. rewrite Hlv in Hnext.
      destruct (level !! w) as [lw|] eqn:Hlw; [| done].
      apply Z.eqb_eq in Hnext.
      eapply (IH w (Some p) st0 lw); try done; [by intros q [= <-] | lia].
Qed.
End DfsTotal.

Section DfsComplete.
Context (level : list Z) (t : nat).

Lemma dead_before_incr adj it v i :
  dead_before adj level t it → it !! v = Some i →
  (∀ e, slot adj v i = Some e → EPS < cap e →
        level_next level v (to e) = true → ¬ live adj level t (to e)) →
  dead_before adj level t (<[v := S i]> it).
Proof.
  intros Hd Hi Hnew u iu j e Hu Hj He Hcap Hnext.
  destruct (decide (u = v)) as [-> | Hne].
  - rewrite list_lookup_insert_eq in Hu by (by eapply lookup_lt_Some).
    injection Hu as <-.
    destruct (decide (j = i)) as [-> | Hji]; [by eapply Hnew |].
    eapply (Hd v i j); try done. lia.
  - rewrite list_lookup_insert_ne in Hu by done. by eapply Hd.
Qed.

Lemma dfs_edges_complete rec v pushed :
  v ≠ t →
  (∀ p, pushed = Some p → EPS < p) →
  rec_ok level t v rec → rec_complete level t v rec →
  ∀ n st tr st',
    wf_adj (fs_adj st) → nonneg (fs_adj st) →
    dead_before (fs_adj st) level t (fs_it st) →
    dfs_edges rec level v pushed n st = Some (tr, st') → ¬ 0 < tr →
    ¬ live (fs_adj st) level t v ∧
    dead_before (fs_adj st) level t (fs_it st').
Proof.
  intros Hvt Hp Hok Hcomp n. induction n as [|n IH];
    intros st tr st' Hwf Hn Hdead H Htr;
    rewrite dfs_edges_eq in H;
    destruct (fs_adj st !! v) as [es|] eqn:Hes; simpl in H; try done;
    destruct (fs_it st !! v) as [i|] eqn:Hi; simpl in H; try done;
    destruct (es !! i) as [e|] eqn:He; try done.
  1,3: injection H as <- <-; split; [| done];
    intros Hl; inversion Hl as [| v' k e' Hk Hcap Hnext Hlive]; subst; [done |];
    apply slot_Some in Hk as (es' & Hes' & Hk); simplify_eq;
    apply lookup_ge_None in He; apply lookup_lt_Some in Hk as Hlt;
    eapply (Hdead v i k); try done; [lia | apply slot_Some; eauto].
  assert (Hslot : slot (fs_adj st) v i = Some e) by (apply slot_Some; eauto).
  destruct (gt_eps (cap e) && level_next level v (to e)) eqn:Hadm.
  - apply andb_true_iff in Hadm as [Hcap%gt_eps_true Hnext].
    destruct (rec (to e) (min_pushed pushed (cap e)) st) as [[tr1 st1]|] eqn:Hr;
      simpl in H; [| done].
    assert (Hmp : EPS < min_pushed pushed (cap e)).
    { destruct pushed as [p|]; simpl; [| done]. apply nmin_glb; auto. }
    pose proof (Hok _ _ _ _ _ Hnext Hmp Hwf Hn Hr) as Hpost.
    destruct (gtb tr1 0) eqn:Hgt.
    + apply gtb_true in Hgt.
      destruct (push_edge v i tr1 (fs_adj st1)); simpl in H; [| done].
      injection H as <- <-. done.
    + apply gtb_false in Hgt.
      assert (Hnt : ¬ 0 < tr1) by lra.
      destruct (Hcomp _ _ _ _ _ Hnext Hmp Hwf Hn Hdead Hr Hnt) as [Hnl Hd1].
      assert (Hsame : fs_adj st1 = fs_adj st) by by apply Hpost.
      assert (Hi1 : fs_it st1 !! v = Some i).
      { rewrite <- Hi. apply Hpost. by apply level_next_lt. }
      apply IH in H; rewrite ?it_incr_adj, ?Hsame in *; try done.
      unfold it_incr. rewrite Hi1. simpl.
      apply dead_before_incr; try done.
      intros e' He' _ _. by simplify_eq.
  - apply IH in H; rewrite ?it_incr_adj in *; try done.
    unfold it_incr. rewrite Hi. simpl.
    apply dead_before_incr; try done.
    intros e' He' Hcap' Hnext'. simplify_eq.
    apply gt_eps_true in Hcap'. by rewrite Hcap', Hnext' in Hadm.
Qed.

Lemma dfs_complete d :
  ∀ v pushed st tr st',
    (∀ p, pushed = Some p → EPS < p) →
    wf_adj (fs_adj st) → nonneg (fs_adj st) →
    dead_before (fs_adj st) level t (fs_it st) →
    dfs d level t v pushed st = Some (tr, st') → ¬ 0 < tr →
    ¬ live (fs_adj st) level t v ∧
    dead_before (fs_adj st) level t (fs_it st').
Proof.
  induction d as [|d IH]; intros v pushed st tr st' Hp Hwf Hn Hdead H Htr; [done |].
  simpl in H.
  destruct (bool_decide (v = t) || pushed_zero pushed) eqn:Hstop.
  - destruct pushed as [p|]; [| done]. injection H as <- <-.
    pose proof (Hp p eq_refl). pose proof EPS_pos. lra.
  - apply orb_false_iff in Hstop as [Hvt%bool_decide_eq_false _].
    destruct (fs_adj st !! v) as [es|]; simpl in H; [| done].
    eapply dfs_edges_complete; try done.
    + intros w p st0 tr0 st0' _ Hp0 Hwf0 Hn0 H0.
      eapply dfs_post_sound; [| done | done | exact H0]. by intros q [= <-].
    + intros w p st0 tr0 st0' _ Hp0 Hwf0 Hn0 Hd0 H0 Ht0.
      eapply IH; [| done | done | done | exact H0 | done].
      by intros q [= <-].
Qed.
End DfsComplete.

(** A sink that bfs reaches has a climbing path from the source. *)
Lemma bfs_live adj s t level :
  bfs_post adj s level → level_reached level t = true →
  live adj level t s.
Proof.
  intros [_ Hsrc Hpar _] (lt & Ht & Hpos)%level_reached_true.
  assert (Hgen : ∀ n w lw, level !! w = Some lw → lw = Z.of_nat n →
                           live adj level t w → live adj level t s).
  { induction n as [|n IH]; intros w lw Hw Hn Hl.
    - destruct (Hpar w lw Hw) as [-> | (u & k & e & lu & ? & ? & ? & ? & ? & ?)];
        [lia | done | lia].
    - destruct (Hpar w lw Hw) as [-> | (u & k & e & lu & He & Hto & Hcap & Hu & Hlu & Hlw)];
        [lia | done |].
      apply (IH u lu Hu); [lia |].
      eapply live_step; [exact He | done | | by rewrite Hto].
      unfold level_next. rewrite Hu, Hto, Hw. by apply Z.eqb_eq. }
  apply (Hgen (Z.to_nat lt) t lt Ht); [lia | constructor].
Qed.

(** ** maxFlow *)

Lemma sum_caps_nonneg es : (∀ e, e ∈ es → 0 <= cap e) → 0 <= sum_caps es.
Proof.
  induction es as [|e es IH]; intros H; simpl; [lra |].
  assert (0 <= cap e) by (apply H; left).
  assert (0 <= sum_caps es) by (apply IH; intros; apply H; by right). lra.
Qed.

Lemma row_cut_le_sum X es :
  (∀ e, e ∈ es → 0 <= cap e) → row_cut X es <= sum_caps es.
Proof.
  induction es as [|e es IH]; intros H; simpl; [lra |].
  assert (0 <= cap e) by (apply H; left).
  assert (row_cut X es <= sum_caps es) by (apply IH; intros; apply H; by right).
  unfold crossing. destruct (X (to e)); lra.
Qed.

Lemma cut_from_only s b (adj : Adj) :
  (∀ es e, es ∈ adj → e ∈ es → 0 <= cap e) →
  cut_from (only s) b adj <=
  (if decide (b ≤ s)%nat
   then match adj !! (s - b)%nat with Some es => sum_caps es | None => 0 end
   else 0).
Proof.
  revert b. induction adj as [|x adj IH]; intros b Hn; simpl.
  - destruct (decide (b ≤ s)%nat); lra.
  - assert (Hx : row_cut (only s) x <= sum_caps x).
    { apply row_cut_le_sum. intros e He. eapply Hn; [left | done]. }
    assert (Hx0 : 0 <= sum_caps x).
    { apply sum_caps_nonneg. intros e He. eapply Hn; [left | done]. }
    specialize (IH (S b)). 
    assert (Hrest : ∀ es e, es ∈ adj → e ∈ es → 0 <= cap e)
      by (intros; eapply Hn; [by right | done]).
    specialize (IH Hrest).
    assert (Hrow : ∀ es, adj !! (s - S b)%nat = Some es → 0 <= sum_caps es).
    { intros es Hes. apply sum_caps_nonneg. intros e He. eapply Hrest; [| done].
      apply list_elem_of_lookup. eauto. }
    unfold only at 1. destruct (decide (b = s)) as [-> | Hne].
    + rewrite bool_decide_eq_true_2 by done.
      rewrite decide_False in IH by lia. rewrite decide_True by lia.
      rewrite Nat.sub_diag. simpl. lra.
    + rewrite bool_decide_eq_false_2 by done.
      destruct (decide (b ≤ s)%nat) as [Hle | Hgt].
      * rewrite decide_True in IH by lia.
        replace (s - b)%nat with (S (s - S b)) by lia. simpl. lra.
      * rewrite decide_False in IH by lia. lra.
Qed.

Lemma rescut_only_le s (adj : Adj) es :
  nonneg adj → adj !! s = Some es → rescut (only s) adj <= sum_caps es.
Proof.
  intros Hn Hes. pose proof (cut_from_only s 0 adj (nonneg_elems _ Hn)) as H.
  rewrite decide_True in H by lia. rewrite Nat.sub_0_r, Hes in H. done.
Qed.

Lemma flow_measure_drop C F F' :
  F + EPS < F' → F' <= C → (flow_measure C F' < flow_measure C F)%nat.
Proof.
  intros H1 H2. unfold flow_measure. unfold EPS in H1.
  set (x' := (C - F') * 1000000000). set (x := (C - F) * 1000000000).
  assert (Hx : x' + 1 < x) by (unfold x, x'; lra).
  assert (Hx' : 0 <= x') by (unfold x'; lra).
  pose proof (Qle_ceiling x) as Hc. pose proof (Qceiling_lt x') as Hc'.
  pose proof (Qle_ceiling x') as Hc2.
  assert (Hlt : inject_Z (Qceiling x' - 1) + 1 < inject_Z (Qceiling x)) by lra.
  replace (inject_Z (Qceiling x' - 1) + 1) with (inject_Z (Qceiling x' - 1) + inject_Z 1)
    in Hlt by done.
  rewrite <- inject_Z_plus, <- Zlt_Qlt in Hlt.
  assert (H0 : (0 <= Qceiling x')%Z).
  { rewrite Zle_Qle. change (inject_Z 0) with 0. lra. }
  lia.
Qed.

Lemma flow_measure_bound (adj : Adj) s es F :
  adj !! s = Some es → 0 <= sum_caps es → 0 <= F →
  (flow_measure (sum_caps es) F + 1 < Pos.to_nat (flow_bound adj s))%nat.
Proof.
  intros Hes HC HF. unfold flow_bound, flow_measure. rewrite Hes.
  assert (Hle : (Qceiling ((sum_caps es - F) * 1000000000)
                 <= Qceiling (sum_caps es * 1000000000))%Z).
  { apply Qceiling_resp_le. lra. }
  assert (Hc : (Qceiling 0 <= Qceiling (sum_caps es * 1000000000))%Z).
  { apply Qceiling_resp_le. lra. }
  change (Qceiling 0) with 0%Z in Hc.
  rewrite <- Z2Nat.inj_pos, Z2Pos.id by lia. lia.
Qed.

Lemma depth_bound_enough level :
  (foldr Z.max 0 level < 0 + Z.of_nat (depth_bound level))%Z.
Proof.
  unfold depth_bound.
  assert (0 <= foldr Z.max 0 level)%Z by (induction level; simpl; lia).
  lia.
Qed.

Lemma flow_inv_eq adj0 s t F F' adj :
  F == F' → flow_inv adj0 s t F adj → flow_inv adj0 s t F' adj.
Proof.
  intros E [Hsh Hn HF Hcut Hcap Hgrid]. split; try done.
  - lra.
  - intros X HX. rewrite (Hcut X HX). destruct (X s); lra.
  - intros u i e0 e H0 H. pose proof (Hcap _ _ _ _ H0 H). lra.
  - intros G HG Hon. destruct (Hgrid G HG Hon) as [HGF ?].
    split; [| done]. by eapply grid_eq.
Qed.

Lemma flow_inv_refl adj0 s t : nonneg adj0 → flow_inv adj0 s t 0 adj0.
Proof.
  intros Hn. split; try done; try lra.
  - intros X _. destruct (X s); lra.
  - intros u i e0 e H0 H. simplify_eq. lra.
  - intros G HG Hon. split; [apply HG | done].
Qed.

Section MaxFlow.
Context (adj0 : Adj) (s t : nat) (es0 : list DinicEdge).
Context (Hwf0 : wf_adj adj0) (Hn0 : nonneg adj0) (Hst : s ≠ t).
Context (Hes0 : adj0 !! s = Some es0).

Lemma flow_inv_wf F adj : flow_inv adj0 s t F adj → wf_adj adj.
Proof. intros H. eapply wf_adj_shape; [| exact Hwf0]. symmetry. apply H. Qed.

Lemma flow_inv_length F adj : flow_inv adj0 s t F adj → length adj = length adj0.
Proof. intros H. apply shape_length, H. Qed.

Lemma flow_le_caps F adj : flow_inv adj0 s t F adj → F <= sum_caps es0.
Proof.
  intros H.
  assert (Hs : only s t = false) by (unfold only; by rewrite bool_decide_eq_false_2).
  pose proof (fi_cut _ _ _ _ _ H (only s) Hs) as Hc.
  unfold only at 3 in Hc. rewrite bool_decide_eq_true_2 in Hc by done.
  pose proof (rescut_nonneg (only s) adj (fi_nonneg _ _ _ _ _ H)).
  pose proof (rescut_only_le s adj0 es0 Hn0 Hes0). lra.
Qed.

(** One more augmentation on top of a flow. *)
Lemma flow_inv_push level F adj it tr st' :
  flow_inv adj0 s t F adj →
  dfs_post level t s None (mkFS adj it) tr st' →
  flow_inv adj0 s t (F + tr) (fs_adj st').
Proof.
  intros [Hsh Hn HF Hcut Hcap Hgrid] [Psh _ _ Ptr _ _ _ Pcut Pn Pdrop _ Pgrid].
  simpl in *. split.
  - by rewrite Psh.
  - done.
  - lra.
  - intros X HX. rewrite (Pcut X HX), (Hcut X HX). destruct (X s); lra.
  - intros u i e0 e' H0 H'.
    destruct (shape_slot _ _ _ _ _ (eq_sym Hsh) H0) as (e & He & _).
    pose proof (Hcap _ _ _ _ H0 He). pose proof (Pdrop _ _ _ _ He H'). lra.
  - intros G HG Hon. destruct (Hgrid G HG Hon) as [HGF Hon1].
    destruct (Pgrid G HG Hon1) as [HGtr Hon2]; [done |].
    split; [by apply grid_add | done].
Qed.

Section Phase.
Context (level : list Z) (Hlevel : level !! s = Some 0%Z).

Lemma dfs_root_total F adj it :
  flow_inv adj0 s t F adj → length it = length adj →
  ∃ tr st', dfs_root level s t (mkFS adj it) = Some (tr, st') ∧
            dfs_post level t s None (mkFS adj it) tr st'.
Proof.
  intros Hinv Hlen. unfold dfs_root.
  destruct (dfs_total level t (depth_bound level) s None (mkFS adj it) 0%Z)
    as [[tr st'] H]; simpl; try done.
  - by eapply flow_inv_wf.
  - apply Hinv.
  - rewrite (flow_inv_length _ _ Hinv). by eapply lookup_lt_Some.
  - apply depth_bound_enough.
  - exists tr, st'. split; [done |].
    eapply dfs_post_sound; [done | | | exact H]; simpl.
    + by eapply flow_inv_wf.
    + apply Hinv.
Qed.

Lemma push_step_ok F0 a :
  push_inv adj0 s t F0 a →
  ∃ r, push_step level s t a = Some r ∧
       match r with
       | inl a' => push_inv adj0 s t F0 a' ∧
                   (flow_measure (sum_caps es0) a'.1.1
                    < flow_measure (sum_caps es0) a.1.1)%nat
       | inr (flow, st) =>
           flow_inv adj0 s t flow (fs_adj st) ∧ F0 + EPS < flow
       end.
Proof.
  destruct a as [[flow pushed] [adj it]].
  intros (Hinv & Hlen & Hflow & Hp0 & Hpe & HF0). simpl in *.
  destruct (gtb pushed 0) eqn:Hgt.
  - apply gtb_true in Hgt.
    destruct (dfs_root_total _ _ _ Hinv Hlen) as (tr & st' & Hr & Hpost).
    rewrite Hr. simpl. eexists. split; [done |]. simpl.
    pose proof (nadd_eq flow pushed) as E.
    pose proof (flow_le_caps _ _ Hinv). pose proof (Hpe Hgt).
    split; [| apply flow_measure_drop; lra].
    split; [| split; [| split; [| split; [| split]]]].
    + eapply flow_inv_eq; [| by eapply flow_inv_push]. lra.
    + rewrite (post_it_len _ _ _ _ _ _ _ Hpost). simpl. rewrite Hlen.
      apply shape_length. symmetry. apply Hpost.
    + lra.
    + apply Hpost.
    + apply Hpost.
    + pose proof (post_tr_nonneg _ _ _ _ _ _ _ Hpost). lra.
  - apply gtb_false in Hgt. eexists. split; [done |]. simpl.
    split; [| lra]. eapply flow_inv_eq; [| exact Hinv]. lra.
Qed.

Lemma push_loop_total F0 a :
  push_inv adj0 s t F0 a →
  ∃ flow st,
    while_loop (push_step level s t) (flow_bound adj0 s) a = Some (flow, st) ∧
    flow_inv adj0 s t flow (fs_adj st) ∧ F0 + EPS < flow.
Proof.
  intros Hinv.
  destruct (while_loop_total (push_step level s t) (push_inv adj0 s t F0)
              (λ b, flow_inv adj0 s t b.1 (fs_adj b.2) ∧ F0 + EPS < b.1)
              (λ a, flow_measure (sum_caps es0) a.1.1)
              (λ a Ha, ltac:(destruct (push_step_ok F0 a Ha) as (r & Hr & Hm);
                             exists r; split; [done |];
                             destruct r as [a' | [flow st]]; done))
              (flow_bound adj0 s) a Hinv) as ([flow st] & Hw & Hpost).
  - destruct a as [[flow pushed] st]. destruct Hinv as (_ & _ & Hflow & _).
    simpl. pose proof (flow_measure_bound adj0 s es0 flow Hes0) as Hb.
    assert (0 <= sum_caps es0).
    { apply sum_caps_nonneg. intros e He. eapply nonneg_elems; [done | | done].
      apply list_elem_of_lookup. eauto. }
    specialize (Hb H Hflow). lia.
  - by exists flow, st.
Qed.
End Phase.

Lemma phase_step_ok a :
  flow_inv adj0 s t a.1 a.2 →
  ∃ r, phase_step (flow_bound adj0 s) s t a = Some r ∧
       match r with
       | inl a' => flow_inv adj0 s t a'.1 a'.2 ∧
                   (flow_measure (sum_caps es0) a'.1
                    < flow_measure (sum_caps es0) a.1)%nat
       | inr (flow, adj) => flow_inv adj0 s t flow adj ∧ saturated adj s t
       end.
Proof.
  destruct a as [flow adj]. simpl. intros Hinv.
  pose proof (flow_inv_wf _ _ Hinv) as Hwf.
  assert (Hs : (s < length adj)%nat).
  { rewrite (flow_inv_length _ _ Hinv). by eapply lookup_lt_Some. }
  destruct (bfs_total adj s Hwf Hs) as (level & Hb & Hbp).
  rewrite Hb. simpl.
  destruct (level_reached level t) eqn:Hreach.
  - pose proof (bp_src _ _ _ Hbp) as Hsrc.
    set (it := replicate (length adj) 0%nat).
    assert (Hlen : length it = length adj) by apply length_replicate.
    destruct (dfs_root_total level Hsrc _ _ it Hinv Hlen) as (tr & st1 & Hr & Hpost).
    rewrite Hr. simpl.
    assert (Htr : 0 < tr).
    { apply Qnot_le_lt. intros Hle.
      assert (Hnt : ¬ 0 < tr) by lra.
      unfold dfs_root in Hr.
      destruct (dfs_complete level t (depth_bound level) s None (mkFS adj it) tr st1)
        as [Hnl _];
        simpl; try done.
      - apply Hinv.
      - intros v iv i e Hv Hi. apply lookup_replicate in Hv as [-> _]. lia.
      - apply Hnl. by eapply bfs_live. }
    destruct (push_loop_total level Hsrc flow (flow, tr, st1))
      as (flow' & st2 & Hw & Hinv2 & Hgt).
    { pose proof (post_tr_eps _ _ _ _ _ _ _ Hpost Htr).
      pose proof (fi_flow _ _ _ _ _ Hinv).
      split; [by eapply flow_inv_push |].
      split; [| repeat split; try lra; apply Hpost].
      rewrite (post_it_len _ _ _ _ _ _ _ Hpost). simpl. rewrite Hlen.
      apply shape_length. symmetry. apply Hpost. }
    rewrite Hw. simpl. eexists. split; [done |]. simpl.
    split; [done |]. apply flow_measure_drop; [done |].
    by eapply flow_le_caps.
  - eexists. split; [done |]. split; [done |]. by exists level.
Qed.

(** [maxFlow] returns, and what it returns is a flow that leaves no
    open path to the sink. *)
Lemma maxFlow_total :
  ∃ F adj, maxFlow adj0 s t = Some (F, adj) ∧
           flow_inv adj0 s t F adj ∧ saturated adj s t.
Proof.
  unfold maxFlow.
  destruct (while_loop_total (phase_step (flow_bound adj0 s) s t)
              (λ a, flow_inv adj0 s t a.1 a.2)
              (λ b, flow_inv adj0 s t b.1 b.2 ∧ saturated b.2 s t)
              (λ a, flow_measure (sum_caps es0) a.1)
              (λ a Ha, ltac:(destruct (phase_step_ok a Ha) as (r & Hr & Hm);
                             exists r; split; [done |];
                             destruct r as [a' | [flow adj]]; done))
              (flow_bound adj0 s) (0, adj0)) as ([F adj] & Hw & Hpost).
  - simpl. by apply flow_inv_refl.
  - simpl. pose proof (flow_measure_bound adj0 s es0 0 Hes0) as Hb.
    assert (0 <= sum_caps es0).
    { apply sum_caps_nonneg. intros e He. eapply nonneg_elems; [done | | done].
      apply list_elem_of_lookup. eauto. }
    assert (0 <= 0) by lra. specialize (Hb H H0). lia.
  - by exists F, adj.
Qed.
End MaxFlow.

(** ** Building the network *)

Lemma slot_push_row (adj : Adj) u lu x u' i :
  adj !! u = Some lu →
  slot (<[u := lu ++ [x]]> adj) u' i =
  if decide (u' = u ∧ i = length lu) then Some x else slot adj u' i.
Proof.
  intros Hu. assert (Hlt : (u < length adj)%nat) by by eapply lookup_lt_Some.
  unfold slot. destruct (decide (u' = u)) as [-> | Hne].
  - rewrite list_lookup_insert_eq, Hu by done. simpl.
    destruct (decide (i = length lu)) as [-> | Hi].
    + rewrite decide_True by done. by rewrite list_lookup_middle.
    + rewrite decide_False by tauto.
      destruct (decide (i < length lu)%nat).
      * by rewrite lookup_app_l.
      * rewrite !lookup_ge_None_2; [done | lia |].
        rewrite length_app. simpl. lia.
  - rewrite list_lookup_insert_ne by done. rewrite decide_False by tauto. done.
Qed.

Lemma rescut_push_row X (adj : Adj) u lu x :
  adj !! u = Some lu →
  rescut X (<[u := lu ++ [x]]> adj) ==
  rescut X adj + (if X u then crossing X x else 0).
Proof.
  intros Hu. unfold rescut. rewrite (cut_from_insert X 0 adj u lu _ Hu).
  pose proof (row_cut_app X lu [x]) as E. cbn [row_cut foldr] in E.
  change (0 + u)%nat with u. destruct (X u); lra.
Qed.

(** The two slots that [addEdge] appends. *)
Lemma addEdge_slots (adj : Adj) u v c adj' :
  addEdge u v c adj = Some adj' →
  ∃ lu lv iv,
    adj !! u = Some lu ∧ adj !! v = Some lv ∧
    length adj' = length adj ∧
    slot adj u (length lu) = None ∧ slot adj v iv = None ∧
    (v, iv) ≠ (u, length lu) ∧
    ∀ u' i, slot adj' u' i =
            if decide ((u', i) = (v, iv)) then Some (mkEdge u (length lu) 0)
            else if decide ((u', i) = (u, length lu)) then Some (mkEdge v (length lv) c)
            else slot adj u' i.
Proof.
  unfold addEdge. intros H.
  destruct (adj !! v) as [lv|] eqn:Hv; simpl in H; [| done].
  destruct (adj !! u) as [lu|] eqn:Hu; simpl in H; [| done].
  destruct (<[u := lu ++ [mkEdge v (length lv) c]]> adj !! v) as [lv1|] eqn:Hv1;
    simpl in H; [| done].
  injection H as <-.
  exists lu, lv, (length lv1). split; [done |]. split; [done |].
  assert (Hlv1 : lv1 = if decide (v = u) then lu ++ [mkEdge v (length lv) c] else lv).
  { destruct (decide (v = u)) as [-> | Hne].
    - rewrite list_lookup_insert_eq in Hv1 by (by eapply lookup_lt_Some). congruence.
    - rewrite list_lookup_insert_ne in Hv1 by done. congruence. }
  split; [by rewrite !length_insert |].
  split; [unfold slot; rewrite Hu; simpl; by apply lookup_ge_None_2 |].
  split.
  { unfold slot. rewrite Hv. simpl. apply lookup_ge_None_2. rewrite Hlv1.
    destruct (decide (v = u)); [| lia]. simplify_eq. rewrite length_app. simpl. lia. }
  split.
  { intros [= -> E]. rewrite decide_True in Hlv1 by done. rewrite Hlv1 in E.
    rewrite length_app in E. simpl in E. lia. }
  intros u' i. rewrite (slot_push_row _ v lv1 _ u' i Hv1).
  destruct (decide (u' = v ∧ i = length lv1)) as [[-> ->] | Hn1].
  - by rewrite decide_True.
  - rewrite decide_False by (intros [= -> ->]; tauto).
    rewrite (slot_push_row _ u lu _ u' i Hu).
    destruct (decide (u' = u ∧ i = length lu)) as [[-> ->] | Hn2].
    + by rewrite decide_True.
    + rewrite decide_False by (intros [= -> ->]; tauto). done.
Qed.

Lemma addEdge_Some (adj : Adj) u v c :
  (u < length adj)%nat → (v < length adj)%nat →
  ∃ adj', addEdge u v c adj = Some adj'.
Proof.
  intros Hu Hv. unfold addEdge.
  destruct (lookup_lt_is_Some_2 adj u Hu) as [lu Hlu].
  destruct (lookup_lt_is_Some_2 adj v Hv) as [lv Hlv].
  rewrite Hlv, Hlu. simpl.
  destruct (lookup_lt_is_Some_2 (<[u := lu ++ [mkEdge v (length lv) c]]> adj) v)
    as [lv1 Hlv1]; [by rewrite length_insert |].
  rewrite Hlv1. simpl. eauto.
Qed.

Lemma addEdge_rescut X (adj : Adj) u v c adj' :
  addEdge u v c adj = Some adj' →
  rescut X adj' == rescut X adj + (if X u && negb (X v) then c else 0).
Proof.
  unfold addEdge. intros H.
  destruct (adj !! v) as [lv|] eqn:Hv; simpl in H; [| done].
  destruct (adj !! u) as [lu|] eqn:Hu; simpl in H; [| done].
  destruct (<[u := lu ++ [mkEdge v (length lv) c]]> adj !! v) as [lv1|] eqn:Hv1;
    simpl in H; [| done].
  injection H as <-.
  rewrite (rescut_push_row X _ v lv1 _ Hv1), (rescut_push_row X _ u lu _ Hu).
  unfold crossing. simpl. destruct (X u), (X v); simpl; lra.
Qed.

Lemma addEdge_wf (adj : Adj) u v c adj' :
  wf_adj adj → addEdge u v c adj = Some adj' → wf_adj adj'.
Proof.
  intros Hwf H.
  destruct (addEdge_slots _ _ _ _ _ H)
    as (lu & lv & iv & Hu & Hv & Hlen & Hnu & Hnv & Hne & Hs).
  assert (Hold : ∀ u' i e, slot adj u' i = Some e → slot adj' u' i = Some e).
  { intros u' i e He. rewrite Hs.
    rewrite decide_False by (intros [= -> ->]; congruence).
    rewrite decide_False by (intros [= -> ->]; congruence). done. }
  assert (Hfwd : slot adj' u (length lu) = Some (mkEdge v (length lv) c)).
  { rewrite Hs. rewrite decide_False by done. by rewrite decide_True. }
  assert (Hbwd : slot adj' v iv = Some (mkEdge u (length lu) 0)).
  { rewrite Hs. by rewrite decide_True. }
  intros u' i e He. rewrite Hs in He.
  destruct (decide ((u', i) = (v, iv))) as [[= -> ->] | N1].
  { injection He as <-. simpl. eauto. }
  destruct (decide ((u', i) = (u, length lu))) as [[= -> ->] | N2].
  { injection He as <-. simpl.
    destruct (decide (u = v)) as [-> | Huv].
    - assert (lu = lv) as -> by congruence. rewrite Hfwd. eauto.
    - assert (iv = length lv) as <-; [| rewrite Hbwd; eauto].
      clear -H Hv Hu Hs Huv Hbwd Hnv.
      unfold addEdge in H. rewrite Hv, Hu in H. simpl in H.
      rewrite list_lookup_insert_ne, Hv in H by done. simpl in H.
      injection H as <-.
      destruct (decide (iv = length lv)) as [-> | Hne]; [done | exfalso].
      unfold slot in Hbwd. rewrite list_lookup_insert_eq in Hbwd
        by (rewrite length_insert; by eapply lookup_lt_Some).
      simpl in Hbwd. unfold slot in Hnv. rewrite Hv in Hnv. simpl in Hnv.
      apply lookup_ge_None in Hnv. apply lookup_lt_Some in Hbwd.
      rewrite length_app in Hbwd. simpl in Hbwd. lia. }
  destruct (Hwf _ _ _ He) as (r & Hr & Hto). eauto.
Qed.

Lemma addEdge_old (adj : Adj) u v c adj' u' i e :
  addEdge u v c adj = Some adj' → slot adj u' i = Some e →
  slot adj' u' i = Some e.
Proof.
  intros H He.
  destruct (addEdge_slots _ _ _ _ _ H)
    as (lu & lv & iv & Hu & Hv & Hlen & Hnu & Hnv & Hne & Hs).
  rewrite Hs.
  rewrite decide_False by (intros [= -> ->]; congruence).
  rewrite decide_False by (intros [= -> ->]; congruence). done.
Qed.

Lemma addEdge_new (adj : Adj) u v c adj' :
  addEdge u v c adj = Some adj' →
  ∃ i e, slot adj' u i = Some e ∧ to e = v ∧ cap e = c.
Proof.
  intros H.
  destruct (addEdge_slots _ _ _ _ _ H)
    as (lu & lv & iv & Hu & Hv & Hlen & Hnu & Hnv & Hne & Hs).
  exists (length lu), (mkEdge v (length lv) c). split; [| done].
  rewrite Hs. rewrite decide_False by done. by rewrite decide_True.
Qed.

(** A slot of the network after [addEdge] is an old one, the new edge
    or its paired edge. *)
Lemma addEdge_inv (adj : Adj) u v c adj' u' i e :
  addEdge u v c adj = Some adj' → slot adj' u' i = Some e →
  slot adj u' i = Some e ∨ (u' = u ∧ to e = v ∧ cap e = c)
  ∨ (u' = v ∧ to e = u ∧ cap e = 0).
Proof.
  intros H He.
  destruct (addEdge_slots _ _ _ _ _ H)
    as (lu & lv & iv & Hu & Hv & Hlen & Hnu & Hnv & Hne & Hs).
  rewrite Hs in He.
  destruct (decide ((u', i) = (v, iv))) as [[= -> ->] | N1].
  { injection He as <-. right; right. done. }
  destruct (decide ((u', i) = (u, length lu))) as [[= -> ->] | N2].
  { injection He as <-. right; left. done. }
  by left.
Qed.

Lemma addEdge_length (adj : Adj) u v c adj' :
  addEdge u v c adj = Some adj' → length adj' = length adj.
Proof.
  intros H. by destruct (addEdge_slots _ _ _ _ _ H) as (? & ? & ? & ? & ? & ? & _).
Qed.

Lemma slot_newDinic n u i : slot (newDinic n) u i = None.
Proof.
  unfold slot, newDinic. destruct (replicate n [] !! u) as [es|] eqn:E; [| done].
  apply lookup_replicate in E as [-> _]. done.
Qed.

Lemma rescut_newDinic X n : rescut X (newDinic n) == 0.
Proof.
  unfold rescut, newDinic. generalize 0%nat.
  induction n as [|n IH]; intros b; simpl; [lra |].
  rewrite IH. destruct (X b); lra.
Qed.

Section Network.
Context (chunks : list Chunk) (p INF : Q) (deps : list Edge).

Lemma add_chunk_edges_ok rest :
  ∀ pre adj,
    chunks = pre ++ rest →
    length adj = (length chunks + offset)%nat →
    wf_adj adj → net_slots chunks p INF deps adj →
    srcs_present chunks p (length pre) adj →
    ∃ adj', add_chunk_edges p (length pre) rest adj = Some adj' ∧
            length adj' = length adj ∧ wf_adj adj' ∧
            net_slots chunks p INF deps adj' ∧
            srcs_present chunks p (length chunks) adj' ∧
            ∀ X, rescut X adj' == rescut X adj + chunk_cut X p (length pre) rest.
Proof.
  induction rest as [|c rest IH]; intros pre adj Hch Hlen Hwf Hns Hsp.
  - exists adj. rewrite app_nil_r in Hch. subst pre.
    repeat split; try done. intros X. simpl. lra.
  - assert (Hc : chunks !! length pre = Some c)
      by (rewrite Hch; apply list_lookup_middle; done).
    assert (Hidx : (length pre + offset < length adj)%nat).
    { rewrite Hlen, Hch, length_app. simpl. lia. }
    assert (H01 : (source < length adj ∧ sink < length adj)%nat)
      by (unfold source, sink, offset in *; lia).
    cbn [add_chunk_edges]. fold (profit_of p c).
    set (step := if Qle_bool 0 (profit_of p c)
                 then addEdge source (length pre + offset) (profit_of p c) adj
                 else addEdge (length pre + offset) sink (nneg (profit_of p c)) adj).
    assert (∃ adj1, step = Some adj1 ∧ length adj1 = length adj ∧ wf_adj adj1 ∧
              net_slots chunks p INF deps adj1 ∧
              srcs_present chunks p (S (length pre)) adj1 ∧
              ∀ X, rescut X adj1 == rescut X adj + 
                (if Qle_bool 0 (profit_of p c)
                 then (if X source && negb (X (length pre + offset)%nat)
                       then profit_of p c else 0)
                 else (if X (length pre + offset)%nat && negb (X sink)
                       then nneg (profit_of p c) else 0)))
      as (adj1 & Hstep & Hlen1 & Hwf1 & Hns1 & Hsp1 & Hcut1).
    { unfold step. destruct (Qle_bool 0 (profit_of p c)) eqn:Hsign.
      - destruct (addEdge_Some adj source (length pre + offset) (profit_of p c))
          as [adj1 H1]; [tauto | done |].
        exists adj1. split; [done |]. split; [by eapply addEdge_length |].
        split; [by eapply addEdge_wf |].
        split; [| split; [| intros X; by eapply addEdge_rescut]].
        + intros u i e He.
          destruct (addEdge_inv _ _ _ _ _ _ _ _ H1 He)
            as [Ho | [(-> & -> & ->) | (-> & -> & ->)]];
            [by eapply Hns | by eapply ns_src | by eapply ns_src_back].
        + intros idx c' Hidx' Hc' Hs'.
          destruct (decide (idx = length pre)) as [-> | Hne].
          * simplify_eq. by eapply addEdge_new.
          * destruct (Hsp idx c') as (i & e & He & ? & ?); [lia | done | done |].
            exists i, e. split; [by eapply addEdge_old | done].
      - destruct (addEdge_Some adj (length pre + offset) sink (nneg (profit_of p c)))
          as [adj1 H1]; [done | tauto |].
        exists adj1. split; [done |]. split; [by eapply addEdge_length |].
        split; [by eapply addEdge_wf |].
        split; [| split; [| intros X; by eapply addEdge_rescut]].
        + intros u i e He.
          destruct (addEdge_inv _ _ _ _ _ _ _ _ H1 He)
            as [Ho | [(-> & -> & ->) | (-> & -> & ->)]];
            [by eapply Hns | by eapply ns_snk | by eapply ns_snk_back].
        + intros idx c' Hidx' Hc' Hs'.
          destruct (decide (idx = length pre)) as [-> | Hne]; [congruence |].
          destruct (Hsp idx c') as (i & e & He & ? & ?); [lia | done | done |].
          exists i, e. split; [by eapply addEdge_old | done]. }
    rewrite Hstep. simpl.
    destruct (IH (pre ++ [c]) adj1)
      as (adj' & H' & Hlen' & Hwf' & Hns' & Hsp' & Hcut');
      [by rewrite <- app_assoc | congruence | done | done
      | by rewrite length_app, Nat.add_1_r |].
    rewrite length_app in H', Hcut'. simpl in H', Hcut'.
    rewrite Nat.add_1_r in H', Hcut'.
    exists adj'. split; [done |]. split; [congruence |]. split; [done |].
    split; [done |]. split; [done |]. intros X. rewrite Hcut', Hcut1. simpl.
    fold (profit_of p c). lra.
Qed.

Lemma add_dep_edges_ok rest :
  ∀ pre adj,
    deps = pre ++ rest →
    length adj = (length chunks + offset)%nat →
    wf_adj adj → net_slots chunks p INF deps adj →
    deps_present chunks INF pre adj →
    ∃ adj', add_dep_edges chunks INF rest adj = Some adj' ∧
            length adj' = length adj ∧ wf_adj adj' ∧
            net_slots chunks p INF deps adj' ∧
            deps_present chunks INF deps adj' ∧
            (∀ u i e, slot adj u i = Some e → slot adj' u i = Some e) ∧
            ∀ X, rescut X adj' == rescut X adj + dep_cut X chunks INF rest.
Proof.
  induction rest as [|d rest IH]; intros pre adj Hd Hlen Hwf Hns Hpres.
  - exists adj. rewrite app_nil_r in Hd. subst pre.
    repeat split; try done. intros X. simpl. lra.
  - assert (Hin : d ∈ deps) by (rewrite Hd; set_solver).
    cbn [add_dep_edges dep_cut].
    set (step := match findIndex chunks (Types.from d),
                       findIndex chunks (Types.to d) with
                 | Some fromIdx, Some toIdx =>
                     addEdge (fromIdx + offset) (toIdx + offset) INF adj
                 | _, _ => Some adj
                 end).
    assert (∃ adj1, step = Some adj1 ∧ length adj1 = length adj ∧ wf_adj adj1 ∧
              net_slots chunks p INF deps adj1 ∧
              deps_present chunks INF (pre ++ [d]) adj1 ∧
              (∀ u i e, slot adj u i = Some e → slot adj1 u i = Some e) ∧
              ∀ X, rescut X adj1 == rescut X adj +
                match findIndex chunks (Types.from d),
                      findIndex chunks (Types.to d) with
                | Some fi, Some ti =>
                    if X (fi + offset)%nat && negb (X (ti + offset)%nat)
                    then INF else 0
                | _, _ => 0
                end)
      as (adj1 & Hstep & Hlen1 & Hwf1 & Hns1 & Hpres1 & Hold1 & Hcut1).
    { unfold step.
      destruct (findIndex chunks (Types.from d)) as [fi|] eqn:Hfi;
        [destruct (findIndex chunks (Types.to d)) as [ti|] eqn:Hti |].
      - assert (Hfl : (fi < length chunks)%nat).
        { unfold findIndex in Hfi. apply fmap_Some in Hfi as ([i c] & Hf & ->).
          apply list_find_Some in Hf as (Hf & _). by eapply lookup_lt_Some. }
        assert (Htl : (ti < length chunks)%nat).
        { unfold findIndex in Hti. apply fmap_Some in Hti as ([i c] & Hf & ->).
          apply list_find_Some in Hf as (Hf & _). by eapply lookup_lt_Some. }
        destruct (addEdge_Some adj (fi + offset) (ti + offset) INF) as [adj1 H1];
          [lia | lia |].
        exists adj1. split; [done |]. split; [by eapply addEdge_length |].
        split; [by eapply addEdge_wf |].
        split; [| split; [| split; [| intros X; by eapply addEdge_rescut]]].
        + intros u i e He.
          destruct (addEdge_inv _ _ _ _ _ _ _ _ H1 He)
            as [Ho | [(-> & -> & ->) | (-> & -> & ->)]];
            [by eapply Hns | by eapply ns_dep | by eapply ns_dep_back].
        + intros d' fi' ti' [Hd' | ->%list_elem_of_singleton]%elem_of_app Hfi' Hti'.
          * destruct (Hpres d' fi' ti' Hd' Hfi' Hti') as (i & e & He & ? & ?).
            exists i, e. split; [by eapply addEdge_old | done].
          * simplify_eq. by eapply addEdge_new.
        + intros u i e He. by eapply addEdge_old.
      - exists adj. repeat split; try done; [| intros X; lra].
        intros d' fi' ti' [Hd' | ->%list_elem_of_singleton]%elem_of_app Hfi' Hti';
          [by eapply Hpres | congruence].
      - exists adj. repeat split; try done; [| intros X; lra].
        intros d' fi' ti' [Hd' | ->%list_elem_of_singleton]%elem_of_app Hfi' Hti';
          [by eapply Hpres | congruence]. }
    rewrite Hstep. simpl.
    destruct (IH (pre ++ [d]) adj1)
      as (adj' & H' & Hlen' & Hwf' & Hns' & Hp' & Hold' & Hcut');
      [by rewrite <- app_assoc | congruence | done | done | done |].
    exists adj'. split; [done |]. split; [congruence |]. split; [done |].
    split; [done |]. split; [done |]. split; [by auto |].
    intros X. rewrite Hcut', Hcut1. lra.
Qed.
End Network.

(** ** One run of the Closure Builder *)

Lemma abs_sum_nonneg p ws : 0 <= abs_sum p ws.
Proof.
  induction ws as [|w ws IH]; cbn [abs_sum]; [lra |].
  pose proof (Qabs_nonneg (w - p)). lra.
Qed.

Lemma INF_of_eq ws p : INF_of ws p == abs_sum p ws + 1.
Proof.
  unfold INF_of. rewrite nadd_eq.
  assert (H : ∀ a, foldl (λ acc w, nadd acc (nabs (nsub w p))) a ws
                   == a + abs_sum p ws).
  { induction ws as [|w ws IH]; intros a; cbn [foldl abs_sum]; [lra |].
    rewrite IH, nadd_eq, nabs_eq, nsub_eq. lra. }
  rewrite H. lra.
Qed.

Lemma INF_of_ge_1 ws p : 1 <= INF_of ws p.
Proof. rewrite INF_of_eq. pose proof (abs_sum_nonneg p ws). lra. Qed.

Lemma Qle_bool_false a b : Qle_bool a b = false ↔ b < a.
Proof.
  rewrite <- not_true_iff_false, Qle_bool_iff.
  split; [apply Qnot_le_lt | apply Qlt_not_le].
Qed.

Lemma net_slots_nonneg chunks p deps adj :
  net_slots chunks p (INF_of (weight_or0 <$> chunks) p) deps adj → nonneg adj.
Proof.
  intros Hns u i e He. pose proof (INF_of_ge_1 (weight_or0 <$> chunks) p).
  destruct (Hns _ _ _ He) as [idx c _ Hs | | idx c _ Hs | | |]; try lra.
  - by apply Qle_bool_iff in Hs.
  - apply Qle_bool_false in Hs. rewrite nneg_eq. lra.
Qed.

(** The terminal edges of the source carry no more than [INF - 1]. *)
Lemma chunk_cut_only_le p chunks idx :
  chunk_cut (only source) p idx chunks <= abs_sum p (weight_or0 <$> chunks).
Proof.
  revert idx. induction chunks as [|c chunks IH]; intros idx;
    cbn [chunk_cut abs_sum fmap list_fmap]; [lra |].
  specialize (IH (S idx)).
  assert (Hid : only source (idx + offset) = false)
    by (unfold only, source, offset; apply bool_decide_eq_false_2; lia).
  rewrite Hid. cbn [andb negb].
  pose proof (Qabs_nonneg (weight_or0 c - p)).
  pose proof (nsub_eq (weight_or0 c) p) as E.
  destruct (Qle_bool 0 (profit_of p c)) eqn:Hs.
  - apply Qle_bool_iff in Hs. unfold profit_of in *.
    assert (Hpos : 0 <= weight_or0 c - p) by lra.
    pose proof (Qabs_pos _ Hpos).
    destruct (only source source); cbn [andb]; lra.
  - lra.
Qed.

Lemma dep_cut_only chunks INF deps : dep_cut (only source) chunks INF deps == 0.
Proof.
  induction deps as [|d deps IH]; cbn [dep_cut]; [lra |]. rewrite IH.
  destruct (findIndex chunks (Types.from d)) as [fi|]; [| lra].
  destruct (findIndex chunks (Types.to d)) as [ti|]; [| lra].
  assert (only source (fi + offset) = false) as ->
    by (unfold only, source, offset; apply bool_decide_eq_false_2; lia).
  simpl. lra.
Qed.

Lemma network_ok g p :
  ∃ adj0, network g p = Some adj0 ∧
    length adj0 = (length (values g) + offset)%nat ∧ wf_adj adj0 ∧
    net_slots (values g) p (INF_of (weight_or0 <$> values g) p) (Types.edges g) adj0 ∧
    deps_present (values g) (INF_of (weight_or0 <$> values g) p) (Types.edges g) adj0 ∧
    srcs_present (values g) p (length (values g)) adj0 ∧
    ∀ X, rescut X adj0 ==
         chunk_cut X p 0 (values g)
         + dep_cut X (values g) (INF_of (weight_or0 <$> values g) p) (Types.edges g).
Proof.
  unfold network.
  set (chunks := values g). set (INF := INF_of (weight_or0 <$> chunks) p).
  destruct (add_chunk_edges_ok chunks p INF (Types.edges g) chunks []
              (newDinic (length chunks + offset)))
    as (adj1 & H1 & Hlen1 & Hwf1 & Hns1 & Hsp1 & Hcut1).
  - done.
  - apply length_replicate.
  - intros u i e He. by rewrite slot_newDinic in He.
  - intros u i e He. by rewrite slot_newDinic in He.
  - intros idx c Hidx. simpl in Hidx. lia.
  - simpl in H1. rewrite H1. simpl.
    destruct (add_dep_edges_ok chunks p INF (Types.edges g) (Types.edges g) [] adj1)
      as (adj0 & H0 & Hlen0 & Hwf0 & Hns0 & Hp0 & Hold0 & Hcut0).
    + done.
    + rewrite Hlen1. apply length_replicate.
    + done.
    + done.
    + intros d fi ti Hd. by apply elem_of_nil in Hd.
    + exists adj0. split; [done |]. split.
      { rewrite Hlen0, Hlen1. apply length_replicate. }
      split; [done |]. split; [done |]. split; [done |].
      split.
      { intros idx c Hidx Hc Hs.
        destruct (Hsp1 idx c Hidx Hc Hs) as (i & e & He & ? & ?).
        exists i, e. split; [by apply Hold0 | done]. }
      intros X. rewrite Hcut0, Hcut1, rescut_newDinic. simpl. lra.
Qed.

Lemma buildClosure_empty g p :
  values g = [] → buildClosure g p = Some (Types.mkSolution [] 0 0 (Some p)).
Proof. intros H. unfold buildClosure. by rewrite H. Qed.

Lemma buildClosure_run g p :
  values g ≠ [] → ∃ adj0 F adj reach, closure_run g p adj0 F adj reach.
Proof.
  intros Hne.
  destruct (network_ok g p) as (adj0 & Hnet & Hlen & Hwf & Hns & Hdeps & Hsrcs & Hcut).
  assert (Hn : nonneg adj0) by by eapply net_slots_nonneg.
  assert (H0 : (source < length adj0)%nat) by (rewrite Hlen; unfold source, offset; lia).
  destruct (lookup_lt_is_Some_2 adj0 source H0) as [es0 Hes0].
  destruct (maxFlow_total adj0 source sink es0 Hwf Hn ltac:(done) Hes0)
    as (F & adj & Hmf & Hinv & Hsat).
  assert (Hwf' : wf_adj adj) by by eapply flow_inv_wf.
  assert (H0' : (source < length adj)%nat)
    by (by rewrite (flow_inv_length _ _ _ _ _ Hinv)).
  destruct (reachable_total adj source Hwf' H0') as (reach & Hr & Hrp).
  exists adj0, F, adj, reach. split; try done.
  unfold buildClosure. rewrite decide_False.
  - rewrite Hnet. simpl. rewrite Hmf. simpl. rewrite Hr. done.
  - destruct (values g); [done | simpl; lia].
Qed.

(** [buildClosure] always returns. *)
Lemma buildClosure_total g p : ∃ sol, buildClosure g p = Some sol.
Proof.
  destruct (values g) as [|c l] eqn:E.
  - rewrite buildClosure_empty by done. eauto.
  - destruct (buildClosure_run g p) as (adj0 & F & adj & reach & Hrun);
      [by rewrite E |].
    rewrite (run_result _ _ _ _ _ _ Hrun). eauto.
Qed.

(** *** The collected ids *)

Lemma collect_elem reach idx chunks x :
  x ∈ collect reach idx chunks ↔
  ∃ i c, chunks !! i = Some c ∧ Types.id c = x ∧
         seen_at reach (idx + i + offset) = true.
Proof.
  revert idx. induction chunks as [|c chunks IH]; intros idx; simpl.
  - split; [by intros ?%elem_of_nil | by intros (i & c & ? & _)].
  - assert (Hrest : (∃ i c', chunks !! i = Some c' ∧ Types.id c' = x ∧
                       seen_at reach (S idx + i + offset) = true)
                    ↔ ∃ i c', (c :: chunks) !! S i = Some c' ∧ Types.id c' = x ∧
                       seen_at reach (idx + S i + offset) = true).
    { split; intros (i & c' & H1 & H2 & H3); exists i, c';
        (split; [done |]; split; [done |]);
        [replace (idx + S i)%nat with (S idx + i)%nat by lia
        | replace (S idx + i)%nat with (idx + S i)%nat by lia]; done. }
    destruct (seen_at reach (idx + offset)) eqn:Hs.
    + rewrite elem_of_cons, IH, Hrest. split.
      * intros [-> | (i & c' & H)]; [| by exists (S i), c'].
        exists 0%nat, c. rewrite Nat.add_0_r. done.
      * intros ([|i] & c' & H1 & H2 & H3); [left | right; by exists i, c'].
        simpl in H1. by simplify_eq.
    + rewrite IH, Hrest. split.
      * intros (i & c' & H). by exists (S i), c'.
      * intros ([|i] & c' & H1 & H2 & H3); [| by exists i, c'].
        rewrite Nat.add_0_r in H3. congruence.
Qed.

Lemma collect_sublist reach idx chunks :
  sublist (collect reach idx chunks) (Types.id <$> chunks).
Proof.
  revert idx. induction chunks as [|c chunks IH]; intros idx; simpl; [done |].
  destruct (seen_at reach (idx + offset)); [by apply sublist_skip | by apply sublist_cons].
Qed.

(** When reachability of a chunk's node is decided by the chunk alone,
    the collected ids are a filter of the chunks. *)
Lemma collect_filter reach (P : Chunk → bool) idx chunks :
  (∀ i c, chunks !! i = Some c → seen_at reach (idx + i + offset) = P c) →
  collect reach idx chunks = Types.id <$> filter (λ c, P c = true) chunks.
Proof.
  revert idx. induction chunks as [|c chunks IH]; intros idx H; simpl; [done |].
  pose proof (H 0%nat c eq_refl) as H0. rewrite Nat.add_0_r in H0. rewrite H0.
  assert (Hrest : collect reach (S idx) chunks
                  = Types.id <$> filter (λ c, P c = true) chunks).
  { apply IH. intros i c' Hi. specialize (H (S i) c' Hi).
    by replace (S idx + i)%nat with (idx + S i)%nat by lia. }
  rewrite filter_cons. destruct (P c) eqn:HP.
  - rewrite decide_True by done. simpl. by rewrite Hrest.
  - rewrite decide_False by (by intros ?). done.
Qed.

(** ** Closedness of the built closure *)

Lemma findIndex_Some chunks x i :
  findIndex chunks x = Some i →
  ∃ c, chunks !! i = Some c ∧ Types.id c = x.
Proof.
  unfold findIndex. intros ([j c] & Hf & ->)%fmap_Some.
  apply list_find_Some in Hf as (Hj & Hid & _). eauto.
Qed.

Lemma findIndex_elem chunks x :
  x ∈ Types.id <$> chunks → ∃ i, findIndex chunks x = Some i.
Proof.
  intros (c & -> & Hc)%list_elem_of_fmap. unfold findIndex.
  destruct (list_find_elem_of (λ c', Types.id c' = Types.id c) chunks c Hc eq_refl)
    as [[i c'] Hf].
  rewrite Hf. by exists i.
Qed.

Lemma findIndex_None chunks x :
  x ∉ Types.id <$> chunks → findIndex chunks x = None.
Proof.
  intros Hx. unfold findIndex.
  destruct (list_find _ chunks) as [[i c]|] eqn:Hf; [| done].
  apply list_find_Some in Hf as (Hi & Hid & _). exfalso. apply Hx.
  apply list_elem_of_fmap. exists c. split; [done |].
  apply list_elem_of_lookup. eauto.
Qed.

Lemma findIndex_NoDup chunks i c :
  NoDup (Types.id <$> chunks) → chunks !! i = Some c →
  findIndex chunks (Types.id c) = Some i.
Proof.
  intros Hnd Hi. unfold findIndex.
  destruct (list_find_elem_of (λ c', Types.id c' = Types.id c) chunks c) as [[j c'] Hf];
    [apply list_elem_of_lookup; eauto | done |].
  rewrite Hf. simpl. f_equal.
  apply list_find_Some in Hf as (Hj & Hid & _).
  eapply NoDup_lookup; [exact Hnd | |].
  - rewrite list_lookup_fmap, Hj. done.
  - rewrite list_lookup_fmap, Hi. simpl. by rewrite Hid.
Qed.

Section Run.
Context (g : Graph) (p : Q) (adj0 : Adj) (F : Q) (adj : Adj) (reach : list bool).
Context (Hrun : closure_run g p adj0 F adj reach).

Lemma run_only_sink : only source sink = false.
Proof. done. Qed.

Lemma run_nonneg0 : nonneg adj0.
Proof. eapply net_slots_nonneg, Hrun. Qed.

(** The flow stays below the capacity of a dependency edge. *)
Lemma run_flow_bound : F + 1 <= INF_of (weight_or0 <$> values g) p.
Proof.
  pose proof (fi_cut _ _ _ _ _ (run_flow _ _ _ _ _ _ Hrun) (only source) run_only_sink)
    as Hc.
  change (only source source) with true in Hc.
  pose proof (rescut_nonneg (only source) adj
                (fi_nonneg _ _ _ _ _ (run_flow _ _ _ _ _ _ Hrun))).
  rewrite (run_cut _ _ _ _ _ _ Hrun), dep_cut_only in Hc.
  pose proof (chunk_cut_only_le p (values g) 0).
  rewrite INF_of_eq. lra.
Qed.

(** A dependency edge stays open, so its head is reached with its
    tail. *)
Lemma run_closed_idx d fi ti :
  d ∈ Types.edges g →
  findIndex (values g) (Types.from d) = Some fi →
  findIndex (values g) (Types.to d) = Some ti →
  seen_at reach (fi + offset) = true → seen_at reach (ti + offset) = true.
Proof.
  intros Hd Hfi Hti Hseen.
  destruct (run_deps _ _ _ _ _ _ Hrun d fi ti Hd Hfi Hti) as (i & e0 & He0 & Hto & Hcap).
  destruct (shape_slot adj0 adj _ _ _
              (eq_sym (fi_shape _ _ _ _ _ (run_flow _ _ _ _ _ _ Hrun))) He0)
    as (e & He & Hto' & _).
  pose proof (fi_cap _ _ _ _ _ (run_flow _ _ _ _ _ _ Hrun) _ _ _ _ He0 He) as Hc.
  pose proof run_flow_bound. rewrite Hcap in Hc.
  rewrite <- Hto, <- Hto'.
  eapply (rp_closed _ _ _ (run_reach _ _ _ _ _ _ Hrun)); [exact He | | done].
  unfold EPS. lra.
Qed.

Lemma run_closed : NoDup (ids g) → closed_in g (collect reach 0 (values g)).
Proof.
  intros Hnd d Hd Hto Hfrom.
  apply collect_elem in Hfrom as (i & c & Hi & Hid & Hseen).
  destruct (findIndex_elem _ _ Hto) as [ti Hti].
  destruct (findIndex_Some _ _ _ Hti) as (c' & Hc' & Hid').
  apply collect_elem. exists ti, c'. split; [done |]. split; [done |].
  eapply run_closed_idx; [done | | done | done].
  rewrite <- Hid. by apply findIndex_NoDup.
Qed.

(** The sink is never reached. *)
Lemma run_sink_unseen : seen_at reach sink = false.
Proof.
  destruct (run_saturated _ _ _ _ _ _ Hrun) as (level & Hbp & Ht).
  destruct (seen_at reach sink) eqn:Hs; [| done].
  rewrite <- Ht. symmetry.
  apply (rp_sound _ _ _ (run_reach _ _ _ _ _ _ Hrun)
           (λ u, level_reached level u = true)); [| | done].
  - apply level_reached_true. exists 0%Z. split; [apply Hbp | done].
  - intros u k e He Hcap Hu. by eapply (bp_closed _ _ _ Hbp).
Qed.
End Run.

Lemma buildClosure_built g p sol : buildClosure g p = Some sol → built g sol.
Proof.
  intros H. destruct (values g) as [|c l] eqn:E.
  - rewrite buildClosure_empty in H by done. injection H as <-.
    split; simpl; try done.
    + apply sublist_nil_l.
    + intros _ d _ _ Hd. by apply elem_of_nil in Hd.
  - destruct (buildClosure_run g p) as (adj0 & F & adj & reach & Hrun);
      [by rewrite E |].
    rewrite (run_result _ _ _ _ _ _ Hrun) in H. injection H as <-.
    split; simpl; try done.
    + apply collect_sublist.
    + by eapply run_closed.
Qed.

Lemma buildClosure_penalty g p sol :
  buildClosure g p = Some sol → Types.penalty sol = Some p.
Proof.
  unfold buildClosure. intros H.
  destruct (decide _); [by injection H as <- |].
  destruct (network g p); simpl in H; [| done].
  destruct (maxFlow _ _ _) as [[? ?]|]; simpl in H; [| done].
  destruct (reachable _ _); simpl in H; [| done]. by injection H as <-.
Qed.

(** ** The Size Enforcer *)

Lemma set_add_elem x s y : y ∈ set_add x s ↔ y = x ∨ y ∈ s.
Proof.
  unfold set_add. case_bool_decide as H.
  - split; [by right | by intros [-> | ?]].
  - rewrite elem_of_app, list_elem_of_singleton. tauto.
Qed.

Lemma set_add_NoDup x s : NoDup s → NoDup (set_add x s).
Proof.
  intros Hnd. unfold set_add. case_bool_decide as H; [done |].
  apply NoDup_app. split; [done |]. split; [| apply NoDup_singleton].
  by intros y Hy ->%list_elem_of_singleton.
Qed.

Lemma set_of_acc ids :
  ∀ acc, NoDup acc →
    NoDup (foldl (λ s x, set_add x s) acc ids) ∧
    ∀ y, y ∈ foldl (λ s x, set_add x s) acc ids ↔ y ∈ acc ∨ y ∈ ids.
Proof.
  induction ids as [|x ids IH]; intros acc Hnd; simpl.
  - split; [done |]. intros y. rewrite elem_of_nil. tauto.
  - destruct (IH (set_add x acc) (set_add_NoDup x acc Hnd)) as [H1 H2].
    split; [done |]. intros y. rewrite H2, set_add_elem, elem_of_cons. tauto.
Qed.

Lemma set_of_NoDup ids : NoDup (set_of ids).
Proof. apply set_of_acc, NoDup_nil_2. Qed.

Lemma set_of_elem ids y : y ∈ set_of ids ↔ y ∈ ids.
Proof.
  unfold set_of. destruct (set_of_acc ids [] (NoDup_nil_2)) as [_ H].
  rewrite H, elem_of_nil. tauto.
Qed.

Lemma set_has_true s x : set_has s x = true ↔ x ∈ s.
Proof. unfold set_has. apply bool_decide_eq_true. Qed.

Lemma set_delete_elem x s y : y ∈ set_delete x s ↔ y ≠ x ∧ y ∈ s.
Proof. unfold set_delete. by rewrite list_elem_of_filter. Qed.

Lemma set_delete_sublist x s : sublist (set_delete x s) s.
Proof. apply sublist_filter. Qed.

Lemma sort_insert_perm {A} (cmp : A → A → Q) x l : sort_insert cmp x l ≡ₚ x :: l.
Proof.
  induction l as [|y l IH]; simpl; [done |].
  destruct (gtb (cmp x y) 0); [| done].
  rewrite IH. apply Permutation_swap.
Qed.

Lemma js_sort_perm {A} (cmp : A → A → Q) l : js_sort cmp l ≡ₚ l.
Proof.
  unfold js_sort. induction l as [|x l IH]; simpl; [done |].
  by rewrite sort_insert_perm, IH.
Qed.

Lemma slice0_sublist {A} k (l : list A) : sublist (slice0 k l) l.
Proof. unfold slice0. destruct (0 <=? k)%Z; apply sublist_take. Qed.

Lemma slice0_length {A} k (l : list A) :
  (0 <= k)%Z → (Z.of_nat (length (slice0 k l)) <= k)%Z.
Proof.
  intros Hk. unfold slice0. rewrite (proj2 (Z.leb_le 0 k)) by done.
  rewrite length_take. lia.
Qed.

Lemma trim_sublist dependents k removable :
  ∀ keep, sublist (trim dependents k removable keep) keep.
Proof.
  induction removable as [|cid rest IH]; intros keep; simpl; [done |].
  destruct (Z.of_nat (length keep) <=? k)%Z; [done |].
  destruct (isDependency dependents keep cid); [apply IH |].
  etrans; [apply IH | apply set_delete_sublist].
Qed.

Lemma trimmed_sublist g ids k : sublist (trimmed g ids k) (set_of ids).
Proof. apply trim_sublist. Qed.

(** The enforcer only removes elements. *)
Lemma enforce_subseteq g ids k : enforceSizeLimit g ids k ⊆ ids.
Proof.
  unfold enforceSizeLimit. destruct (Z.of_nat (length ids) <=? k)%Z; [done |].
  assert (Ht : trimmed g ids k ⊆ ids).
  { intros x Hx. apply set_of_elem. by eapply sublist_subseteq; [apply trimmed_sublist |]. }
  destruct (k <? Z.of_nat (length (trimmed g ids k)))%Z; [| done].
  intros x Hx. apply Ht.
  apply (sublist_subseteq _ _ (slice0_sublist _ _)) in Hx.
  by rewrite js_sort_perm in Hx.
Qed.

Lemma enforce_NoDup g ids k : NoDup ids → NoDup (enforceSizeLimit g ids k).
Proof.
  intros Hnd. unfold enforceSizeLimit.
  destruct (Z.of_nat (length ids) <=? k)%Z; [done |].
  assert (Ht : NoDup (trimmed g ids k)).
  { eapply sublist_NoDup; [| apply trimmed_sublist]. apply set_of_NoDup. }
  destruct (k <? Z.of_nat (length (trimmed g ids k)))%Z; [| done].
  eapply sublist_NoDup; [| apply slice0_sublist]. by rewrite js_sort_perm.
Qed.

Lemma enforce_length g ids k :
  (0 <= k)%Z → (Z.of_nat (length (enforceSizeLimit g ids k)) <= k)%Z.
Proof.
  intros Hk. unfold enforceSizeLimit.
  destruct (Z.of_nat (length ids) <=? k)%Z eqn:E1; [by apply Z.leb_le |].
  destruct (k <? Z.of_nat (length (trimmed g ids k)))%Z eqn:E2.
  - by apply slice0_length.
  - by apply Z.ltb_ge in E2.
Qed.

(** *** The reverse-dependency index *)

Lemma dep_map_ok_step pre m e :
  dep_map_ok pre m →
  dep_map_ok (pre ++ [e])
    (<[Types.to e := set_add (Types.from e) (default [] (m !! Types.to e))]> m).
Proof.
  intros Hok b a.
  assert (Hlast : e ∈ pre ++ [e]) by (apply elem_of_app; right; by left).
  assert (Hpre : ∀ e', e' ∈ pre → e' ∈ pre ++ [e])
    by (intros e' He'; apply elem_of_app; by left).
  destruct (decide (b = Types.to e)) as [-> | Hne].
  - rewrite lookup_insert_eq. split.
    + intros (deps & [= <-] & [-> | Ha]%set_add_elem); [by exists e |].
      destruct (m !! Types.to e) as [deps|] eqn:Hm; simpl in Ha;
        [| by apply elem_of_nil in Ha].
      destruct (proj1 (Hok (Types.to e) a)) as (e' & ? & ? & ?); [by eauto |].
      exists e'. auto.
    + intros (e' & [He' | ->%list_elem_of_singleton]%elem_of_app & Hto & Hfrom).
      * destruct (proj2 (Hok (Types.to e) a)) as (deps & Hm & Ha); [by eauto |].
        eexists. split; [done |]. apply set_add_elem. right. by rewrite Hm.
      * eexists. split; [done |]. apply set_add_elem. by left.
  - rewrite lookup_insert_ne by done. split.
    + intros (e' & ? & ? & ?)%Hok. exists e'. auto.
    + intros (e' & [He' | ->%list_elem_of_singleton]%elem_of_app & Hto & Hfrom);
        [apply Hok; by eauto | congruence].
Qed.

Lemma dependents_of_ok es : dep_map_ok es (dependents_of es).
Proof.
  unfold dependents_of.
  assert (H : ∀ rest pre m, dep_map_ok pre m →
    dep_map_ok (pre ++ rest)
      (foldl (λ m e, <[Types.to e := set_add (Types.from e)
                                        (default [] (m !! Types.to e))]> m) m rest)).
  { induction rest as [|e rest IH]; intros pre m Hok; simpl.
    - by rewrite app_nil_r.
    - rewrite cons_middle, app_assoc.
      apply IH. by apply dep_map_ok_step. }
  apply (H es [] ∅). intros b a. split.
  - intros (deps & Hm & _). by rewrite lookup_empty in Hm.
  - intros (e & He & _). by apply elem_of_nil in He.
Qed.

Lemma isDependency_spec es keep cid :
  isDependency (dependents_of es) keep cid = true ↔
  ∃ e, e ∈ es ∧ Types.to e = cid ∧ Types.from e ∈ keep.
Proof.
  pose proof (dependents_of_ok es) as Hok. unfold isDependency.
  destruct (dependents_of es !! cid) as [deps|] eqn:Hm.
  - rewrite existsb_exists. split.
    + intros (a & Ha%list_elem_of_In & Hk%set_has_true).
      destruct (proj1 (Hok cid a)) as (e & ? & ? & ?); [by eauto |].
      exists e. by subst.
    + intros (e & He & Hto & Hfrom).
      destruct (proj2 (Hok cid (Types.from e))) as (deps' & Hm' & Ha); [by eauto |].
      simplify_eq. exists (Types.from e).
      split; [by apply list_elem_of_In | by apply set_has_true].
  - split; [done |]. intros (e & He & Hto & Hfrom).
    destruct (proj2 (Hok cid (Types.from e))) as (deps' & Hm' & Ha); [by eauto |].
    congruence.
Qed.



(** ** The penalty search *)

Arguments search : simpl never.
Arguments buildClosure : simpl never.
Arguments enforceSizeLimit : simpl never.
Arguments search_final : simpl never.

Lemma search_eq g k n low high best :
  search g k (S n) low high best =
  (candidate ← buildClosure g (nhalf (nadd low high));
   let best' := if better best candidate k then Some candidate else best in
   if (k <? Z.of_nat (Types.size candidate))%Z
   then search g k n (nhalf (nadd low high)) high best'
   else search g k n low (nhalf (nadd low high)) best').
Proof. done. Qed.

Lemma search_0 g k low high best : search g k 0 low high best = Some best.
Proof. done. Qed.

Opaque search buildClosure enforceSizeLimit.

Lemma search_total g k n :
  ∀ low high best, ∃ r, search g k n low high best = Some r.
Proof.
  induction n as [|n IH]; intros low high best;
    [rewrite search_0; by eexists |].
  rewrite search_eq.
  destruct (buildClosure_total g (nhalf (nadd low high))) as [c ->]. simpl.
  destruct (k <? Z.of_nat (Types.size c))%Z; apply IH.
Qed.

(** The search returns one of its candidates. *)
Lemma search_inv g k (P : ClosureSolution → Prop) n :
  (∀ p sol, buildClosure g p = Some sol → P sol) →
  ∀ low high best r,
    (∀ b, best = Some b → P b) →
    search g k n low high best = Some r → ∀ b, r = Some b → P b.
Proof.
  intros HP. induction n as [|n IH]; intros low high best r Hbest H.
  - rewrite search_0 in H. injection H as <-. done.
  - rewrite search_eq in H.
    destruct (buildClosure g (nhalf (nadd low high))) as [c|] eqn:Hc; simpl in H;
      [| done].
    assert (Hb' : ∀ b, (if better best c k then Some c else best) = Some b → P b).
    { intros b Hb. destruct (better best c k); [| by apply Hbest].
      injection Hb as <-. by eapply HP. }
    destruct (k <? Z.of_nat (Types.size c))%Z; by eapply IH.
Qed.

Lemma search_from_spec n g k :
  values g ≠ [] →
  ∃ final p, search_from n g k = Some final ∧ buildClosure g p = Some final.
Proof.
  intros Hne. unfold search_from.
  destruct (values g) as [|c l] eqn:E; [done |].
  cbn [fmap list_fmap min_list max_list mbind option_bind].
  set (low := nsub _ 5). set (high := nadd _ 5).
  destruct (search_total g k n low high None) as [r Hr]. rewrite Hr. simpl.
  destruct r as [b|].
  - exists b.
    assert (Hcand : ∀ p sol, buildClosure g p = Some sol →
                             ∃ p', buildClosure g p' = Some sol) by eauto.
    assert (Hnone : ∀ b' : ClosureSolution, None = Some b' →
                             ∃ p', buildClosure g p' = Some b') by done.
    destruct (search_inv g k (λ sol, ∃ p, buildClosure g p = Some sol) n
                Hcand low high None (Some b) Hnone Hr b eq_refl)
      as [p Hp].
    by exists p.
  - destruct (buildClosure_total g 0) as [sol Hsol].
    exists sol, 0. by split.
Qed.

Lemma search_final_spec g k :
  values g ≠ [] →
  ∃ final p, search_final g k = Some final ∧ buildClosure g p = Some final.
Proof. apply search_from_spec. Qed.

Opaque search_final.

Lemma solve_cases g k :
  ((k <= 0)%Z ∨ values g = []) ∧
    solveClosureBySize g k = Some (Types.mkSolution [] 0 0 None)
  ∨ (0 < k)%Z ∧ values g ≠ [] ∧ (Z.of_nat (length (values g)) <= k)%Z ∧
    solveClosureBySize g k = maximumWeightClosure g
  ∨ (0 < k)%Z ∧ (k < Z.of_nat (length (values g)))%Z ∧
    ∃ final p,
      search_final g k = Some final ∧ buildClosure g p = Some final ∧
      solveClosureBySize g k =
      Some (Types.mkSolution (enforceSizeLimit g (Types.closure final) k)
              (total_of g (enforceSizeLimit g (Types.closure final) k))
              (length (enforceSizeLimit g (Types.closure final) k))
              (Types.penalty final)).
Proof.
  unfold solveClosureBySize.
  destruct (k <=? 0)%Z eqn:Hk.
  { left. split; [left; by apply Z.leb_le | done]. }
  apply Z.leb_gt in Hk. simpl.
  case_bool_decide as Hn.
  { left. split; [right; by apply nil_length_inv | done]. }
  assert (Hne : values g ≠ []) by (intros E; by rewrite E in Hn).
  destruct (Z.of_nat (length (values g)) <=? k)%Z eqn:Hkn.
  { right; left. apply Z.leb_le in Hkn. done. }
  apply Z.leb_gt in Hkn. right; right.
  destruct (search_final_spec g k Hne) as (final & p & Hf & Hb).
  split; [done |]. split; [done |]. exists final, p. rewrite Hf. done.
Qed.

(** [solveClosureBySize] always returns. *)
Lemma solve_total g k : ∃ sol, solveClosureBySize g k = Some sol.
Proof.
  destruct (solve_cases g k) as [[_ ->] | [(_ & _ & _ & ->) | (_ & _ & final & p & _ & _ & ->)]];
    eauto.
  apply buildClosure_total.
Qed.

(** *** Well-formed graphs *)

Lemma wf_ids_keys g : wf_graph g → ids g = keys g.
Proof.
  intros [_ Hid]. unfold ids, keys, values.
  induction Hid as [|[k c] l Hk _ IH]; [done |].
  rewrite !fmap_cons. simpl in *. by rewrite Hk, IH.
Qed.

Lemma wf_ids_NoDup g : wf_graph g → NoDup (ids g).
Proof. intros H. rewrite wf_ids_keys by done. apply H. Qed.

Transparent search buildClosure enforceSizeLimit search_final.

(** ** Dependencies on ids that are not chunks *)

Lemma add_dep_edges_dangling chunks INF pre d post :
  findIndex chunks (Types.from d) = None ∨ findIndex chunks (Types.to d) = None →
  ∀ adj, add_dep_edges chunks INF (pre ++ d :: post) adj
         = add_dep_edges chunks INF (pre ++ post) adj.
Proof.
  intros Hd. induction pre as [|e pre IH]; intros adj.
  - cbn [app add_dep_edges].
    assert (match findIndex chunks (Types.from d), findIndex chunks (Types.to d) with
            | Some fromIdx, Some toIdx =>
                addEdge (fromIdx + offset) (toIdx + offset) INF adj
            | _, _ => Some adj
            end = Some adj) as ->; [| done].
    destruct Hd as [-> | ->]; [done |]. by destruct (findIndex chunks (Types.from d)).
  - cbn [app add_dep_edges].
    destruct (match findIndex chunks (Types.from e), findIndex chunks (Types.to e) with
              | Some fromIdx, Some toIdx =>
                  addEdge (fromIdx + offset) (toIdx + offset) INF adj
              | _, _ => Some adj
              end) as [adj'|]; [| done].
    simpl. apply IH.
Qed.

Section Dangling.
Context (g : Graph) (pre post : list Edge) (d : Edge).
Context (Hedges : Types.edges g = pre ++ d :: post).
Context (Hd : Types.from d ∉ ids g ∨ Types.to d ∉ ids g).

Lemma dangling_buildClosure p :
  buildClosure g p = buildClosure (Types.mkGraph (Types.chunks g) (pre ++ post)) p.
Proof.
  assert (Hnet : network g p
                 = network (Types.mkGraph (Types.chunks g) (pre ++ post)) p).
  { unfold network. change (values (Types.mkGraph _ _)) with (values g).
    destruct (add_chunk_edges p 0 (values g) _) as [adj1|]; [| done].
    cbn [mbind option_bind Types.edges]. rewrite Hedges.
    apply add_dep_edges_dangling.
    destruct Hd as [H | H]; [left | right]; by apply findIndex_None. }
  unfold buildClosure. change (values (Types.mkGraph _ _)) with (values g).
  by rewrite Hnet.
Qed.

Lemma dangling_search k n :
  ∀ low high best,
    search g k n low high best
    = search (Types.mkGraph (Types.chunks g) (pre ++ post)) k n low high best.
Proof.
  induction n as [|n IH]; intros low high best; [done |].
  rewrite !search_eq, <- dangling_buildClosure.
  destruct (buildClosure g (nhalf (nadd low high))) as [c|]; [| done]. simpl.
  destruct (k <? Z.of_nat (Types.size c))%Z; apply IH.
Qed.

Lemma dangling_search_from n k :
  search_from n g k
  = search_from n (Types.mkGraph (Types.chunks g) (pre ++ post)) k.
Proof.
  unfold search_from, maximumWeightClosure.
  change (values (Types.mkGraph _ _)) with (values g).
  destruct (min_list _) as [minW|]; [| done].
  destruct (max_list _) as [maxW|]; [| done].
  cbn [mbind option_bind]. by rewrite <- dangling_search, <- dangling_buildClosure.
Qed.

Lemma dangling_isDependency keep cid :
  keep ⊆ ids g → cid ∈ ids g →
  isDependency (dependents_of (pre ++ d :: post)) keep cid
  = isDependency (dependents_of (pre ++ post)) keep cid.
Proof.
  intros Hkeep Hcid.
  destruct (isDependency (dependents_of (pre ++ post)) keep cid) eqn:H2.
  - apply isDependency_spec in H2 as (e & He & Hto & Hfrom).
    apply isDependency_spec. exists e. split; [| done].
    apply elem_of_app in He as [He | He]; apply elem_of_app; [by left |].
    right. by right.
  - apply not_true_iff_false. intros (e & He & Hto & Hfrom)%isDependency_spec.
    apply not_true_iff_false in H2. apply H2, isDependency_spec.
    exists e. split; [| done].
    apply elem_of_app in He as [He | [-> | He]%elem_of_cons]; apply elem_of_app;
      [by left | | by right].
    exfalso. destruct Hd as [Hf | Ht]; [by apply Hf, Hkeep | apply Ht; by rewrite Hto].
Qed.

Lemma dangling_trim k removable :
  ∀ keep, keep ⊆ ids g → removable ⊆ ids g →
    trim (dependents_of (pre ++ d :: post)) k removable keep
    = trim (dependents_of (pre ++ post)) k removable keep.
Proof.
  induction removable as [|cid rest IH]; intros keep Hkeep Hrem; [done |].
  cbn [trim]. destruct (Z.of_nat (length keep) <=? k)%Z; [done |].
  assert (Hcid : cid ∈ ids g) by (apply Hrem; by left).
  assert (Hrest : rest ⊆ ids g) by (intros x Hx; apply Hrem; by right).
  rewrite dangling_isDependency by done.
  destruct (isDependency _ keep cid); apply IH; try done.
  intros x Hx. apply Hkeep. by apply set_delete_elem in Hx as [_ Hx].
Qed.

Lemma dangling_enforce l k :
  l ⊆ ids g →
  enforceSizeLimit g l k
  = enforceSizeLimit (Types.mkGraph (Types.chunks g) (pre ++ post)) l k.
Proof.
  intros Hl.
  assert (Ht : trimmed g l k
               = trimmed (Types.mkGraph (Types.chunks g) (pre ++ post)) l k).
  { unfold trimmed. cbn [Types.edges]. rewrite Hedges.
    change (weights_of (Types.mkGraph _ _) l) with (weights_of g l).
    apply dangling_trim.
    - intros x Hx. by apply Hl, set_of_elem.
    - intros x Hx. apply Hl. by rewrite js_sort_perm in Hx. }
  unfold enforceSizeLimit. rewrite <- Ht.
  by change (weights_of (Types.mkGraph _ _) l) with (weights_of g l).
Qed.

Lemma dangling_search_final k :
  search_final g k
  = search_final (Types.mkGraph (Types.chunks g) (pre ++ post)) k.
Proof. unfold search_final. apply dangling_search_from. Qed.

Opaque search buildClosure enforceSizeLimit search_final.

Lemma dangling_solve k :
  solveClosureBySize g k
  = solveClosureBySize (Types.mkGraph (Types.chunks g) (pre ++ post)) k.
Proof.
  pose proof (dangling_search_final k) as Hsf.
  assert (Hmax : maximumWeightClosure g
           = maximumWeightClosure (Types.mkGraph (Types.chunks g) (pre ++ post)))
    by apply dangling_buildClosure.
  destruct (solve_cases g k)
    as [[H0 H] | [(Hk & Hne & Hn & H) | (Hk & Hn & final & p & Hf & Hb & H)]];
    rewrite H; unfold solveClosureBySize;
    change (values (Types.mkGraph _ _)) with (values g).
  - destruct H0 as [H0 | H0].
    + rewrite (proj2 (Z.leb_le k 0)) by done. reflexivity.
    + rewrite H0. cbn [length]. rewrite (bool_decide_eq_true_2 (0%nat = 0%nat)) by done.
      rewrite orb_true_r. reflexivity.
  - assert (Hlen : length (values g) ≠ 0%nat)
      by (intros E; apply Hne; by apply nil_length_inv).
    rewrite (proj2 (Z.leb_gt k 0)) by done.
    rewrite (bool_decide_eq_false_2 (length (values g) = 0%nat)) by done.
    rewrite (proj2 (Z.leb_le (Z.of_nat (length (values g))) k)) by done.
    exact Hmax.
  - assert (Hlen : length (values g) ≠ 0%nat) by lia.
    rewrite (proj2 (Z.leb_gt k 0)) by done.
    rewrite (bool_decide_eq_false_2 (length (values g) = 0%nat)) by done.
    rewrite (proj2 (Z.leb_gt (Z.of_nat (length (values g))) k)) by done.
    rewrite <- Hsf, Hf. cbn [mbind option_bind orb].
    rewrite <- dangling_enforce; [reflexivity |].
    apply sublist_subseteq, (b_sub _ _ (buildClosure_built _ _ _ Hb)).
Qed.

Transparent search buildClosure enforceSizeLimit search_final.
End Dangling.

(** ** A network without an open path *)

Lemma maxFlow_saturated (adj : Adj) s t level :
  bfs adj s = Some level → level_reached level t = false →
  maxFlow adj s t = Some (0, adj).
Proof.
  intros Hb Ht. unfold maxFlow, while_loop. rewrite loop_pos_nat.
  destruct (Pos2Nat.is_succ (flow_bound adj s)) as [n ->].
  cbn [loop_nat]. unfold phase_step. rewrite Hb. simpl. by rewrite Ht.
Qed.

Lemma gt_eps_proper a b : a == b → gt_eps a = gt_eps b.
Proof.
  intros E. destruct (gt_eps b) eqn:Hb.
  - apply gt_eps_true in Hb. apply gt_eps_true. lra.
  - apply gt_eps_false in Hb. apply gt_eps_false. lra.
Qed.

Section NoEdges.
Context (g : Graph) (p : Q) (adj0 : Adj) (F : Q) (adj : Adj) (reach : list bool).
Context (Hrun : closure_run g p adj0 F adj reach).
Context (Hnone : Types.edges g = []).

Lemma noedges_slots u i e :
  slot adj0 u i = Some e →
  (∃ idx c, values g !! idx = Some c ∧ Qle_bool 0 (profit_of p c) = true ∧
            ((u = source ∧ to e = (idx + offset)%nat ∧ cap e = profit_of p c)
             ∨ (u = (idx + offset)%nat ∧ to e = source ∧ cap e = 0)))
  ∨ (∃ idx c, values g !! idx = Some c ∧ Qle_bool 0 (profit_of p c) = false ∧
              ((u = (idx + offset)%nat ∧ to e = sink)
               ∨ (u = sink ∧ to e = (idx + offset)%nat ∧ cap e = 0))).
Proof.
  intros He. pose proof (run_slots _ _ _ _ _ _ Hrun u i e He) as Hs.
  rewrite Hnone in Hs.
  inversion Hs as [idx c Hc Hsg | idx c Hc Hsg | idx c Hc Hsg | idx c Hc Hsg
                  | d fi ti Hd | d fi ti Hd]; subst.
  - left. exists idx, c. split; [done |]. split; [done |]. left. done.
  - left. exists idx, c. split; [done |]. split; [done |]. right. done.
  - right. exists idx, c. split; [done |]. split; [done |]. left. done.
  - right. exists idx, c. split; [done |]. split; [done |]. right. done.
  - by apply elem_of_nil in Hd.
  - by apply elem_of_nil in Hd.
Qed.

(** Without dependencies no path leads from the source to the sink. *)
Lemma noedges_level level :
  bfs_post adj0 source level → level_reached level sink = false.
Proof.
  intros Hbp. apply not_true_iff_false.
  intros (ls & Hls & Hpos)%level_reached_true.
  destruct (bp_parent _ _ _ Hbp sink ls Hls Hpos)
    as [[=] | (u & k & e & lu & He & Hto & Hcap & Hu & Hlu & _)].
  destruct (noedges_slots _ _ _ He)
    as [(idx & c & Hc & Hsg & [(-> & Ht & _) | (-> & Ht & _)])
       | (idx & c & Hc & Hsg & [(-> & _) | (-> & Ht & _)])];
    try (rewrite Ht in Hto; unfold source, sink, offset in Hto; lia).
  destruct (bp_parent _ _ _ Hbp _ lu Hu Hlu)
    as [Heq | (u' & k' & e' & lu' & He' & Hto' & Hcap' & _)].
  { unfold source, offset in Heq. lia. }
  pose proof EPS_pos.
  destruct (noedges_slots _ _ _ He')
    as [(idx' & c' & Hc' & Hsg' & [(-> & Ht' & _) | (-> & Ht' & Hz)])
       | (idx' & c' & Hc' & Hsg' & [(-> & Ht') | (-> & Ht' & Hz)])].
  - rewrite Ht' in Hto'. assert (idx' = idx) by lia. subst. simplify_eq. congruence.
  - rewrite Hz in Hcap'. lra.
  - rewrite Ht' in Hto'. unfold sink, offset in Hto'. lia.
  - rewrite Hz in Hcap'. lra.
Qed.

Lemma noedges_maxFlow : F = 0 ∧ adj = adj0.
Proof.
  assert (Hs : (source < length adj0)%nat).
  { rewrite (run_length _ _ _ _ _ _ Hrun). unfold source, offset. lia. }
  destruct (bfs_total adj0 source (run_wf _ _ _ _ _ _ Hrun) Hs) as (level & Hb & Hbp).
  pose proof (maxFlow_saturated adj0 source sink level Hb (noedges_level level Hbp)) as H.
  rewrite (run_maxFlow _ _ _ _ _ _ Hrun) in H. by injection H.
Qed.

(** Without dependencies a chunk is reached exactly when its profit
    exceeds [1e-9]. *)
Lemma noedges_reach i c :
  values g !! i = Some c →
  seen_at reach (i + offset) = gt_eps (profit_of p c).
Proof.
  intros Hc. destruct noedges_maxFlow as [_ Hadj].
  pose proof (run_reach _ _ _ _ _ _ Hrun) as Hrp. rewrite Hadj in Hrp.
  pose proof EPS_pos as Heps.
  destruct (gt_eps (profit_of p c)) eqn:Hgt.
  - apply gt_eps_true in Hgt.
    destruct (run_srcs _ _ _ _ _ _ Hrun i c) as (k & e & He & Hto & Hcap).
    + by eapply lookup_lt_Some.
    + done.
    + apply Qle_bool_iff. lra.
    + rewrite <- Hto. eapply (rp_closed _ _ _ Hrp); [exact He | | apply Hrp].
      by rewrite Hcap.
  - apply gt_eps_false in Hgt. apply not_true_iff_false. intros Hseen.
    assert (HY : (i + offset)%nat = source ∨
                 ∃ j c', values g !! j = Some c' ∧ (i + offset)%nat = (j + offset)%nat
                         ∧ EPS < profit_of p c').
    { apply (rp_sound _ _ _ Hrp
               (λ u, u = source ∨
                     ∃ j c', values g !! j = Some c' ∧ u = (j + offset)%nat
                             ∧ EPS < profit_of p c')); [by left | | done].
      intros u k e He Hcap [-> | (j & c' & Hc' & -> & Hp')].
      - destruct (noedges_slots _ _ _ He)
          as [(idx & c' & Hc' & Hsg & [(_ & Ht & Hcp) | (Hu & _)])
             | (idx & c' & Hc' & Hsg & [(Hu & _) | (Hu & _)])].
        + right. exists idx, c'. rewrite <- Hcp. done.
        + unfold source, offset in Hu. lia.
        + unfold source, offset in Hu. lia.
        + unfold source, sink in Hu. lia.
      - destruct (noedges_slots _ _ _ He)
          as [(idx & c'' & Hc'' & Hsg & [(Hu & _) | (Hu & Ht & Hz)])
             | (idx & c'' & Hc'' & Hsg & [(Hu & _) | (Hu & _)])].
        + unfold source, offset in Hu. lia.
        + rewrite Hz in Hcap. lra.
        + assert (idx = j) by lia. subst. simplify_eq.
          apply Qle_bool_false in Hsg. lra.
        + unfold sink, offset in Hu. lia. }
    destruct HY as [Heq | (j & c' & Hc' & Heq & Hp')].
    + unfold source, offset in Heq. lia.
    + assert (j = i) by lia. subst. simplify_eq. lra.
Qed.
End NoEdges.

(** ** The built closure is the least closure of maximum profit *)

Lemma is_int_grid : closed_grid is_int.
Proof.
  split.
  - intros a b E [z Hz]. exists z. by rewrite <- E.
  - by exists 0%Z.
  - intros a b [x Hx] [y Hy]. exists (x + y)%Z. rewrite inject_Z_plus, Hx, Hy. done.
  - intros a b [x Hx] [y Hy]. exists (x - y)%Z.
    unfold Z.sub. rewrite inject_Z_plus, inject_Z_opp, Hx, Hy. done.
Qed.

Lemma is_int_opp a : is_int a → is_int (- a).
Proof. intros [z Hz]. exists (- z)%Z. by rewrite inject_Z_opp, Hz. Qed.

Lemma is_int_abs a : is_int a → is_int (Qabs a).
Proof.
  intros Ha. destruct (Qlt_le_dec a 0) as [Hneg | Hpos].
  - eapply (grid_eq _ is_int_grid); [| by apply is_int_opp].
    symmetry. apply Qabs_neg. lra.
  - eapply (grid_eq _ is_int_grid); [| exact Ha].
    symmetry. by apply Qabs_pos.
Qed.

(** A non-negative integer no larger than [1e-9] is zero. *)
Lemma is_int_small c : is_int c → 0 <= c → c <= EPS → c == 0.
Proof.
  intros [z Hz] H0 H1. rewrite Hz in *.
  assert (Hz0 : (0 <= z)%Z) by (rewrite Zle_Qle; exact H0).
  assert (Hz1 : (z < 1)%Z).
  { rewrite Zlt_Qlt. unfold EPS in H1. change (inject_Z 1) with 1. lra. }
  assert (z = 0)%Z as -> by lia. done.
Qed.

Lemma is_int_abs_sum p ws :
  is_int p → Forall is_int ws → is_int (abs_sum p ws).
Proof.
  intros Hp Hws. induction Hws as [|w ws Hw _ IH]; cbn [abs_sum].
  - apply is_int_grid.
  - apply (grid_add _ is_int_grid); [| done].
    apply is_int_abs. by apply (grid_sub _ is_int_grid).
Qed.

(** *** Cuts of zero capacity *)

Lemma row_cut_zero X es :
  (∀ e, e ∈ es → X (to e) = false → cap e == 0) → row_cut X es == 0.
Proof.
  induction es as [|e es IH]; intros H; cbn [row_cut foldr]; [lra |].
  fold (row_cut X es). rewrite IH by (intros; apply H; [by right | done]).
  unfold crossing. destruct (X (to e)) eqn:E; [lra |].
  rewrite (H e); [lra | by left | done].
Qed.

Lemma cut_from_zero X b (adj : Adj) :
  (∀ u es e, adj !! u = Some es → e ∈ es → X (b + u)%nat = true →
             X (to e) = false → cap e == 0) →
  cut_from X b adj == 0.
Proof.
  revert b. induction adj as [|es adj IH]; intros b H; cbn [cut_from]; [lra |].
  rewrite IH.
  - destruct (X b) eqn:E; [| lra].
    rewrite row_cut_zero; [lra |]. intros e He Hx.
    apply (H 0%nat es e); [done | done | by rewrite Nat.add_0_r | done].
  - intros u es' e Hu He Hx. apply (H (S u) es' e); [done | done |].
    by replace (b + S u)%nat with (S b + u)%nat by lia.
Qed.

Lemma rescut_zero X (adj : Adj) :
  (∀ u i e, slot adj u i = Some e → X u = true → X (to e) = false → cap e == 0) →
  rescut X adj == 0.
Proof.
  intros H. apply cut_from_zero. intros u es e Hu [i Hi]%list_elem_of_lookup Hx Hto.
  apply (H u i e); [| done | done]. apply slot_Some. eauto.
Qed.

(** *** Cut capacity and profit *)

Lemma chunk_cut_profit X p idx chunks :
  X source = true → X sink = false →
  chunk_cut X p idx chunks == pos_sum p chunks - profit_sum X p idx chunks.
Proof.
  intros Hs Ht. revert idx.
  induction chunks as [|c chunks IH]; intros idx;
    cbn [chunk_cut pos_sum profit_sum]; [lra |].
  rewrite IH, Hs, Ht. pose proof (nneg_eq (profit_of p c)).
  destruct (Qle_bool 0 (profit_of p c)), (X (idx + offset)%nat); cbn [andb negb]; lra.
Qed.

Lemma dep_cut_closed g X INF :
  closed_cut g X → dep_cut X (values g) INF (Types.edges g) == 0.
Proof.
  intros [_ _ Hdeps].
  assert (H : ∀ deps, (∀ d, d ∈ deps → d ∈ Types.edges g) →
                      dep_cut X (values g) INF deps == 0).
  { induction deps as [|d deps IH]; intros Hsub; cbn [dep_cut]; [lra |].
    rewrite IH by (intros; apply Hsub; by right).
    destruct (findIndex (values g) (Types.from d)) as [fi|] eqn:Hfi; [| lra].
    destruct (findIndex (values g) (Types.to d)) as [ti|] eqn:Hti; [| lra].
    destruct (X (fi + offset)%nat) eqn:Hx; [| cbn [andb]; lra].
    rewrite (Hdeps d fi ti) by (try done; apply Hsub; by left).
    cbn [andb negb]. lra. }
  by apply H.
Qed.

Lemma profit_sum_only p idx chunks : profit_sum (only source) p idx chunks == 0.
Proof.
  revert idx. induction chunks as [|c chunks IH]; intros idx; cbn [profit_sum]; [lra |].
  rewrite IH.
  assert (only source (idx + offset) = false) as ->
    by (unfold only, source, offset; apply bool_decide_eq_false_2; lia).
  lra.
Qed.

Lemma closed_cut_only g : closed_cut g (only source).
Proof.
  split; [done | done |]. intros d fi ti _ _ _ H.
  unfold only, source, offset in H. apply bool_decide_eq_true in H. lia.
Qed.

Section Optimal.
Context (g : Graph) (p : Q) (adj0 : Adj) (F : Q) (adj : Adj) (reach : list bool).
Context (Hrun : closure_run g p adj0 F adj reach).
Context (Hint : int_weights g) (Hp : is_int p).

Lemma run_int0 : on_grid is_int adj0.
Proof.
  intros u i e He.
  assert (Hpr : ∀ idx c, values g !! idx = Some c → is_int (profit_of p c)).
  { intros idx c Hc. unfold profit_of.
    eapply (grid_eq _ is_int_grid); [symmetry; apply nsub_eq |].
    apply (grid_sub _ is_int_grid); [| done].
    exact (Forall_lookup_1 _ _ _ _ Hint Hc). }
  assert (HINF : is_int (INF_of (weight_or0 <$> values g) p)).
  { eapply (grid_eq _ is_int_grid); [symmetry; apply INF_of_eq |].
    apply (grid_add _ is_int_grid); [| by exists 1%Z].
    apply is_int_abs_sum; [done |]. by apply Forall_fmap. }
  destruct (run_slots _ _ _ _ _ _ Hrun u i e He)
    as [idx c Hc | | idx c Hc | | |];
    try apply is_int_grid; try done; try by eapply Hpr.
  eapply (grid_eq _ is_int_grid); [symmetry; apply nneg_eq |].
  apply is_int_opp. by eapply Hpr.
Qed.

Lemma run_int : on_grid is_int adj.
Proof.
  by apply (fi_grid _ _ _ _ _ (run_flow _ _ _ _ _ _ Hrun) is_int is_int_grid run_int0).
Qed.

Lemma run_closed_cut : closed_cut g (seen_at reach).
Proof.
  split.
  - apply (run_reach _ _ _ _ _ _ Hrun).
  - by eapply run_sink_unseen.
  - intros d fi ti. by eapply run_closed_idx.
Qed.

(** The capacity of a closed cut in terms of profit. *)
Lemma run_cut_profit X :
  closed_cut g X →
  rescut X adj0 == pos_sum p (values g) - profit_sum X p 0 (values g).
Proof.
  intros Hc. rewrite (run_cut _ _ _ _ _ _ Hrun), dep_cut_closed by done.
  rewrite chunk_cut_profit by apply Hc. lra.
Qed.

(** No residual capacity leaves the reached set. *)
Lemma run_reach_cut : rescut (seen_at reach) adj == 0.
Proof.
  apply rescut_zero. intros u i e He Hu Hto.
  apply is_int_small.
  - by eapply run_int.
  - by eapply (fi_nonneg _ _ _ _ _ (run_flow _ _ _ _ _ _ Hrun)).
  - apply Qnot_lt_le. intros Hcap.
    pose proof (rp_closed _ _ _ (run_reach _ _ _ _ _ _ Hrun) u i e He Hcap Hu).
    congruence.
Qed.

Lemma run_flow_profit :
  F == pos_sum p (values g) - profit_sum (seen_at reach) p 0 (values g).
Proof.
  pose proof (fi_cut _ _ _ _ _ (run_flow _ _ _ _ _ _ Hrun) (seen_at reach)
                (cc_sink _ _ run_closed_cut)) as Hc.
  rewrite (cc_source _ _ run_closed_cut), run_reach_cut in Hc.
  rewrite (run_cut_profit _ run_closed_cut) in Hc. lra.
Qed.

(** The reached set has the largest profit among the closed cuts. *)
Lemma run_optimal X :
  closed_cut g X →
  profit_sum X p 0 (values g) <= profit_sum (seen_at reach) p 0 (values g).
Proof.
  intros Hc.
  pose proof (fi_cut _ _ _ _ _ (run_flow _ _ _ _ _ _ Hrun) X (cc_sink _ _ Hc)) as Hcut.
  rewrite (cc_source _ _ Hc), (run_cut_profit X Hc) in Hcut.
  pose proof (rescut_nonneg X adj (fi_nonneg _ _ _ _ _ (run_flow _ _ _ _ _ _ Hrun))).
  pose proof run_flow_profit. lra.
Qed.

(** The reached set lies inside every closed cut of the same profit. *)
Lemma run_least X :
  closed_cut g X →
  profit_sum (seen_at reach) p 0 (values g) <= profit_sum X p 0 (values g) →
  ∀ u, seen_at reach u = true → X u = true.
Proof.
  intros Hc Hprofit.
  pose proof (fi_cut _ _ _ _ _ (run_flow _ _ _ _ _ _ Hrun) X (cc_sink _ _ Hc)) as Hcut.
  rewrite (cc_source _ _ Hc), (run_cut_profit X Hc) in Hcut.
  pose proof (fi_nonneg _ _ _ _ _ (run_flow _ _ _ _ _ _ Hrun)) as Hn.
  pose proof (rescut_nonneg X adj Hn).
  pose proof run_flow_profit.
  apply (rp_sound _ _ _ (run_reach _ _ _ _ _ _ Hrun) (λ u, X u = true));
    [apply Hc |].
  intros u k e He Hcap Hu.
  destruct (X (to e)) eqn:Hx; [done | exfalso].
  pose proof (rescut_edge X adj u k e Hn He Hu Hx). pose proof EPS_pos. lra.
Qed.
End Optimal.

(** ** Weights of the collected ids *)

Lemma lookup_weight_id g c :
  wf_graph g → c ∈ values g → lookup_weight g (Types.id c) = weight_or0 c.
Proof.
  intros [Hnd Hid] Hc. unfold lookup_weight, values in *.
  apply list_elem_of_fmap in Hc as ([k c'] & -> & Hkc). simpl.
  assert (Hk : Types.id c' = k).
  { rewrite Forall_forall in Hid. exact (Hid _ Hkc). }
  destruct (list_find_elem_of (λ kc : string * Chunk, kc.1 = Types.id c')
              (Types.chunks g) (k, c') Hkc) as [[i [k2 c2]] Hf]; [done |].
  rewrite Hf. apply list_find_Some in Hf as (Hi & Hk2 & _). simpl in Hk2.
  apply list_elem_of_lookup in Hkc as [j Hj].
  assert (i = j) as ->.
  { eapply NoDup_lookup; [exact Hnd | |].
    - rewrite list_lookup_fmap, Hi. done.
    - rewrite list_lookup_fmap, Hj. simpl. congruence. }
  by simplify_eq.
Qed.

Lemma total_of_collect g reach :
  wf_graph g →
  total_of g (collect reach 0 (values g))
  == profit_sum (seen_at reach) 0 0 (values g).
Proof.
  intros Hwf. unfold total_of.
  assert (H : ∀ rest idx a, (∀ c, c ∈ rest → c ∈ values g) →
    foldl (λ acc i, nadd acc (lookup_weight g i)) a (collect reach idx rest)
    == a + profit_sum (seen_at reach) 0 idx rest).
  { induction rest as [|c rest IH]; intros idx a Hsub; cbn [collect profit_sum foldl].
    - lra.
    - assert (Hrest : ∀ c', c' ∈ rest → c' ∈ values g)
        by (intros; apply Hsub; by right).
      destruct (seen_at reach (idx + offset)).
      + cbn [foldl]. rewrite IH by done.
        rewrite nadd_eq, lookup_weight_id by (try done; apply Hsub; by left).
        unfold profit_of. rewrite nsub_eq. lra.
      + rewrite IH by done. lra. }
  rewrite H by done. lra.
Qed.

(** *** Profit of unions and differences *)

Lemma profit_sum_split (A B : nat → bool) p idx chunks :
  profit_sum B p idx chunks
  == profit_sum (λ u, A u && B u) p idx chunks
     + profit_sum (λ u, B u && negb (A u)) p idx chunks.
Proof.
  revert idx. induction chunks as [|c chunks IH]; intros idx; cbn [profit_sum]; [lra |].
  rewrite (IH (S idx)).
  destruct (A (idx + offset)%nat), (B (idx + offset)%nat); cbn [andb negb]; lra.
Qed.

Lemma profit_sum_union (A B : nat → bool) p idx chunks :
  profit_sum (λ u, A u || B u) p idx chunks
  == profit_sum A p idx chunks
     + profit_sum (λ u, B u && negb (A u)) p idx chunks.
Proof.
  revert idx. induction chunks as [|c chunks IH]; intros idx; cbn [profit_sum]; [lra |].
  rewrite (IH (S idx)).
  destruct (A (idx + offset)%nat), (B (idx + offset)%nat); cbn [andb orb negb]; lra.
Qed.

Lemma profit_sum_mono X p1 p2 idx chunks :
  p1 <= p2 → profit_sum X p2 idx chunks <= profit_sum X p1 idx chunks.
Proof.
  intros Hp. revert idx.
  induction chunks as [|c chunks IH]; intros idx; cbn [profit_sum]; [lra |].
  specialize (IH (S idx)). unfold profit_of.
  pose proof (nsub_eq (weight_or0 c) p1). pose proof (nsub_eq (weight_or0 c) p2).
  destruct (X (idx + offset)%nat); lra.
Qed.

Lemma closed_cut_and g A B :
  closed_cut g A → closed_cut g B → closed_cut g (λ u, A u && B u).
Proof.
  intros [As At Ad] [Bs Bt Bd]. split.
  - by rewrite As, Bs.
  - by rewrite At.
  - intros d fi ti Hd Hfi Hti [Ha Hb]%andb_true_iff.
    by rewrite (Ad d fi ti), (Bd d fi ti).
Qed.

Lemma closed_cut_or g A B :
  closed_cut g A → closed_cut g B → closed_cut g (λ u, A u || B u).
Proof.
  intros [As At Ad] [Bs Bt Bd]. split.
  - by rewrite As.
  - by rewrite At, Bt.
  - intros d fi ti Hd Hfi Hti [Ha | Hb]%orb_true_iff.
    + by rewrite (Ad d fi ti).
    + rewrite (Bd d fi ti) by done. apply orb_true_r.
Qed.

Lemma collect_mono r1 r2 idx chunks :
  (∀ u, seen_at r2 u = true → seen_at r1 u = true) →
  sublist (collect r2 idx chunks) (collect r1 idx chunks).
Proof.
  intros H. revert idx. induction chunks as [|c chunks IH]; intros idx;
    cbn [collect]; [done |].
  destruct (seen_at r2 (idx + offset)) eqn:E2.
  - rewrite (H _ E2). by apply sublist_skip.
  - destruct (seen_at r1 (idx + offset)); [by apply sublist_cons | done].
Qed.

(** Raising an integer penalty on integer weights shrinks the reached
    set. *)
Lemma run_monotone g p1 p2 a1 F1 b1 r1 a2 F2 b2 r2 :
  int_weights g → is_int p1 → is_int p2 → p1 <= p2 →
  closure_run g p1 a1 F1 b1 r1 → closure_run g p2 a2 F2 b2 r2 →
  ∀ u, seen_at r2 u = true → seen_at r1 u = true.
Proof.
  intros Hint Hp1 Hp2 Hle Hrun1 Hrun2.
  pose proof (run_closed_cut _ _ _ _ _ _ Hrun1) as Hc1.
  pose proof (run_closed_cut _ _ _ _ _ _ Hrun2) as Hc2.
  pose proof (run_optimal _ _ _ _ _ _ Hrun1 Hint Hp1 _ (closed_cut_or _ _ _ Hc1 Hc2))
    as Hopt.
  rewrite profit_sum_union in Hopt.
  pose proof (profit_sum_mono (λ u, seen_at r2 u && negb (seen_at r1 u))
                p1 p2 0 (values g) Hle) as Hmono.
  pose proof (profit_sum_split (seen_at r1) (seen_at r2) p2 0 (values g)) as Hsplit.
  intros u Hu.
  assert (Hy : seen_at r1 u && seen_at r2 u = true).
  { apply (run_least _ _ _ _ _ _ Hrun2 Hint Hp2 _ (closed_cut_and _ _ _ Hc1 Hc2));
      [lra | done]. }
  by apply andb_true_iff in Hy as [? _].
Qed.

(** * The testable properties of the specification *)

Lemma wf_graph_pull : wf_graph graph_pull.
Proof. split; [compute_done | by repeat constructor]. Defined.

Lemma wf_graph_chain : wf_graph graph_chain.
Proof. split; [compute_done | by repeat constructor]. Defined.

Lemma wf_graph_dangling : wf_graph graph_dangling.
Proof. split; [compute_done | by repeat constructor]. Defined.





(** C2 (as amended).  For [k > 0] the result has at most [k] members;
    for [k] at least the number of chunks of a graph that has chunks,
    it is the result of [maximumWeightClosure]; on a graph without
    chunks the two results agree on closure, total weight and size, but
    only [maximumWeightClosure] reports a penalty. *)
Theorem size_bound g k :
  ((0 < k)%Z →
     ∃ sol, solveClosureBySize g k = Some sol ∧ (Z.of_nat (Types.size sol) <= k)%Z) ∧
  ((Z.of_nat (length (Types.chunks g)) <= k)%Z → Types.chunks g ≠ [] →
     solveClosureBySize g k = maximumWeightClosure g) ∧
  (Types.chunks g = [] →
     solveClosureBySize g k = Some (Types.mkSolution [] 0 0 None) ∧
     maximumWeightClosure g = Some (Types.mkSolution [] 0 0 (Some 0))).
Proof.
  assert (Hlen : length (values g) = length (Types.chunks g))
    by (unfold values; by rewrite length_fmap).
  split; [| split].
  - intros Hk.
    destruct (solve_cases g k)
      as [[[Hk0 | Hnil] ->] | [(_ & _ & Hn & ->) | (_ & Hn & final & p & Hf & Hb & ->)]].
    + lia.
    + eexists. split; [done |]. simpl. lia.
    + destruct (buildClosure_total g 0) as [sol Hsol]. exists sol.
      split; [done |].
      pose proof (buildClosure_built _ _ _ Hsol) as [Hsub Hsize _ _].
      apply sublist_length in Hsub. unfold ids in Hsub.
      rewrite length_fmap in Hsub. lia.
    + eexists. split; [done |]. simpl. apply enforce_length. lia.
  - intros Hn Hne.
    destruct (solve_cases g k)
      as [[[Hk0 | Hnil] _] | [(_ & _ & _ & ->) | (_ & Hn' & _)]]; [| | done | lia].
    + destruct (Types.chunks g); [done | simpl in Hn; lia].
    + apply (f_equal length) in Hnil. rewrite Hlen in Hnil.
      destruct (Types.chunks g); done.
  - intros Hnil.
    assert (Hv : values g = []) by (unfold values; by rewrite Hnil).
    split.
    + unfold solveClosureBySize. rewrite Hv. simpl.
      by rewrite orb_true_r.
    + by apply buildClosure_empty.
Qed.

(** C2 as stated fails on the graph without chunks: for [k = 1] the two
    entry points return different solutions. *)
Lemma size_bound_counterexample :
  (Z.of_nat (length (Types.chunks graph_empty)) <= 1)%Z ∧
  solveClosureBySize graph_empty 1 ≠ maximumWeightClosure graph_empty.
Proof. split; [done |]. vm_compute. discriminate. Qed.

Lemma size_bound_witness :
  (0 < 2)%Z ∧ (Z.of_nat (length (Types.chunks graph_pull)) <= 2)%Z ∧
  Types.chunks graph_pull ≠ [] ∧
  (∃ sol, solveClosureBySize graph_pull 2 = Some sol ∧
          (Z.of_nat (Types.size sol) <= 2)%Z) ∧
  solveClosureBySize graph_pull 2 = maximumWeightClosure graph_pull.
Proof.
  pose proof (size_bound graph_pull 2) as (H1 & H2 & _).
  assert (Hk : (0 < 2)%Z) by lia.
  assert (Hn : (Z.of_nat (length (Types.chunks graph_pull)) <= 2)%Z) by (simpl; lia).
  assert (Hne : Types.chunks graph_pull ≠ []) by done.
  exact (conj Hk (conj Hn (conj Hne (conj (H1 Hk) (H2 Hn Hne))))).
Defined.

(** C10.  The Size Enforcer only removes elements; on a well-formed
    graph every id of the closure that [solveClosureBySize] returns is a
    key of [graph.chunks] and occurs once. *)
Theorem closure_ids g k :
  (∀ ids, enforceSizeLimit g ids k ⊆ ids) ∧
  (wf_graph g →
   ∃ sol, solveClosureBySize g k = Some sol ∧
          (∀ x, x ∈ Types.closure sol → x ∈ keys g) ∧
          NoDup (Types.closure sol)).
Proof.
  split; [intros ids0; apply enforce_subseteq |].
  intros Hwf. pose proof (wf_ids_NoDup g Hwf) as Hnd.
  rewrite <- (wf_ids_keys g Hwf).
  assert (Hb : ∀ p sol, buildClosure g p = Some sol →
             (∀ x, x ∈ Types.closure sol → x ∈ ids g) ∧ NoDup (Types.closure sol)).
  { intros p sol Hsol. pose proof (buildClosure_built _ _ _ Hsol) as [Hsub _ _ _].
    split; [by apply sublist_subseteq | by eapply sublist_NoDup]. }
  destruct (solve_cases g k)
    as [[_ ->] | [(_ & _ & _ & ->) | (_ & _ & final & p & Hf & Hfb & ->)]].
  - eexists. split; [done |]. simpl. split; [| constructor].
    intros x Hx. by apply elem_of_nil in Hx.
  - destruct (buildClosure_total g 0) as [sol Hsol]. exists sol.
    split; [done |]. by eapply Hb.
  - eexists. split; [done |]. simpl.
    destruct (Hb p final Hfb) as [Hin Hnd'].
    split; [| by apply enforce_NoDup].
    intros x Hx. by apply Hin, (enforce_subseteq g _ k).
Qed.

Lemma closure_ids_witness :
  wf_graph graph_chain ∧
  ∃ sol, solveClosureBySize graph_chain 2 = Some sol ∧
         (∀ x, x ∈ Types.closure sol → x ∈ keys graph_chain) ∧
         NoDup (Types.closure sol).
Proof.
  split; [exact wf_graph_chain |].
  exact (proj2 (closure_ids graph_chain 2) wf_graph_chain).
Defined.


(** C7.  Both entry points return a solution on every graph, and on a
    well-formed graph a dependency whose source or target is not a key
    of [graph.chunks] can be removed without changing either result. *)
Theorem graceful g k :
  (∃ sol, maximumWeightClosure g = Some sol) ∧
  (∃ sol, solveClosureBySize g k = Some sol) ∧
  ∀ pre d post,
    wf_graph g → Types.edges g = pre ++ d :: post →
    Types.from d ∉ keys g ∨ Types.to d ∉ keys g →
    maximumWeightClosure g
    = maximumWeightClosure (Types.mkGraph (Types.chunks g) (pre ++ post)) ∧
    solveClosureBySize g k
    = solveClosureBySize (Types.mkGraph (Types.chunks g) (pre ++ post)) k.
Proof.
  split; [apply buildClosure_total |]. split; [apply solve_total |].
  intros pre d post Hwf Hedges Hd. rewrite <- (wf_ids_keys g Hwf) in Hd.
  split; [exact (dangling_buildClosure g pre post d Hedges Hd 0)
         | exact (dangling_solve g pre post d Hedges Hd k)].
Qed.

Lemma graceful_witness :
  wf_graph graph_dangling ∧
  Types.edges graph_dangling = [] ++ Types.mkEdge "A" "Z" :: [] ∧
  (Types.from (Types.mkEdge "A" "Z") ∉ keys graph_dangling
   ∨ Types.to (Types.mkEdge "A" "Z") ∉ keys graph_dangling) ∧
  maximumWeightClosure graph_dangling
  = maximumWeightClosure (Types.mkGraph (Types.chunks graph_dangling) ([] ++ [])) ∧
  solveClosureBySize graph_dangling 1
  = solveClosureBySize (Types.mkGraph (Types.chunks graph_dangling) ([] ++ [])) 1.
Proof.
  assert (Hz : Types.from (Types.mkEdge "A" "Z") ∉ keys graph_dangling
               ∨ Types.to (Types.mkEdge "A" "Z") ∉ keys graph_dangling).
  { right. simpl. by intros [=]%list_elem_of_singleton. }
  split; [exact wf_graph_dangling |]. split; [reflexivity |]. split; [exact Hz |].
  exact (proj2 (proj2 (graceful graph_dangling 1)) [] (Types.mkEdge "A" "Z") []
           wf_graph_dangling eq_refl Hz).
Defined.

(** C3 (as amended).  On a graph without dependencies the closure of
    [maximumWeightClosure] lists, in chunk order, the ids of the chunks
    whose weight exceeds [1e-9]. *)
Theorem zero_penalty_reduction g :
  Types.edges g = [] →
  ∃ sol, maximumWeightClosure g = Some sol ∧
         Types.closure sol
         = Types.id <$> filter (λ c, gt_eps (weight_or0 c) = true) (values g).
Proof.
  intros Hnone. unfold maximumWeightClosure.
  destruct (values g) as [|c0 l] eqn:E.
  - rewrite buildClosure_empty by done. eexists. split; [done |]. done.
  - destruct (buildClosure_run g 0) as (adj0 & F & adj & reach & Hrun);
      [by rewrite E |].
    rewrite (run_result _ _ _ _ _ _ Hrun). eexists. split; [done |].
    cbn [Types.closure]. rewrite <- E. apply collect_filter.
    intros i c Hc. change (0 + i + offset)%nat with (i + offset)%nat.
    rewrite (noedges_reach g 0 adj0 F adj reach Hrun Hnone i c Hc).
    apply gt_eps_proper. unfold profit_of. rewrite nsub_eq. lra.
Qed.

(** C3 as stated fails: a single chunk of weight 0 is not part of the
    closure although its weight is at least 0. *)
Lemma zero_penalty_counterexample :
  Types.edges graph_zero = [] ∧
  ∃ sol, maximumWeightClosure graph_zero = Some sol ∧
         Types.closure sol
         ≠ Types.id <$> filter (λ c, Qle_bool 0 (weight_or0 c) = true)
                          (values graph_zero).
Proof. split; [done |]. eexists. split; [vm_compute; reflexivity |]. done. Qed.

Lemma zero_penalty_witness :
  Types.edges graph_zero = [] ∧
  ∃ sol, maximumWeightClosure graph_zero = Some sol ∧
         Types.closure sol
         = Types.id <$> filter (λ c, gt_eps (weight_or0 c) = true)
                          (values graph_zero).
Proof. split; [reflexivity | exact (zero_penalty_reduction graph_zero eq_refl)]. Defined.

(** C6.  On the graph with A of weight 10, B of weight -3 and the
    dependency A -> B, [maximumWeightClosure] returns the closure A, B
    with total weight 7. *)
Theorem example_pull :
  maximumWeightClosure graph_pull
  = Some (Types.mkSolution ["A"; "B"] 7 2 (Some 0)).
Proof. vm_compute. reflexivity. Qed.

Lemma example_chain_eval :
  solveClosureBySize graph_chain 1
  = Some (Types.mkSolution [] 0 0 (Some 10)).
Proof. vm_compute. reflexivity. Qed.

(** C4 (as amended).  On the chain A -> B -> C with weights 10, 5, 1,
    [solveClosureBySize(graph, 1)] returns the empty closure with total
    weight 0 and size 0, found at penalty 10. *)
Theorem example_chain :
  solveClosureBySize graph_chain 1
  = Some (Types.mkSolution [] 0 0 (Some 10)).
Proof. exact example_chain_eval. Qed.

(** C4 as stated fails: the closure returned on the chain is not C. *)
Lemma example_chain_counterexample :
  ∃ sol, solveClosureBySize graph_chain 1 = Some sol ∧
         Types.closure sol ≠ ["C"] ∧ Types.size sol ≠ 1%nat.
Proof. eexists. split; [exact example_chain_eval |]. done. Qed.

(** C8.  The two entry points are functions of the enumeration order of
    the chunks, of the order of the dependencies and of [k]: two calls
    on inputs that agree on these return, and return the same solution,
    the order of the ids of the closure included. *)
Theorem determinism g1 g2 k1 k2 :
  Types.chunks g1 = Types.chunks g2 → Types.edges g1 = Types.edges g2 →
  k1 = k2 →
  (∃ sol, maximumWeightClosure g1 = Some sol ∧ maximumWeightClosure g2 = Some sol) ∧
  (∃ sol, solveClosureBySize g1 k1 = Some sol ∧ solveClosureBySize g2 k2 = Some sol).
Proof.
  destruct g1 as [c1 e1], g2 as [c2 e2]. simpl. intros -> -> ->.
  split.
  - destruct (buildClosure_total (Types.mkGraph c2 e2) 0) as [sol Hsol]. by exists sol.
  - destruct (solve_total (Types.mkGraph c2 e2) k2) as [sol Hsol]. by exists sol.
Qed.

Lemma determinism_witness :
  Types.chunks graph_chain = Types.chunks graph_chain ∧
  Types.edges graph_chain = Types.edges graph_chain ∧ 2%Z = 2%Z ∧
  (∃ sol, maximumWeightClosure graph_chain = Some sol
          ∧ maximumWeightClosure graph_chain = Some sol) ∧
  (∃ sol, solveClosureBySize graph_chain 2 = Some sol
          ∧ solveClosureBySize graph_chain 2 = Some sol).
Proof.
  split; [reflexivity |]. split; [reflexivity |]. split; [reflexivity |].
  exact (determinism graph_chain graph_chain 2 2 eq_refl eq_refl eq_refl).
Defined.


Lemma int_weights_pull : int_weights graph_pull.
Proof. repeat constructor; [by exists 10%Z | by exists (-3)%Z]. Defined.

(** C9 (as amended).  On a well-formed graph whose weights are all
    integers and add up, in absolute value, to less than 2^53, the
    total weight that [maximumWeightClosure] returns is at least 0. *)
Theorem total_nonneg g :
  wf_graph g → int_weights g → exact_range g 0 →
  ∃ sol, maximumWeightClosure g = Some sol ∧ 0 <= Types.totalWeight sol.
Proof.
  intros Hwf Hint _. unfold maximumWeightClosure.
  destruct (values g) as [|c0 l] eqn:E.
  - rewrite buildClosure_empty by done. eexists. split; [done |]. done.
  - destruct (buildClosure_run g 0) as (adj0 & F & adj & reach & Hrun);
      [by rewrite E |].
    rewrite (run_result _ _ _ _ _ _ Hrun). eexists. split; [done |].
    cbn [Types.totalWeight]. rewrite total_of_collect by done.
    assert (H0 : is_int 0) by (by exists 0%Z).
    pose proof (run_optimal _ _ _ _ _ _ Hrun Hint H0 _ (closed_cut_only g)) as Hopt.
    rewrite profit_sum_only in Hopt. done.
Qed.

(** C9 as stated fails: with A of weight 1.5e-9 depending on B and C of
    weight -1e-9 each, the closure is all three chunks and its total
    weight is negative. *)
Lemma total_nonneg_counterexample :
  ∃ sol, maximumWeightClosure graph_tiny = Some sol ∧ Types.totalWeight sol < 0.
Proof. eexists. split; [vm_compute; reflexivity | done]. Qed.

Lemma total_nonneg_witness :
  wf_graph graph_pull ∧ int_weights graph_pull ∧ exact_range graph_pull 0 ∧
  ∃ sol, maximumWeightClosure graph_pull = Some sol ∧ 0 <= Types.totalWeight sol.
Proof.
  assert (Hr : exact_range graph_pull 0) by (by vm_compute).
  split; [exact wf_graph_pull |]. split; [exact int_weights_pull |].
  split; [exact Hr |].
  exact (total_nonneg graph_pull wf_graph_pull int_weights_pull Hr).
Defined.

(** C5 (as amended).  When the weights and the two penalties are
    integers, [INF] is at most 2^53 at both penalties and [p1 <= p2],
    the closure that [buildClosure] returns at [p2] is a sublist of the
    one it returns at [p1], so it is no larger. *)
Theorem penalty_monotone g p1 p2 :
  int_weights g → is_int p1 → is_int p2 →
  exact_range g p1 → exact_range g p2 → p1 <= p2 →
  ∃ s1 s2, buildClosure g p1 = Some s1 ∧ buildClosure g p2 = Some s2 ∧
           sublist (Types.closure s2) (Types.closure s1) ∧
           (Types.size s2 ≤ Types.size s1)%nat.
Proof.
  intros Hint Hp1 Hp2 _ _ Hle.
  destruct (values g) as [|c0 l] eqn:E.
  - rewrite !buildClosure_empty by done. eexists _, _.
    split; [done |]. split; [done |]. split; [done | simpl; lia].
  - destruct (buildClosure_run g p1) as (a1 & F1 & b1 & r1 & Hrun1);
      [by rewrite E |].
    destruct (buildClosure_run g p2) as (a2 & F2 & b2 & r2 & Hrun2);
      [by rewrite E |].
    rewrite (run_result _ _ _ _ _ _ Hrun1), (run_result _ _ _ _ _ _ Hrun2).
    eexists _, _. split; [done |]. split; [done |]. cbn [Types.closure Types.size].
    assert (Hsub : sublist (collect r2 0 (values g)) (collect r1 0 (values g))).
    { apply collect_mono.
      exact (run_monotone g p1 p2 a1 F1 b1 r1 a2 F2 b2 r2 Hint Hp1 Hp2 Hle Hrun1 Hrun2). }
    split; [done | by apply sublist_length].
Qed.

(** C5 as stated fails at the scale of the threshold [1e-9]: on
    [graph_nonmono] the closure is empty at penalty 2e-10 and has three
    members at penalty 5e-10. *)
Lemma penalty_monotone_counterexample :
  (2 # 10000000000) <= (5 # 10000000000) ∧
  ∃ s1 s2, buildClosure graph_nonmono (2 # 10000000000) = Some s1 ∧
           buildClosure graph_nonmono (5 # 10000000000) = Some s2 ∧
           (Types.size s1 < Types.size s2)%nat.
Proof.
  split; [done |]. eexists _, _.
  split; [vm_compute; reflexivity |]. split; [vm_compute; reflexivity |].
  simpl. lia.
Qed.

Lemma penalty_monotone_witness :
  int_weights graph_pull ∧ is_int 0 ∧ is_int 4 ∧
  exact_range graph_pull 0 ∧ exact_range graph_pull 4 ∧ 0 <= 4 ∧
  ∃ s1 s2, buildClosure graph_pull 0 = Some s1 ∧ buildClosure graph_pull 4 = Some s2 ∧
           sublist (Types.closure s2) (Types.closure s1) ∧
           (Types.size s2 ≤ Types.size s1)%nat.
Proof.
  assert (H0 : is_int 0) by (by exists 0%Z).
  assert (H4 : is_int 4) by (by exists 4%Z).
  assert (Hle : 0 <= 4) by done.
  assert (Hr0 : exact_range graph_pull 0) by (by vm_compute).
  assert (Hr4 : exact_range graph_pull 4) by (by vm_compute).
  split; [exact int_weights_pull |]. split; [exact H0 |]. split; [exact H4 |].
  split; [exact Hr0 |]. split; [exact Hr4 |]. split; [exact Hle |].
  exact (penalty_monotone graph_pull 0 4 int_weights_pull H0 H4 Hr0 Hr4 Hle).
Defined.
(** * Further properties of the flow network *)

(** ** Networks built by [addEdge] *)

Lemma addEdge_None (adj : Adj) u v c :
  addEdge u v c adj = None ↔ (length adj ≤ u)%nat ∨ (length adj ≤ v)%nat.
Proof.
  split.
  - intros H. destruct (decide (u < length adj)%nat) as [Hu|]; [| lia].
    destruct (decide (v < length adj)%nat) as [Hv|]; [| lia].
    destruct (addEdge_Some adj u v c Hu Hv) as [adj' E]. congruence.
  - intros H. destruct (addEdge u v c adj) as [adj'|] eqn:E; [| done].
    destruct (addEdge_slots _ _ _ _ _ E) as (lu & lv & iv & Hu & Hv & _).
    apply lookup_lt_Some in Hu, Hv. lia.
Qed.

Lemma addEdge_nonneg (adj : Adj) u v c adj' :
  nonneg adj → 0 <= c → addEdge u v c adj = Some adj' → nonneg adj'.
Proof.
  intros Hn Hc E u' i e He.
  destruct (addEdge_inv _ _ _ _ _ _ _ _ E He) as [H | [(_ & _ & ->) | (_ & _ & ->)]].
  - by eapply Hn.
  - done.
  - done.
Qed.

Lemma addEdge_grid G (adj : Adj) u v c adj' :
  closed_grid G → on_grid G adj → G c → addEdge u v c adj = Some adj' →
  on_grid G adj'.
Proof.
  intros HG Hn Hc E u' i e He.
  destruct (addEdge_inv _ _ _ _ _ _ _ _ E He) as [H | [(_ & _ & ->) | (_ & _ & ->)]].
  - by eapply Hn.
  - done.
  - apply (grid_zero _ HG).
Qed.

Lemma add_edges_ok es :
  ∀ adj adj', add_edges es adj = Some adj' →
    length adj' = length adj ∧
    (wf_adj adj → wf_adj adj') ∧
    (nonneg adj → Forall (λ e, 0 <= e.2) es → nonneg adj') ∧
    (∀ G, closed_grid G → on_grid G adj → Forall (λ e, G e.2) es →
          on_grid G adj') ∧
    ∀ X, rescut X adj' == rescut X adj + cut_cap X es.
Proof.
  induction es as [|[[u v] c] es IH]; intros adj adj' H; simpl in H.
  - injection H as <-. split; [done |]. split; [done |]. split; [done |].
    split; [done |]. intros X. simpl. lra.
  - destruct (addEdge u v c adj) as [adj1|] eqn:E; simpl in H; [| done].
    destruct (IH _ _ H) as (Hl & Hw & Hn & Hg & Hc).
    split; [by rewrite Hl, (addEdge_length _ _ _ _ _ E) |].
    split; [intros Hwf; by eapply Hw, addEdge_wf |].
    split.
    { intros Hnn Hall. apply Forall_cons in Hall as [Hc0 Hall].
      apply Hn; [| done]. by eapply addEdge_nonneg. }
    split.
    { intros G HG Hon Hall. apply Forall_cons in Hall as [Hc0 Hall].
      apply (Hg G HG); [| done]. by eapply addEdge_grid. }
    intros X. rewrite Hc, (addEdge_rescut X _ _ _ _ _ E). simpl. lra.
Qed.

Lemma wf_adj_newDinic n : wf_adj (newDinic n).
Proof. intros u i e H. by rewrite slot_newDinic in H. Qed.

Lemma nonneg_newDinic n : nonneg (newDinic n).
Proof. intros u i e H. by rewrite slot_newDinic in H. Qed.

Lemma on_grid_newDinic G n : on_grid G (newDinic n).
Proof. intros u i e H. by rewrite slot_newDinic in H. Qed.

Lemma dinic_of_ok n es adj :
  dinic_of n es = Some adj →
  length adj = n ∧ wf_adj adj ∧
  (Forall (λ e, 0 <= e.2) es → nonneg adj) ∧
  (∀ G, closed_grid G → Forall (λ e, G e.2) es → on_grid G adj) ∧
  ∀ X, rescut X adj == cut_cap X es.
Proof.
  intros H. destruct (add_edges_ok _ _ _ H) as (Hl & Hw & Hn & Hg & Hc).
  split; [by rewrite Hl; apply length_replicate |].
  split; [apply Hw, wf_adj_newDinic |].
  split; [apply Hn, nonneg_newDinic |].
  split; [intros G HG; apply (Hg G HG), on_grid_newDinic |].
  intros X. rewrite Hc, rescut_newDinic. lra.
Qed.

Lemma add_edges_Some es :
  ∀ adj, Forall (λ e, (e.1.1 < length adj)%nat ∧ (e.1.2 < length adj)%nat) es →
         ∃ adj', add_edges es adj = Some adj'.
Proof.
  induction es as [|[[u v] c] es IH]; intros adj Hall; simpl; [eauto |].
  apply Forall_cons in Hall as [[Hu Hv] Hall]. simpl in Hu, Hv.
  destruct (addEdge_Some adj u v c Hu Hv) as [adj1 E]. rewrite E. simpl.
  apply IH. by rewrite (addEdge_length _ _ _ _ _ E).
Qed.

Lemma add_edges_None es :
  ∀ adj, add_edges es adj = None →
         Exists (λ e, (length adj ≤ e.1.1)%nat ∨ (length adj ≤ e.1.2)%nat) es.
Proof.
  induction es as [|[[u v] c] es IH]; intros adj H; simpl in H; [done |].
  destruct (addEdge u v c adj) as [adj1|] eqn:E; simpl in H.
  - apply Exists_cons_tl. rewrite <- (addEdge_length _ _ _ _ _ E). by apply IH.
  - apply Exists_cons_hd. simpl. by apply (addEdge_None adj u v c).
Qed.

(** ** The sample network *)

Lemma calls_sample_nonneg : Forall (λ e, 0 <= e.2) calls_sample.
Proof. repeat constructor; unfold Qle; simpl; lia. Defined.

Lemma calls_sample_int : Forall (λ e, is_int e.2) calls_sample.
Proof.
  repeat constructor;
    [by exists 3%Z | by exists 2%Z | by exists 2%Z | by exists 3%Z | by exists 1%Z].
Defined.

Lemma calls_sample_exact : exact_calls calls_sample.
Proof. split; [exact calls_sample_int | by vm_compute]. Defined.

Lemma adj_sample_wf : wf_adj adj_sample.
Proof. exact (proj1 (proj2 (dinic_of_ok 4 calls_sample adj_sample eq_refl))). Defined.

Lemma adj_sample_nonneg : nonneg adj_sample.
Proof.
  exact (proj1 (proj2 (proj2 (dinic_of_ok 4 calls_sample adj_sample eq_refl)))
           calls_sample_nonneg).
Defined.

Lemma adj_sample_exact : exact_caps adj_sample.
Proof.
  split; [| by vm_compute].
  exact (proj1 (proj2 (proj2 (proj2 (dinic_of_ok 4 calls_sample adj_sample eq_refl))))
           is_int is_int_grid calls_sample_int).
Defined.

(** ** Open paths *)

Lemma connected_reach adj s seen w :
  reach_post adj s seen → seen_at seen w = true ↔ connected adj s w.
Proof.
  intros Hp. split.
  - apply (rp_sound _ _ _ Hp (connected adj s)); [constructor |].
    intros u k e He Hc Hu. by econstructor.
  - induction 1 as [|u i e _ IH He Hc]; [apply (rp_src _ _ _ Hp) |].
    by apply (rp_closed _ _ _ Hp u i e).
Qed.

Lemma connected_level adj s level w :
  bfs_post adj s level → level_reached level w = true ↔ connected adj s w.
Proof.
  intros Hp. split.
  - intros (l & Hl & Hpos)%level_reached_true.
    remember (Z.to_nat l) as n eqn:En. revert w l Hl Hpos En.
    induction n as [n IH] using lt_wf_ind. intros w l Hl Hpos ->.
    destruct (bp_parent _ _ _ Hp w l Hl Hpos)
      as [-> | (u & i & e & lu & He & <- & Hc & Hu & Hlu & ->)].
    + constructor.
    + econstructor; [| done | done].
      eapply (IH (Z.to_nat lu)); [lia | done | done | done].
  - induction 1 as [|u i e _ IH He Hc].
    + apply level_reached_true. exists 0%Z. split; [apply (bp_src _ _ _ Hp) | lia].
    + by apply (bp_closed _ _ _ Hp u i e).
Qed.

Lemma dinic_run n es adj0 s t :
  dinic_of n es = Some adj0 → Forall (λ e, 0 <= e.2) es →
  (s < n)%nat → s ≠ t →
  ∃ F adj, maxFlow adj0 s t = Some (F, adj) ∧
           flow_inv adj0 s t F adj ∧ saturated adj s t.
Proof.
  intros Hd Hc Hs Hst.
  destruct (dinic_of_ok _ _ _ Hd) as (Hl & Hwf & Hn & _).
  destruct (lookup_lt_is_Some_2 adj0 s) as [es0 Hes0]; [lia |].
  exact (maxFlow_total adj0 s t es0 Hwf (Hn Hc) Hst Hes0).
Qed.

Lemma saturated_cut adj s t : saturated adj s t → ¬ connected adj s t.
Proof.
  intros (level & Hp & Ht) Hc.
  apply (connected_level _ _ _ _ Hp) in Hc. congruence.
Qed.

Lemma loop_pos_None {A B} (step : A → option (A + B)) p a :
  step a = None → loop_pos step p a = None.
Proof.
  intros H. rewrite loop_pos_nat.
  destruct (Pos2Nat.is_succ p) as [n ->]. simpl. by rewrite H.
Qed.

(** X2.  [addEdge(u, v, cap)] leaves the older edges where they are and
    appends the forward edge to the list of [u].  For [u ≠ v] the
    reverse edge of capacity 0 sits at the index that the forward edge
    records in [rev], and points back at the forward edge.  For [u = v]
    it sits one place further: the forward edge of a self-loop records
    its own index. *)
Theorem addEdge_paired (adj : Adj) u v c adj' :
  addEdge u v c adj = Some adj' →
  ∃ lu lv, adj !! u = Some lu ∧ adj !! v = Some lv ∧
    length adj' = length adj ∧
    (∀ u' i e, slot adj u' i = Some e → slot adj' u' i = Some e) ∧
    slot adj' u (length lu) = Some (mkEdge v (length lv) c) ∧
    (u ≠ v → slot adj' v (length lv) = Some (mkEdge u (length lu) 0)) ∧
    (u = v → slot adj' v (S (length lv)) = Some (mkEdge u (length lu) 0)).
Proof.
  intros E. pose proof E as E0. unfold addEdge in E.
  destruct (adj !! v) as [lv|] eqn:Hv; simpl in E; [| done].
  destruct (adj !! u) as [lu|] eqn:Hu; simpl in E; [| done].
  exists lu, lv. split; [done |]. split; [done |].
  split; [by eapply addEdge_length |].
  split; [intros u' i e; by eapply addEdge_old |].
  assert (Hlu : (u < length adj)%nat) by by eapply lookup_lt_Some.
  assert (Hlv : (v < length adj)%nat) by by eapply lookup_lt_Some.
  destruct (decide (u = v)) as [-> | Hne].
  - rewrite list_lookup_insert_eq in E by done. simpl in E.
    injection E as <-. rewrite list_insert_insert_eq.
    assert (lu = lv) as -> by congruence.
    unfold slot. rewrite list_lookup_insert_eq by done. simpl.
    split; [| split; [done |]].
    + rewrite lookup_app_l by (rewrite length_app; simpl; lia).
      by rewrite lookup_app_r, Nat.sub_diag.
    + intros _. rewrite lookup_app_r by (rewrite length_app; simpl; lia).
      rewrite length_app. simpl.
      by replace (S (length lv) - (length lv + 1))%nat with 0%nat by lia.
  - rewrite list_lookup_insert_ne in E by done. rewrite Hv in E. simpl in E.
    injection E as <-. unfold slot.
    split; [| split; [| done]].
    + rewrite list_lookup_insert_ne by done.
      rewrite list_lookup_insert_eq by done. simpl.
      by rewrite lookup_app_r, Nat.sub_diag.
    + intros _. rewrite list_lookup_insert_eq by (by rewrite length_insert).
      simpl. by rewrite lookup_app_r, Nat.sub_diag.
Qed.

Lemma addEdge_paired_witness :
  addEdge 0 1 5 (newDinic 3) = Some [[mkEdge 1 0 5]; [mkEdge 0 0 0]; []] ∧
  ∃ lu lv, newDinic 3 !! 0%nat = Some lu ∧ newDinic 3 !! 1%nat = Some lv ∧
    length [[mkEdge 1 0 5]; [mkEdge 0 0 0]; []] = length (newDinic 3) ∧
    (∀ u' i e, slot (newDinic 3) u' i = Some e →
               slot [[mkEdge 1 0 5]; [mkEdge 0 0 0]; []] u' i = Some e) ∧
    slot [[mkEdge 1 0 5]; [mkEdge 0 0 0]; []] 0 (length lu)
    = Some (mkEdge 1 (length lv) 5) ∧
    (0%nat ≠ 1%nat →
     slot [[mkEdge 1 0 5]; [mkEdge 0 0 0]; []] 1 (length lv)
     = Some (mkEdge 0 (length lu) 0)) ∧
    (0%nat = 1%nat →
     slot [[mkEdge 1 0 5]; [mkEdge 0 0 0]; []] 1 (S (length lv))
     = Some (mkEdge 0 (length lu) 0)).
Proof.
  split; [reflexivity |].
  exact (addEdge_paired (newDinic 3) 0 1 5 _ eq_refl).
Defined.



(** X4.  With non-negative integer capacities that add up to at most
    2^53, the flow value that [maxFlow(s, t)] returns is at most the
    capacity of every cut that separates [s] from [t], and the residual
    capacity that crosses the cut afterwards is the capacity of the cut
    less the flow value. *)
Theorem maxFlow_below_cuts n es adj0 s t :
  dinic_of n es = Some adj0 → Forall (λ e, 0 <= e.2) es → exact_calls es →
  (s < n)%nat → s ≠ t →
  ∃ F adj, maxFlow adj0 s t = Some (F, adj) ∧
    ∀ X, X s = true → X t = false →
         rescut X adj == cut_cap X es - F ∧ F <= cut_cap X es.
Proof.
  intros Hd Hc _ Hs Hst.
  destruct (dinic_run _ _ _ _ _ Hd Hc Hs Hst) as (F & adj & E & Hf & _).
  exists F, adj. split; [done |]. intros X Hxs Hxt.
  destruct (dinic_of_ok _ _ _ Hd) as (_ & _ & _ & _ & Hcut).
  pose proof (fi_cut _ _ _ _ _ Hf X Hxt) as H. rewrite Hxs, Hcut in H.
  split; [done |].
  pose proof (rescut_nonneg X adj (fi_nonneg _ _ _ _ _ Hf)). lra.
Qed.

Lemma maxFlow_below_cuts_witness :
  dinic_of 4 calls_sample = Some adj_sample ∧
  Forall (λ e, 0 <= e.2) calls_sample ∧ exact_calls calls_sample ∧
  (0 < 4)%nat ∧ 0%nat ≠ 1%nat ∧
  ∃ F adj, maxFlow adj_sample 0 1 = Some (F, adj) ∧
    ∀ X, X 0%nat = true → X 1%nat = false →
         rescut X adj == cut_cap X calls_sample - F ∧
         F <= cut_cap X calls_sample.
Proof.
  split; [reflexivity |]. split; [exact calls_sample_nonneg |].
  split; [exact calls_sample_exact |]. split; [lia |]. split; [lia |].
  exact (maxFlow_below_cuts 4 calls_sample adj_sample 0 1 eq_refl
           calls_sample_nonneg calls_sample_exact ltac:(lia) ltac:(lia)).
Defined.

(** ** The cut around the reached set *)

Lemma edge_count_push (adj : Adj) u lu x :
  adj !! u = Some lu →
  edge_count (<[u := lu ++ [x]]> adj) = S (edge_count adj).
Proof.
  unfold edge_count. revert u.
  induction adj as [|es adj IH]; intros [|u] H; try done.
  - injection H as ->. simpl. rewrite length_app. simpl. lia.
  - specialize (IH u H). simpl in *. lia.
Qed.

Lemma edge_count_addEdge (adj : Adj) u v c adj' :
  addEdge u v c adj = Some adj' → edge_count adj' = S (S (edge_count adj)).
Proof.
  unfold addEdge. intros E.
  destruct (adj !! v) as [lv|] eqn:Hv; simpl in E; [| done].
  destruct (adj !! u) as [lu|] eqn:Hu; simpl in E; [| done].
  destruct (<[u:=lu ++ [mkEdge v (length lv) c]]> adj !! v) as [lv1|] eqn:Hv1;
    simpl in E; [| done].
  injection E as <-.
  by rewrite (edge_count_push _ _ _ _ Hv1), (edge_count_push _ _ _ _ Hu).
Qed.

Lemma dinic_reach n es adj0 s t :
  dinic_of n es = Some adj0 → Forall (λ e, 0 <= e.2) es →
  (s < n)%nat → s ≠ t →
  ∃ F adj reach,
    maxFlow adj0 s t = Some (F, adj) ∧ reachable adj s = Some reach ∧
    flow_inv adj0 s t F adj ∧ reach_post adj s reach ∧
    seen_at reach s = true ∧ seen_at reach t = false.
Proof.
  intros Hd Hc Hs Hst.
  destruct (dinic_run _ _ _ _ _ Hd Hc Hs Hst) as (F & adj & E & Hf & Hsat).
  destruct (dinic_of_ok _ _ _ Hd) as (Hl & Hwf & Hn & _).
  destruct (lookup_lt_is_Some_2 adj0 s) as [es0 Hes0]; [lia |].
  pose proof (flow_inv_wf adj0 s t Hwf F adj Hf) as Hwf'.
  pose proof (flow_inv_length adj0 s t F adj Hf) as Hl'.
  destruct (reachable_total adj s Hwf') as (reach & Hr & Hp); [lia |].
  exists F, adj, reach. split; [done |]. split; [done |].
  split; [done |]. split; [done |].
  split; [apply (rp_src _ _ _ Hp) |].
  apply not_true_iff_false. intros Ht.
  apply (connected_reach _ _ _ _ Hp) in Ht. by apply (saturated_cut _ _ _ Hsat).
Qed.

(** X5.  With non-negative integer capacities that add up to at most
    2^53, [maxFlow] followed by [reachable] computes a minimum cut: the
    reached set holds [s] and not [t], the flow value is the capacity of
    the cut around the reached set, and no cut that separates [s] from
    [t] has a smaller capacity. *)
Theorem maxFlow_min_cut n es adj0 s t :
  dinic_of n es = Some adj0 →
  Forall (λ e, 0 <= e.2) es → exact_calls es →
  (s < n)%nat → s ≠ t →
  ∃ F adj reach,
    maxFlow adj0 s t = Some (F, adj) ∧ reachable adj s = Some reach ∧
    seen_at reach s = true ∧ seen_at reach t = false ∧
    F == cut_cap (seen_at reach) es ∧
    ∀ X, X s = true → X t = false →
         cut_cap (seen_at reach) es <= cut_cap X es.
Proof.
  intros Hd Hc [Hi _] Hs Hst.
  destruct (dinic_reach _ _ _ _ _ Hd Hc Hs Hst)
    as (F & adj & reach & E & Hr & Hf & Hp & Hrs & Hrt).
  destruct (dinic_of_ok _ _ _ Hd) as (_ & _ & _ & Hg & Hcut).
  exists F, adj, reach. do 4 (split; [done |]).
  assert (Hz : rescut (seen_at reach) adj == 0).
  { apply rescut_zero. intros u i e He Hu Hto. apply is_int_small.
    - by eapply (fi_grid _ _ _ _ _ Hf is_int is_int_grid (Hg _ is_int_grid Hi)).
    - by eapply (fi_nonneg _ _ _ _ _ Hf).
    - apply Qnot_lt_le. intros Hcap.
      pose proof (rp_closed _ _ _ Hp u i e He Hcap Hu). congruence. }
  assert (HF : F == cut_cap (seen_at reach) es).
  { pose proof (fi_cut _ _ _ _ _ Hf (seen_at reach) Hrt) as H.
    rewrite Hrs, Hz, Hcut in H. lra. }
  split; [done |]. intros X Hxs Hxt.
  pose proof (fi_cut _ _ _ _ _ Hf X Hxt) as H. rewrite Hxs, Hcut in H.
  pose proof (rescut_nonneg X adj (fi_nonneg _ _ _ _ _ Hf)). lra.
Qed.

Lemma maxFlow_min_cut_witness :
  dinic_of 4 calls_sample = Some adj_sample ∧
  Forall (λ e, 0 <= e.2) calls_sample ∧ exact_calls calls_sample ∧
  (0 < 4)%nat ∧ 0%nat ≠ 1%nat ∧
  ∃ F adj reach,
    maxFlow adj_sample 0 1 = Some (F, adj) ∧ reachable adj 0 = Some reach ∧
    seen_at reach 0 = true ∧ seen_at reach 1 = false ∧
    F == cut_cap (seen_at reach) calls_sample ∧
    ∀ X, X 0%nat = true → X 1%nat = false →
         cut_cap (seen_at reach) calls_sample <= cut_cap X calls_sample.
Proof.
  split; [reflexivity |]. split; [exact calls_sample_nonneg |].
  split; [exact calls_sample_exact |]. split; [lia |]. split; [lia |].
  exact (maxFlow_min_cut 4 calls_sample adj_sample 0 1 eq_refl
           calls_sample_nonneg calls_sample_exact ltac:(lia) ltac:(lia)).
Defined.

(** X1.  [addEdge(u, v, cap)] raises exactly when [u] or [v] is not a
    node of the network; otherwise it keeps the number of nodes and
    adds two edge objects. *)
Theorem addEdge_bounds (adj : Adj) u v c :
  (addEdge u v c adj = None ↔ (length adj ≤ u)%nat ∨ (length adj ≤ v)%nat) ∧
  (∀ adj', addEdge u v c adj = Some adj' →
           length adj' = length adj ∧ edge_count adj' = S (S (edge_count adj))).
Proof.
  split; [apply addEdge_None |]. intros adj' E.
  split; [by eapply addEdge_length | by eapply edge_count_addEdge].
Qed.

(** X10.  [reachable(s)] raises when [s] is not a node; otherwise it
    returns one mark per node, and marks exactly the nodes that a path
    of edges of capacity above [1e-9] connects to [s], [s] included. *)
Theorem reachable_connected (adj : Adj) s :
  wf_adj adj →
  ((length adj ≤ s)%nat → reachable adj s = None) ∧
  ((s < length adj)%nat →
   ∃ seen, reachable adj s = Some seen ∧ length seen = length adj ∧
           ∀ w, seen_at seen w = true ↔ connected adj s w).
Proof.
  intros Hwf. split.
  - intros Hs. unfold reachable. cbn [reach_loop].
    by rewrite (lookup_ge_None_2 adj s).
  - intros Hs. destruct (reachable_total adj s Hwf Hs) as (seen & E & Hp).
    exists seen. split; [done |]. split; [apply (rp_len _ _ _ Hp) |].
    intros w. by apply connected_reach.
Qed.

Lemma reachable_connected_witness :
  wf_adj adj_sample ∧
  ((length adj_sample ≤ 0)%nat → reachable adj_sample 0 = None) ∧
  ((0 < length adj_sample)%nat →
   ∃ seen, reachable adj_sample 0 = Some seen ∧
           length seen = length adj_sample ∧
           ∀ w, seen_at seen w = true ↔ connected adj_sample 0 w).
Proof.
  split; [exact adj_sample_wf |].
  exact (reachable_connected adj_sample 0 adj_sample_wf).
Defined.

(** X9.  [bfs] gives the source level 0 and a level of at least 0 to
    exactly the nodes that a path of edges of capacity above [1e-9]
    connects to the source; every other reached node has an edge of
    capacity above [1e-9] coming in from a node one level below. *)
Theorem bfs_connected (adj : Adj) s :
  wf_adj adj → (s < length adj)%nat →
  ∃ level, bfs adj s = Some level ∧ length level = length adj ∧
           level !! s = Some 0%Z ∧
           (∀ w, level_reached level w = true ↔ connected adj s w) ∧
           ∀ w lw, level !! w = Some lw → (0 < lw)%Z →
                   ∃ u i e, slot adj u i = Some e ∧ to e = w ∧ EPS < cap e ∧
                            level !! u = Some (lw - 1)%Z.
Proof.
  intros Hwf Hs. destruct (bfs_total adj s Hwf Hs) as (level & E & Hp).
  exists level. split; [done |]. split; [apply (bp_len _ _ _ Hp) |].
  split; [apply (bp_src _ _ _ Hp) |].
  split; [intros w; by apply connected_level |].
  intros w lw Hw Hpos.
  destruct (bp_parent _ _ _ Hp w lw Hw) as [-> | (u & i & e & lu & He & Hto & Hc & Hu & _ & ->)];
    [lia | |].
  - rewrite (bp_src _ _ _ Hp) in Hw. injection Hw as <-. lia.
  - exists u, i, e. do 3 (split; [done |]).
    by replace (lu + 1 - 1)%Z with lu by lia.
Qed.

Lemma bfs_connected_witness :
  wf_adj adj_sample ∧ (0 < length adj_sample)%nat ∧
  ∃ level, bfs adj_sample 0 = Some level ∧ length level = length adj_sample ∧
           level !! 0%nat = Some 0%Z ∧
           (∀ w, level_reached level w = true ↔ connected adj_sample 0 w) ∧
           ∀ w lw, level !! w = Some lw → (0 < lw)%Z →
                   ∃ u i e, slot adj_sample u i = Some e ∧ to e = w ∧
                            EPS < cap e ∧ level !! u = Some (lw - 1)%Z.
Proof.
  split; [exact adj_sample_wf |]. split; [simpl; lia |].
  exact (bfs_connected adj_sample 0 adj_sample_wf ltac:(simpl; lia)).
Defined.

(** X7.  [maxFlow(s, s)] gives no result: bfs finds the sink at level
    0, the first [dfs] call answers its argument [Infinity], and the
    loop [while (pushed > 0)] then never ends. *)
Theorem maxFlow_same_node (adj : Adj) s :
  wf_adj adj → (s < length adj)%nat → maxFlow adj s s = None.
Proof.
  intros Hwf Hs. destruct (bfs_total adj s Hwf Hs) as (level & E & Hp).
  unfold maxFlow, while_loop. rewrite loop_pos_None; [done |].
  unfold phase_step. rewrite E. cbn [mbind option_bind].
  assert (level_reached level s = true) as ->.
  { apply level_reached_true. exists 0%Z. split; [apply (bp_src _ _ _ Hp) | lia]. }
  unfold dfs_root, depth_bound. cbn [dfs].
  by rewrite bool_decide_eq_true_2.
Qed.

Lemma maxFlow_same_node_witness :
  wf_adj adj_sample ∧ (0 < length adj_sample)%nat ∧
  maxFlow adj_sample 0 0 = None.
Proof.
  split; [exact adj_sample_wf |]. split; [simpl; lia |].
  exact (maxFlow_same_node adj_sample 0 adj_sample_wf ltac:(simpl; lia)).
Defined.

(** X8.  On a network whose capacities are non-negative integers that
    add up to at most 2^53: when bfs has reached the sink, the first
    [dfs] call of the phase finds a path: it pushes more than [1e-9],
    keeps end points, pairing and non-negativity of the edges, and
    lowers the residual capacity of every cut that separates [s] from
    [t] by the amount it pushed. *)
Theorem dfs_first_augmentation (adj : Adj) s t level :
  wf_adj adj → nonneg adj → exact_caps adj → s ≠ t →
  bfs adj s = Some level → level_reached level t = true →
  ∃ tr st',
    dfs_root level s t (mkFS adj (replicate (length adj) 0%nat)) = Some (tr, st') ∧
    EPS < tr ∧ shape (fs_adj st') = shape adj ∧ nonneg (fs_adj st') ∧
    ∀ X, X s = true → X t = false →
         rescut X (fs_adj st') == rescut X adj - tr.
Proof.
  intros Hwf Hn _ Hst Hb Hreach.
  assert (Hs : (s < length adj)%nat).
  { unfold bfs in Hb. by destruct (decide (s < length adj)%nat). }
  destruct (bfs_total adj s Hwf Hs) as (level' & Hb' & Hbp).
  rewrite Hb in Hb'. injection Hb' as <-.
  destruct (lookup_lt_is_Some_2 adj s Hs) as [es0 Hes0].
  pose proof (bp_src _ _ _ Hbp) as Hsrc.
  pose proof (flow_inv_refl adj s t Hn) as Hinv.
  set (it := replicate (length adj) 0%nat).
  assert (Hlen : length it = length adj) by apply length_replicate.
  destruct (dfs_root_total adj s t es0 Hwf Hst Hes0 level Hsrc 0 adj it Hinv Hlen)
    as (tr & st1 & Hr & Hpost).
  exists tr, st1. split; [done |].
  assert (Htr : 0 < tr).
  { apply Qnot_le_lt. intros Hle.
    assert (Hnt : ¬ 0 < tr) by lra.
    unfold dfs_root in Hr.
    destruct (dfs_complete level t (depth_bound level) s None (mkFS adj it) tr st1)
      as [Hnl _]; simpl; try done.
    - intros v iv i e Hv Hi. apply lookup_replicate in Hv as [-> _]. lia.
    - apply Hnl. by eapply bfs_live. }
  split; [by apply (post_tr_eps _ _ _ _ _ _ _ Hpost) |].
  split; [apply (post_shape _ _ _ _ _ _ _ Hpost) |].
  split; [apply (post_nonneg _ _ _ _ _ _ _ Hpost) |].
  intros X Hxs Hxt. pose proof (post_cut _ _ _ _ _ _ _ Hpost X Hxt) as H.
  simpl in H. by rewrite Hxs in H.
Qed.

Lemma dfs_first_augmentation_witness :
  wf_adj adj_sample ∧ nonneg adj_sample ∧ exact_caps adj_sample ∧
  0%nat ≠ 1%nat ∧
  bfs adj_sample 0 = Some [0; 2; 1; 1]%Z ∧
  level_reached [0; 2; 1; 1]%Z 1 = true ∧
  ∃ tr st',
    dfs_root [0; 2; 1; 1]%Z 0 1
      (mkFS adj_sample (replicate (length adj_sample) 0%nat)) = Some (tr, st') ∧
    EPS < tr ∧ shape (fs_adj st') = shape adj_sample ∧ nonneg (fs_adj st') ∧
    ∀ X, X 0%nat = true → X 1%nat = false →
         rescut X (fs_adj st') == rescut X adj_sample - tr.
Proof.
  split; [exact adj_sample_wf |]. split; [exact adj_sample_nonneg |].
  split; [exact adj_sample_exact |].
  split; [lia |]. split; [reflexivity |]. split; [reflexivity |].
  exact (dfs_first_augmentation adj_sample 0 1 [0; 2; 1; 1]%Z adj_sample_wf
           adj_sample_nonneg adj_sample_exact ltac:(lia) eq_refl eq_refl).
Defined.

(** ** A flow of value zero *)

Lemma connected_caps (adj adj' : Adj) s w :
  shape adj' = shape adj →
  (∀ u i e e', slot adj u i = Some e → slot adj' u i = Some e' →
               cap e <= cap e') →
  connected adj s w → connected adj' s w.
Proof.
  intros Hsh Hcap. induction 1 as [|u i e _ IH He Hc]; [constructor |].
  destruct (shape_slot _ _ _ _ _ (eq_sym Hsh) He) as (e' & He' & Hto & _).
  rewrite <- Hto. econstructor; [exact IH | exact He' |].
  pose proof (Hcap _ _ _ _ He He'). lra.
Qed.

(** X27.  [maxFlow(s, t)] answers a positive flow value when a path of
    edges of capacity above [1e-9] leads from [s] to [t]; when there is
    none it answers 0 and leaves the network as it was. *)
Theorem maxFlow_zero_iff n es adj0 s t :
  dinic_of n es = Some adj0 → Forall (λ e, 0 <= e.2) es →
  (s < n)%nat → s ≠ t →
  ∃ F adj, maxFlow adj0 s t = Some (F, adj) ∧
           (connected adj0 s t → 0 < F) ∧
           (¬ connected adj0 s t → F = 0 ∧ adj = adj0).
Proof.
  intros Hd Hc Hs Hst.
  destruct (dinic_run _ _ _ _ _ Hd Hc Hs Hst) as (F & adj & E & Hf & Hsat).
  exists F, adj. split; [done |]. split.
  - intros Hconn. apply Qnot_le_lt. intros HF.
    apply (saturated_cut _ _ _ Hsat).
    apply (connected_caps adj0 adj); [apply (fi_shape _ _ _ _ _ Hf) | | done].
    intros u i e e' He He'.
    pose proof (fi_cap _ _ _ _ _ Hf u i e e' He He'). lra.
  - intros Hno.
    destruct (dinic_of_ok _ _ _ Hd) as (Hl & Hwf & _).
    destruct (bfs_total adj0 s Hwf) as (level & Hb & Hbp); [lia |].
    assert (Ht : level_reached level t = false).
    { apply not_true_iff_false. intros Ht. apply Hno.
      by apply (connected_level _ _ _ _ Hbp). }
    pose proof (maxFlow_saturated adj0 s t level Hb Ht) as H.
    rewrite E in H. by injection H.
Qed.

Lemma maxFlow_zero_iff_witness :
  dinic_of 4 calls_sample = Some adj_sample ∧
  Forall (λ e, 0 <= e.2) calls_sample ∧ (0 < 4)%nat ∧ 0%nat ≠ 1%nat ∧
  ∃ F adj, maxFlow adj_sample 0 1 = Some (F, adj) ∧
           (connected adj_sample 0 1 → 0 < F) ∧
           (¬ connected adj_sample 0 1 → F = 0 ∧ adj = adj_sample).
Proof.
  split; [reflexivity |]. split; [exact calls_sample_nonneg |].
  split; [lia |]. split; [lia |].
  exact (maxFlow_zero_iff 4 calls_sample adj_sample 0 1 eq_refl
           calls_sample_nonneg ltac:(lia) ltac:(lia)).
Defined.

(** * Further properties of the Closure Builder *)

Lemma exact_range_pull : exact_range graph_pull 0.
Proof. by vm_compute. Defined.

Lemma is_int_0 : is_int 0.
Proof. by exists 0%Z. Defined.

(** ** Runs of buildClosure that push no flow *)

Section Idle.
Context (g : Graph) (p : Q) (adj0 : Adj) (F : Q) (adj : Adj) (reach : list bool).
Context (Hrun : closure_run g p adj0 F adj reach).

Lemma run_idle : ¬ connected adj0 source sink → F = 0 ∧ adj = adj0.
Proof.
  intros Hno.
  assert (Hs : (source < length adj0)%nat).
  { rewrite (run_length _ _ _ _ _ _ Hrun). unfold source, offset. lia. }
  destruct (bfs_total adj0 source (run_wf _ _ _ _ _ _ Hrun) Hs) as (level & Hb & Hbp).
  assert (Ht : level_reached level sink = false).
  { apply not_true_iff_false. intros Ht. apply Hno.
    by apply (connected_level _ _ _ _ Hbp). }
  pose proof (maxFlow_saturated adj0 source sink level Hb Ht) as H.
  rewrite (run_maxFlow _ _ _ _ _ _ Hrun) in H. by injection H.
Qed.

Lemma run_collect_nil :
  (∀ i, seen_at reach (i + offset) = false) → collect reach 0 (values g) = [].
Proof.
  intros H. apply elem_of_nil_inv. intros x (i & c & _ & _ & Hs)%collect_elem.
  rewrite (H (0 + i)%nat) in Hs. done.
Qed.

(** Nothing is worth more than [1e-9]: the source has no open edge. *)
Lemma run_worthless :
  (∀ c, c ∈ values g → profit_of p c <= EPS) →
  collect reach 0 (values g) = [].
Proof.
  intros Hall.
  assert (Hsrc : ∀ w, connected adj0 source w → w = source).
  { induction 1 as [|u i e _ IH He Hc]; [done |]. subst u.
    pose proof (run_slots _ _ _ _ _ _ Hrun _ _ _ He) as Hs.
    remember source as s0 eqn:Es. pose proof EPS_pos.
    inversion Hs as [idx c Hi Hsg H1 H2 H3 | idx c Hi Hsg H1 H2 H3
                    | idx c Hi Hsg H1 H2 H3 | idx c Hi Hsg H1 H2 H3
                    | d fi ti Hd Hfi Hti H1 H2 H3
                    | d fi ti Hd Hfi Hti H1 H2 H3];
      subst; unfold source, sink, offset in *; try lia.
    apply list_elem_of_lookup_2 in Hi. specialize (Hall c Hi).
    rewrite <- H3 in Hc. lra. }
  apply run_collect_nil. intros i. apply not_true_iff_false. intros Hseen.
  pose proof (run_reach _ _ _ _ _ _ Hrun) as Hrp.
  assert (adj = adj0) as E.
  { apply run_idle. intros Hc. apply Hsrc in Hc. done. }
  rewrite E in Hrp. apply (connected_reach _ _ _ _ Hrp) in Hseen.
  apply Hsrc in Hseen. unfold source, offset in Hseen. lia.
Qed.

(** Nothing has a negative profit: the sink has no open edge, and the
    reached chunks are the pulled ones. *)
Lemma run_harmless_idle :
  (∀ c, c ∈ values g → 0 <= profit_of p c) → adj = adj0.
Proof.
  intros Hall. apply run_idle. intros Hc.
  remember sink as w eqn:Ew. destruct Hc as [|u i e _ He Hcap].
  { done. }
  pose proof (run_slots _ _ _ _ _ _ Hrun _ _ _ He) as Hs. pose proof EPS_pos.
  inversion Hs as [idx c Hi Hsg H1 H2 H3 | idx c Hi Hsg H1 H2 H3
                  | idx c Hi Hsg H1 H2 H3 | idx c Hi Hsg H1 H2 H3
                  | d fi ti Hd Hfi Hti H1 H2 H3
                  | d fi ti Hd Hfi Hti H1 H2 H3];
    subst; unfold source, sink, offset in *; try lia.
  apply list_elem_of_lookup_2 in Hi. specialize (Hall c Hi).
  apply Qle_bool_false in Hsg. lra.
Qed.

Lemma run_pulled x :
  (∀ c, c ∈ values g → 0 <= profit_of p c) → NoDup (ids g) →
  x ∈ collect reach 0 (values g) ↔ pulled g p x.
Proof.
  intros Hall Hnd. pose proof (run_reach _ _ _ _ _ _ Hrun) as Hrp.
  rewrite (run_harmless_idle Hall) in Hrp. pose proof EPS_pos as Heps.
  split.
  - intros (i & c & Hi & <- & Hseen)%collect_elem. simpl in Hseen.
    assert (HY : (i + offset)%nat = source ∨
                 ∃ j c', values g !! j = Some c' ∧ (i + offset)%nat = (j + offset)%nat
                         ∧ pulled g p (Types.id c')).
    { apply (rp_sound _ _ _ Hrp
               (λ u, u = source ∨
                     ∃ j c', values g !! j = Some c' ∧ u = (j + offset)%nat
                             ∧ pulled g p (Types.id c'))); [by left | | done].
      intros u k e He Hcap HY.
      pose proof (run_slots _ _ _ _ _ _ Hrun _ _ _ He) as Hs.
      inversion Hs as [idx c0 Hi0 Hsg H1 H2 H3 | idx c0 Hi0 Hsg H1 H2 H3
                      | idx c0 Hi0 Hsg H1 H2 H3 | idx c0 Hi0 Hsg H1 H2 H3
                      | d fi ti Hd Hfi Hti H1 H2 H3
                      | d fi ti Hd Hfi Hti H1 H2 H3].
      + right. exists idx, c0. split; [done |]. split; [done |].
        apply pulled_profit; [by eapply list_elem_of_lookup_2 |]. by rewrite H3.
      + rewrite <- H3 in Hcap. lra.
      + apply list_elem_of_lookup_2 in Hi0. specialize (Hall c0 Hi0).
        apply Qle_bool_false in Hsg. lra.
      + rewrite <- H3 in Hcap. lra.
      + destruct HY as [-> | (j & c' & Hj & -> & Hp)];
          [unfold source, offset in H1; lia |].
        assert (fi = j) by lia. subst j.
        destruct (findIndex_Some _ _ _ Hfi) as (cf & Hcf & Hidf).
        destruct (findIndex_Some _ _ _ Hti) as (ct & Hct & Hidt).
        assert (cf = c') by congruence. subst cf.
        right. exists ti, ct. split; [done |]. split; [done |].
        rewrite Hidt. apply pulled_dep; [done | by rewrite <- Hidf |].
        rewrite <- Hidt. unfold ids. apply list_elem_of_fmap_2.
        by eapply list_elem_of_lookup_2.
      + rewrite <- H3 in Hcap. lra. }
    destruct HY as [Heq | (j & c' & Hj & Heq & Hp)].
    + unfold source, offset in Heq. lia.
    + assert (j = i) by lia. subst j. by simplify_eq.
  - induction 1 as [c Hc Hp | d Hd _ IH Hto].
    + apply list_elem_of_lookup in Hc as [i Hi].
      apply collect_elem. exists i, c. split; [done |]. split; [done |].
      destruct (run_srcs _ _ _ _ _ _ Hrun i c) as (k & e & He & Hte & Hcap).
      * by eapply lookup_lt_Some.
      * done.
      * apply Qle_bool_iff. lra.
      * simpl. rewrite <- Hte.
        eapply (rp_closed _ _ _ Hrp); [exact He | by rewrite Hcap | apply Hrp].
    + apply collect_elem in IH as (i & c & Hi & Hid & Hseen). simpl in Hseen.
      pose proof (findIndex_NoDup _ _ _ Hnd Hi) as Hfi. rewrite Hid in Hfi.
      destruct (findIndex_elem _ _ Hto) as [ti Hti].
      destruct (findIndex_Some _ _ _ Hti) as (ct & Hct & Hidt).
      destruct (run_deps _ _ _ _ _ _ Hrun d i ti Hd Hfi Hti) as (k & e & He & Hte & Hcap).
      apply collect_elem. exists ti, ct. split; [done |]. split; [done |].
      simpl. rewrite <- Hte.
      eapply (rp_closed _ _ _ Hrp); [exact He | | done].
      rewrite Hcap. pose proof (INF_of_ge_1 (weight_or0 <$> values g) p).
      unfold EPS in *. lra.
Qed.
End Idle.

(** ** Closed lists of ids as cuts *)

Lemma seen_marks g l i :
  seen_at (marks_of g l) (i + offset)
  = match values g !! i with
    | Some c => bool_decide (Types.id c ∈ l)
    | None => false
    end.
Proof.
  unfold seen_at, marks_of, offset.
  replace (i + 2)%nat with (S (S i)) by lia.
  change ((true :: false :: ?l) !! S (S i)) with (l !! i).
  rewrite list_lookup_fmap. by destruct (values g !! i).
Qed.

Lemma marks_closed_cut g l : closed_in g l → closed_cut g (seen_at (marks_of g l)).
Proof.
  intros Hcl. split; [done | done |].
  intros d fi ti Hd Hfi Hti. rewrite !seen_marks.
  destruct (findIndex_Some _ _ _ Hfi) as (cf & -> & Hidf).
  destruct (findIndex_Some _ _ _ Hti) as (ct & Hct & Hidt). rewrite Hct.
  rewrite !bool_decide_eq_true, Hidf, Hidt. apply Hcl; [done |].
  rewrite <- Hidt. unfold ids. apply list_elem_of_fmap_2.
  by eapply list_elem_of_lookup_2.
Qed.

Lemma collect_ext r1 r2 idx chunks :
  (∀ i, (i < length chunks)%nat →
        seen_at r1 (idx + i + offset) = seen_at r2 (idx + i + offset)) →
  collect r1 idx chunks = collect r2 idx chunks.
Proof.
  revert idx. induction chunks as [|c chunks IH]; intros idx H; simpl; [done |].
  pose proof (H 0%nat ltac:(simpl; lia)) as H0. rewrite Nat.add_0_r in H0.
  rewrite H0, (IH (S idx)); [done |].
  intros i Hi. replace (S idx + i)%nat with (idx + S i)%nat by lia.
  apply H. simpl. lia.
Qed.

Lemma filter_ext_in {A} (P Q : A → Prop) `{∀ x, Decision (P x)}
  `{∀ x, Decision (Q x)} (l : list A) :
  (∀ x, x ∈ l → P x ↔ Q x) → filter P l = filter Q l.
Proof.
  induction l as [|x l IH]; intros Hpq; [done |]. rewrite !filter_cons.
  rewrite IH by (intros y Hy; apply Hpq; by right).
  pose proof (Hpq x (list_elem_of_here _ _)) as Hx.
  destruct (decide (P x)), (decide (Q x)); tauto.
Qed.

Lemma filter_fmap_id (P : string → Prop) `{∀ x, Decision (P x)}
  (chunks : list Chunk) :
  filter P (Types.id <$> chunks) = Types.id <$> filter (λ c, P (Types.id c)) chunks.
Proof.
  induction chunks as [|c chunks IH]; [done |].
  rewrite fmap_cons, !filter_cons, IH.
  by destruct (decide (P (Types.id c))).
Qed.

Lemma filter_sublist_id (l ids0 : list string) :
  NoDup ids0 → sublist l ids0 →
  filter (λ x, x ∈ l) ids0 = l.
Proof.
  intros Hnd Hsub. induction Hsub as [|x l1 l2 Hsub IH|x l1 l2 Hsub IH].
  - done.
  - apply NoDup_cons in Hnd as [Hx Hnd]. rewrite filter_cons.
    rewrite decide_True by (by left). f_equal.
    transitivity (filter (λ y, y ∈ l1) l2); [| by apply IH].
    apply filter_ext_in. intros y Hy. rewrite elem_of_cons.
    split; [| by right]. intros [-> | ?]; done.
  - apply NoDup_cons in Hnd as [Hx Hnd]. rewrite filter_cons.
    rewrite decide_False; [by apply IH |].
    intros Hxl. apply Hx. by eapply sublist_subseteq.
Qed.

Lemma collect_marks g l :
  NoDup (ids g) → sublist l (ids g) → collect (marks_of g l) 0 (values g) = l.
Proof.
  intros Hnd Hsub.
  rewrite (collect_filter _ (λ c, bool_decide (Types.id c ∈ l))).
  - transitivity (filter (λ x, x ∈ l) (ids g));
      [| by apply filter_sublist_id].
    unfold ids. rewrite filter_fmap_id. f_equal. apply list_filter_iff.
    intros c. by rewrite bool_decide_eq_true.
  - intros i c Hi. change (0 + i + offset)%nat with (i + offset)%nat.
    by rewrite seen_marks, Hi.
Qed.

(** Profit of a node set in terms of the weight and the number of the
    collected ids. *)
Lemma profit_sum_collect g reach p :
  wf_graph g →
  profit_sum (seen_at reach) p 0 (values g)
  == total_of g (collect reach 0 (values g))
     - p * inject_Z (Z.of_nat (length (collect reach 0 (values g)))).
Proof.
  intros Hwf. rewrite total_of_collect by done.
  generalize 0%nat. induction (values g) as [|c chunks IH]; intros idx;
    cbn [profit_sum collect].
  - change (inject_Z (Z.of_nat (length []))) with 0. lra.
  - rewrite (IH (S idx)). unfold profit_of.
    pose proof (nsub_eq (weight_or0 c) p). pose proof (nsub_eq (weight_or0 c) 0).
    destruct (seen_at reach (idx + offset)).
    + cbn [length]. rewrite Nat2Z.inj_succ, <- Z.add_1_r, inject_Z_plus.
      change (inject_Z 1) with 1. lra.
    + lra.
Qed.

Lemma profit_of_eq p c : profit_of p c == weight_or0 c - p.
Proof. apply nsub_eq. Qed.

(** X11.  When no chunk is worth more than [1e-9] above the penalty,
    [buildClosure] returns the empty closure with total weight 0,
    whatever the dependencies are. *)
Theorem buildClosure_worthless g p :
  Forall (λ c, weight_or0 c - p <= EPS) (values g) →
  buildClosure g p = Some (Types.mkSolution [] 0 0 (Some p)).
Proof.
  intros Hall. destruct (decide (values g = [])) as [E|E].
  { by apply buildClosure_empty. }
  destruct (buildClosure_run g p) as (adj0 & F & adj & reach & Hrun);
    [done |].
  rewrite (run_result _ _ _ _ _ _ Hrun).
  rewrite (run_worthless g p adj0 F adj reach Hrun); [done |].
  intros c Hc. rewrite profit_of_eq.
  by apply (proj1 (Forall_forall _ _) Hall).
Qed.

Lemma buildClosure_worthless_witness :
  Forall (λ c, weight_or0 c - 10 <= EPS) (values graph_pull) ∧
  buildClosure graph_pull 10 = Some (Types.mkSolution [] 0 0 (Some 10)).
Proof.
  assert (H : Forall (λ c, weight_or0 c - 10 <= EPS) (values graph_pull))
    by (repeat constructor; unfold Qle; simpl; lia).
  exact (conj H (buildClosure_worthless graph_pull 10 H)).
Defined.

Lemma harmless_closure g p :
  wf_graph g → Forall (λ c, p <= weight_or0 c) (values g) →
  ∃ sol, buildClosure g p = Some sol ∧
         ∀ x, x ∈ Types.closure sol ↔ pulled g p x.
Proof.
  intros Hwf Hall. destruct (decide (values g = [])) as [E|E].
  { rewrite buildClosure_empty by done. eexists. split; [done |].
    intros x. cbn [Types.closure]. split; [by intros ?%elem_of_nil |].
    assert (Hno : ∀ c, c ∉ values g) by (rewrite E; intros c ?%elem_of_nil; done).
    assert (Hid : ∀ y, y ∉ ids g)
      by (unfold ids; rewrite E; intros y ?%elem_of_nil; done).
    induction 1 as [c Hc | d _ _ _ Hto]; [by apply Hno in Hc | by apply Hid in Hto]. }
  destruct (buildClosure_run g p) as (adj0 & F & adj & reach & Hrun);
    [done |].
  rewrite (run_result _ _ _ _ _ _ Hrun). eexists. split; [done |].
  intros x. cbn [Types.closure].
  apply (run_pulled g p adj0 F adj reach Hrun); [| by apply wf_ids_NoDup].
  intros c Hc. rewrite profit_of_eq.
  pose proof (proj1 (Forall_forall _ _) Hall c Hc) as H. simpl in H. lra.
Qed.

(** X12.  When no chunk has a negative weight, the closure of
    [maximumWeightClosure] consists of the chunks that weigh more than
    [1e-9] and of everything they depend on, directly or through other
    chunks. *)
Theorem maximumWeightClosure_harmless g :
  wf_graph g → Forall (λ c, 0 <= weight_or0 c) (values g) →
  ∃ sol, maximumWeightClosure g = Some sol ∧
         ∀ x, x ∈ Types.closure sol ↔ pulled g 0 x.
Proof. intros Hwf Hall. exact (harmless_closure g 0 Hwf Hall). Qed.

Lemma maximumWeightClosure_harmless_witness :
  wf_graph graph_chain ∧ Forall (λ c, 0 <= weight_or0 c) (values graph_chain) ∧
  ∃ sol, maximumWeightClosure graph_chain = Some sol ∧
         ∀ x, x ∈ Types.closure sol ↔ pulled graph_chain 0 x.
Proof.
  assert (H : Forall (λ c, 0 <= weight_or0 c) (values graph_chain))
    by (repeat constructor; unfold Qle; simpl; lia).
  split; [exact wf_graph_chain |]. split; [exact H |].
  exact (maximumWeightClosure_harmless graph_chain wf_graph_chain H).
Defined.

(** The objective that [buildClosure] maximises at penalty [p]. *)
Lemma run_objective g p adj0 F adj reach :
  wf_graph g → closure_run g p adj0 F adj reach →
  ∀ l, sublist l (ids g) → closed_in g l →
       closed_cut g (seen_at (marks_of g l)) ∧
       profit_sum (seen_at (marks_of g l)) p 0 (values g)
       == total_of g l - p * inject_Z (Z.of_nat (length l)).
Proof.
  intros Hwf Hrun l Hsub Hcl. split; [by apply marks_closed_cut |].
  rewrite profit_sum_collect by done.
  by rewrite collect_marks by (try done; by apply wf_ids_NoDup).
Qed.

(** X13.  With integer weights and an integer penalty [p], [INF] being
    at most 2^53 at [p] and at 0, the closure of [buildClosure] is a
    best one: it is itself a list of chunk ids, in chunk order and
    closed under the dependencies, and no such list has a larger total
    weight less [p] per member.  At [p = 0] this is the largest total
    weight. *)
Theorem buildClosure_optimal g p :
  wf_graph g → int_weights g → is_int p →
  exact_range g p → exact_range g 0 →
  ∃ sol, buildClosure g p = Some sol ∧
         sublist (Types.closure sol) (ids g) ∧ closed_in g (Types.closure sol) ∧
         ∀ l, sublist l (ids g) → closed_in g l →
              total_of g l - p * inject_Z (Z.of_nat (length l))
              <= Types.totalWeight sol
                 - p * inject_Z (Z.of_nat (Types.size sol)).
Proof.
  intros Hwf Hint Hp _ _. pose proof (wf_ids_NoDup g Hwf) as Hnd.
  destruct (buildClosure_total g p) as [sol Hsol]. exists sol. split; [done |].
  pose proof (buildClosure_built _ _ _ Hsol) as [Hsub Hsize Htot Hcl].
  split; [done |]. split; [by apply Hcl |]. intros l Hl Hlc.
  destruct (decide (values g = [])) as [E|E].
  { unfold ids in Hl. rewrite E in Hl. apply sublist_nil_r in Hl. subst l.
    rewrite buildClosure_empty in Hsol by done. injection Hsol as <-.
    cbn. lra. }
  destruct (buildClosure_run g p) as (adj0 & F & adj & reach & Hrun);
    [done |].
  rewrite (run_result _ _ _ _ _ _ Hrun) in Hsol. injection Hsol as <-.
  cbn [Types.totalWeight Types.size].
  destruct (run_objective g p adj0 F adj reach Hwf Hrun l Hl Hlc) as [Hcut Hobj].
  pose proof (run_optimal _ _ _ _ _ _ Hrun Hint Hp _ Hcut) as Hopt.
  by rewrite Hobj, profit_sum_collect in Hopt by done.
Qed.

Lemma buildClosure_optimal_witness :
  wf_graph graph_pull ∧ int_weights graph_pull ∧ is_int 0 ∧
  exact_range graph_pull 0 ∧ exact_range graph_pull 0 ∧
  ∃ sol, buildClosure graph_pull 0 = Some sol ∧
         sublist (Types.closure sol) (ids graph_pull) ∧
         closed_in graph_pull (Types.closure sol) ∧
         ∀ l, sublist l (ids graph_pull) → closed_in graph_pull l →
              total_of graph_pull l - 0 * inject_Z (Z.of_nat (length l))
              <= Types.totalWeight sol
                 - 0 * inject_Z (Z.of_nat (Types.size sol)).
Proof.
  split; [exact wf_graph_pull |]. split; [exact int_weights_pull |].
  split; [exact is_int_0 |].
  split; [exact exact_range_pull |]. split; [exact exact_range_pull |].
  exact (buildClosure_optimal graph_pull 0 wf_graph_pull int_weights_pull is_int_0
           exact_range_pull exact_range_pull).
Defined.

(** X14.  With integer weights and an integer penalty [p], [INF] being
    at most 2^53 at [p] and at 0, the closure of [buildClosure] is the
    smallest of the best ones: it is contained in every closed list of
    chunk ids that does as well. *)
Theorem buildClosure_least g p :
  wf_graph g → int_weights g → is_int p →
  exact_range g p → exact_range g 0 →
  ∃ sol, buildClosure g p = Some sol ∧
         ∀ l, sublist l (ids g) → closed_in g l →
              Types.totalWeight sol - p * inject_Z (Z.of_nat (Types.size sol))
              <= total_of g l - p * inject_Z (Z.of_nat (length l)) →
              sublist (Types.closure sol) l.
Proof.
  intros Hwf Hint Hp _ _. pose proof (wf_ids_NoDup g Hwf) as Hnd.
  destruct (decide (values g = [])) as [E|E].
  { rewrite buildClosure_empty by done. eexists. split; [done |].
    intros l _ _ _. apply sublist_nil_l. }
  destruct (buildClosure_run g p) as (adj0 & F & adj & reach & Hrun);
    [done |].
  rewrite (run_result _ _ _ _ _ _ Hrun). eexists. split; [done |].
  cbn [Types.totalWeight Types.size Types.closure]. intros l Hl Hlc Hle.
  destruct (run_objective g p adj0 F adj reach Hwf Hrun l Hl Hlc) as [Hcut Hobj].
  assert (Hgoal : sublist (collect reach 0 (values g))
                    (collect (marks_of g l) 0 (values g)));
    [| by rewrite (collect_marks g l Hnd Hl) in Hgoal].
  apply collect_mono.
  apply (run_least _ _ _ _ _ _ Hrun Hint Hp _ Hcut).
  by rewrite Hobj, profit_sum_collect by done.
Qed.

Lemma buildClosure_least_witness :
  wf_graph graph_pull ∧ int_weights graph_pull ∧ is_int 0 ∧
  exact_range graph_pull 0 ∧ exact_range graph_pull 0 ∧
  ∃ sol, buildClosure graph_pull 0 = Some sol ∧
         ∀ l, sublist l (ids graph_pull) → closed_in graph_pull l →
              Types.totalWeight sol - 0 * inject_Z (Z.of_nat (Types.size sol))
              <= total_of graph_pull l - 0 * inject_Z (Z.of_nat (length l)) →
              sublist (Types.closure sol) l.
Proof.
  split; [exact wf_graph_pull |]. split; [exact int_weights_pull |].
  split; [exact is_int_0 |].
  split; [exact exact_range_pull |]. split; [exact exact_range_pull |].
  exact (buildClosure_least graph_pull 0 wf_graph_pull int_weights_pull is_int_0
           exact_range_pull exact_range_pull).
Defined.

(** ** The result depends on the set of dependencies only *)

Lemma closed_cut_edges cs e1 e2 X :
  (∀ d, d ∈ e2 → d ∈ e1) →
  closed_cut (Types.mkGraph cs e1) X → closed_cut (Types.mkGraph cs e2) X.
Proof.
  intros Hsub [H1 H2 H3]. split; [done | done |].
  intros d fi ti Hd. apply H3. by apply Hsub.
Qed.

Lemma run_same_edges cs e1 e2 p a1 F1 b1 r1 a2 F2 b2 r2 :
  int_weights (Types.mkGraph cs e1) → is_int p →
  (∀ d, d ∈ e1 ↔ d ∈ e2) →
  closure_run (Types.mkGraph cs e1) p a1 F1 b1 r1 →
  closure_run (Types.mkGraph cs e2) p a2 F2 b2 r2 →
  ∀ u, seen_at r1 u = true → seen_at r2 u = true.
Proof.
  intros Hint Hp Hiff Hrun1 Hrun2.
  assert (Hint2 : int_weights (Types.mkGraph cs e2)) by done.
  pose proof (run_closed_cut _ _ _ _ _ _ Hrun1) as Hc1.
  pose proof (run_closed_cut _ _ _ _ _ _ Hrun2) as Hc2.
  assert (Hc12 : closed_cut (Types.mkGraph cs e2) (seen_at r1)).
  { eapply closed_cut_edges; [| exact Hc1]. intros d. apply Hiff. }
  assert (Hc21 : closed_cut (Types.mkGraph cs e1) (seen_at r2)).
  { eapply closed_cut_edges; [| exact Hc2]. intros d. apply Hiff. }
  apply (run_least _ _ _ _ _ _ Hrun1 Hint Hp _ Hc21).
  exact (run_optimal _ _ _ _ _ _ Hrun2 Hint2 Hp _ Hc12).
Qed.

(** X15.  With integer weights and an integer penalty, [INF] being at
    most 2^53, the result of [buildClosure] depends on the dependencies
    as a set only: neither their order nor a repeated dependency
    changes it. *)
Theorem buildClosure_edge_set g1 g2 p :
  int_weights g1 → is_int p → exact_range g1 p →
  Types.chunks g1 = Types.chunks g2 →
  (∀ d, d ∈ Types.edges g1 ↔ d ∈ Types.edges g2) →
  buildClosure g1 p = buildClosure g2 p.
Proof.
  destruct g1 as [cs e1], g2 as [cs2 e2]. cbn [Types.chunks Types.edges].
  intros Hint Hp _ <- Hiff.
  destruct (decide (values (Types.mkGraph cs e1) = [])) as [E|E].
  { rewrite !buildClosure_empty; done. }
  destruct (buildClosure_run (Types.mkGraph cs e1) p)
    as (a1 & F1 & b1 & r1 & Hrun1); [done |].
  destruct (buildClosure_run (Types.mkGraph cs e2) p)
    as (a2 & F2 & b2 & r2 & Hrun2); [done |].
  rewrite (run_result _ _ _ _ _ _ Hrun1), (run_result _ _ _ _ _ _ Hrun2).
  assert (Hcol : collect r1 0 (values (Types.mkGraph cs e1))
                 = collect r2 0 (values (Types.mkGraph cs e2))).
  { change (values (Types.mkGraph cs e2)) with (values (Types.mkGraph cs e1)).
    apply collect_ext. intros i _.
    destruct (seen_at r1 (0 + i + offset)) eqn:E1.
    - symmetry. by eapply run_same_edges.
    - symmetry. apply not_true_iff_false. intros E2.
      assert (seen_at r1 (0 + i + offset) = true); [| congruence].
      eapply (run_same_edges cs e2 e1); done. }
  rewrite Hcol. done.
Qed.

Lemma buildClosure_edge_set_witness :
  int_weights graph_pull ∧ is_int 0 ∧ exact_range graph_pull 0 ∧
  Types.chunks graph_pull = Types.chunks graph_pull_twice ∧
  (∀ d, d ∈ Types.edges graph_pull ↔ d ∈ Types.edges graph_pull_twice) ∧
  buildClosure graph_pull 0 = buildClosure graph_pull_twice 0.
Proof.
  assert (H : ∀ d, d ∈ Types.edges graph_pull
                   ↔ d ∈ Types.edges graph_pull_twice).
  { intros d. simpl. rewrite !elem_of_cons. tauto. }
  split; [exact int_weights_pull |]. split; [exact is_int_0 |].
  split; [exact exact_range_pull |].
  split; [reflexivity |]. split; [exact H |].
  exact (buildClosure_edge_set graph_pull graph_pull_twice 0 int_weights_pull
           is_int_0 exact_range_pull eq_refl H).
Defined.

(** ** Nothing useless is selected *)

Section Useful.
Context (g : Graph) (p : Q) (adj0 : Adj) (F : Q) (adj : Adj) (reach : list bool).
Context (Hrun : closure_run g p adj0 F adj reach).

(** What the source can reach in the network before any flow. *)
Lemma run_connected0 u :
  connected adj0 source u →
  u = source ∨ u = sink ∨
  ∃ i c, values g !! i = Some c ∧ u = (i + offset)%nat ∧ pulled g p (Types.id c).
Proof.
  pose proof EPS_pos as Heps.
  induction 1 as [|u k e _ IH He Hcap]; [by left |].
  pose proof (run_slots _ _ _ _ _ _ Hrun _ _ _ He) as Hs.
  inversion Hs as [idx c0 Hi0 Hsg H1 H2 H3 | idx c0 Hi0 Hsg H1 H2 H3
                  | idx c0 Hi0 Hsg H1 H2 H3 | idx c0 Hi0 Hsg H1 H2 H3
                  | d fi ti Hd Hfi Hti H1 H2 H3
                  | d fi ti Hd Hfi Hti H1 H2 H3].
  - right; right. exists idx, c0. split; [done |]. split; [done |].
    apply pulled_profit; [by eapply list_elem_of_lookup_2 |]. by rewrite H3.
  - rewrite <- H3 in Hcap. lra.
  - right; by left.
  - rewrite <- H3 in Hcap. lra.
  - destruct IH as [-> | [-> | (j & c' & Hj & -> & Hp)]];
      [unfold source, offset in H1; lia | unfold sink, offset in H1; lia |].
    assert (fi = j) by lia. subst j.
    destruct (findIndex_Some _ _ _ Hfi) as (cf & Hcf & Hidf).
    destruct (findIndex_Some _ _ _ Hti) as (ct & Hct & Hidt).
    assert (cf = c') by congruence. subst cf.
    right; right. exists ti, ct. split; [done |]. split; [done |].
    rewrite Hidt. apply pulled_dep; [done | by rewrite <- Hidf |].
    rewrite <- Hidt. unfold ids. apply list_elem_of_fmap_2.
    by eapply list_elem_of_lookup_2.
  - rewrite <- H3 in Hcap. lra.
Qed.

Lemma profit_sum_nonpos (X : nat → bool) idx chunks :
  (∀ i c, chunks !! i = Some c → X (idx + i + offset)%nat = true →
          profit_of p c <= 0) →
  profit_sum X p idx chunks <= 0.
Proof.
  revert idx. induction chunks as [|c chunks IH]; intros idx H;
    cbn [profit_sum]; [lra |].
  assert (Hrest : profit_sum X p (S idx) chunks <= 0).
  { apply IH. intros i c' Hi Hx. apply (H (S i) c' Hi).
    by replace (idx + S i)%nat with (S idx + i)%nat by lia. }
  destruct (X (idx + offset)%nat) eqn:Hx; [| lra].
  pose proof (H 0%nat c eq_refl) as H0. rewrite Nat.add_0_r in H0.
  specialize (H0 Hx). lra.
Qed.

Lemma run_useful x :
  int_weights g → is_int p →
  x ∈ collect reach 0 (values g) → pulled g p x.
Proof.
  intros Hint Hp (i & c & Hi & <- & Hseen)%collect_elem. simpl in Hseen.
  assert (Hs0 : (source < length adj0)%nat).
  { rewrite (run_length _ _ _ _ _ _ Hrun). unfold source, offset. lia. }
  destruct (reachable_total adj0 source (run_wf _ _ _ _ _ _ Hrun) Hs0)
    as (r0 & _ & Hr0).
  pose proof (run_closed_cut _ _ _ _ _ _ Hrun) as Hcc.
  set (X := λ u, seen_at r0 u && seen_at reach u).
  assert (HX : closed_cut g X).
  { split.
    - unfold X. by rewrite (rp_src _ _ _ Hr0), (cc_source _ _ Hcc).
    - unfold X. by rewrite (cc_sink _ _ Hcc), andb_false_r.
    - intros d fi ti Hd Hfi Hti [H1 H2]%andb_true_iff. unfold X.
      rewrite (cc_deps _ _ Hcc d fi ti Hd Hfi Hti H2), andb_true_r.
      destruct (run_deps _ _ _ _ _ _ Hrun d fi ti Hd Hfi Hti)
        as (k & e & He & Hte & Hcap).
      rewrite <- Hte. apply (rp_closed _ _ _ Hr0 _ k e He); [| done].
      rewrite Hcap. pose proof (INF_of_ge_1 (weight_or0 <$> values g) p).
      unfold EPS. lra. }
  assert (Hle : profit_sum (seen_at reach) p 0 (values g)
                <= profit_sum X p 0 (values g)).
  { rewrite (profit_sum_split (seen_at r0) (seen_at reach)).
    assert (profit_sum (λ u, seen_at reach u && negb (seen_at r0 u)) p 0 (values g)
            <= 0); [| unfold X; lra].
    apply profit_sum_nonpos. intros j c' Hj Hx. simpl in Hx.
    apply andb_true_iff in Hx as [_ Hn0]. apply negb_true_iff in Hn0.
    destruct (Qlt_le_dec 0 (profit_of p c')) as [Hpos | ?]; [| done].
    exfalso.
    assert (Hi' : is_int (profit_of p c')).
    { unfold profit_of. eapply (grid_eq _ is_int_grid); [symmetry; apply nsub_eq |].
      apply (grid_sub _ is_int_grid); [| done].
      exact (Forall_lookup_1 _ _ _ _ Hint Hj). }
    assert (Heps : EPS < profit_of p c').
    { apply Qnot_le_lt. intros Hsmall.
      pose proof (is_int_small _ Hi' (Qlt_le_weak _ _ Hpos) Hsmall). lra. }
    destruct (run_srcs _ _ _ _ _ _ Hrun j c') as (k & e & He & Hte & Hcap).
    + by eapply lookup_lt_Some.
    + done.
    + apply Qle_bool_iff. lra.
    + assert (seen_at r0 (to e) = true).
      { apply (rp_closed _ _ _ Hr0 _ k e He); [by rewrite Hcap | apply Hr0]. }
      rewrite Hte in H. congruence. }
  pose proof (run_least _ _ _ _ _ _ Hrun Hint Hp X HX Hle _ Hseen) as Hx.
  apply andb_true_iff in Hx as [Hx _].
  apply (connected_reach _ _ _ _ Hr0) in Hx.
  destruct (run_connected0 _ Hx) as [E | [E | (j & c' & Hj & E & Hpl)]].
  - unfold source, offset in E. lia.
  - unfold sink, offset in E. lia.
  - assert (j = i) by lia. subst j. by simplify_eq.
Qed.
End Useful.

(** X28.  With integer weights and an integer penalty [buildClosure]
    selects nothing useless: every chunk of the closure weighs more
    than the penalty or is needed, directly or through other chunks, by
    a chunk that does. *)
Theorem buildClosure_useful g p :
  int_weights g → is_int p →
  ∃ sol, buildClosure g p = Some sol ∧
         ∀ x, x ∈ Types.closure sol → pulled g p x.
Proof.
  intros Hint Hp. destruct (decide (values g = [])) as [E|E].
  { rewrite buildClosure_empty by done. eexists. split; [done |].
    by intros x ?%elem_of_nil. }
  destruct (buildClosure_run g p) as (adj0 & F & adj & reach & Hrun); [done |].
  rewrite (run_result _ _ _ _ _ _ Hrun). eexists. split; [done |].
  intros x. cbn [Types.closure]. by apply (run_useful g p adj0 F adj reach Hrun).
Qed.

Lemma buildClosure_useful_witness :
  int_weights graph_pull ∧ is_int 0 ∧
  ∃ sol, buildClosure graph_pull 0 = Some sol ∧
         ∀ x, x ∈ Types.closure sol → pulled graph_pull 0 x.
Proof.
  split; [exact int_weights_pull |]. split; [exact is_int_0 |].
  exact (buildClosure_useful graph_pull 0 int_weights_pull is_int_0).
Defined.

(** ** What the solver reads of a graph *)

Lemma findIndex_ids cs x :
  findIndex cs x = fst <$> list_find (λ y, y = x) (Types.id <$> cs).
Proof.
  unfold findIndex. rewrite list_find_fmap.
  by destruct (list_find _ cs) as [[? ?]|].
Qed.

Lemma add_chunk_edges_ext p cs1 :
  ∀ cs2 idx adj, weight_or0 <$> cs1 = weight_or0 <$> cs2 →
    add_chunk_edges p idx cs1 adj = add_chunk_edges p idx cs2 adj.
Proof.
  induction cs1 as [|c1 cs1 IH]; intros [|c2 cs2] idx adj H; try done.
  rewrite !fmap_cons in H. injection H as Hw H. cbn [add_chunk_edges].
  rewrite Hw. destruct (if Qle_bool 0 _ then _ else _); simpl; [| done].
  by apply IH.
Qed.

Lemma add_dep_edges_ext cs1 cs2 INF es :
  Types.id <$> cs1 = Types.id <$> cs2 →
  ∀ adj, add_dep_edges cs1 INF es adj = add_dep_edges cs2 INF es adj.
Proof.
  intros H. induction es as [|e es IH]; intros adj; [done |].
  cbn [add_dep_edges]. rewrite !(findIndex_ids cs1), H, <- !(findIndex_ids cs2).
  destruct (match findIndex cs2 _ with Some _ => _ | None => _ end); simpl; [| done].
  apply IH.
Qed.

Lemma collect_ids reach cs1 :
  ∀ cs2 idx, Types.id <$> cs1 = Types.id <$> cs2 →
             collect reach idx cs1 = collect reach idx cs2.
Proof.
  induction cs1 as [|c1 cs1 IH]; intros [|c2 cs2] idx H; try done.
  rewrite !fmap_cons in H. injection H as Hi H. cbn [collect].
  rewrite Hi, (IH cs2 (S idx) H). done.
Qed.

Opaque search.

Section SameView.
Context (g1 g2 : Graph).
Context (Hedges : Types.edges g1 = Types.edges g2).
Context (Hids : Types.id <$> values g1 = Types.id <$> values g2).
Context (Hws : weight_or0 <$> values g1 = weight_or0 <$> values g2).
Context (Hlk : ∀ i, lookup_weight g1 i = lookup_weight g2 i).

Lemma view_length : length (values g1) = length (values g2).
Proof. by rewrite <- (length_fmap Types.id), Hids, length_fmap. Qed.

Lemma view_total ids : total_of g1 ids = total_of g2 ids.
Proof.
  unfold total_of. generalize 0. induction ids as [|i ids IH]; intros a; [done |].
  simpl. by rewrite Hlk, IH.
Qed.

Lemma view_buildClosure p : buildClosure g1 p = buildClosure g2 p.
Proof.
  unfold buildClosure, network. rewrite view_length, Hws, Hedges.
  destruct (decide (length (values g2) = 0%nat)); [done |].
  rewrite (add_chunk_edges_ext p (values g1) (values g2)) by done.
  destruct (add_chunk_edges p 0 (values g2) _) as [adj1|]; simpl; [| done].
  rewrite (add_dep_edges_ext (values g1) (values g2)) by done.
  destruct (add_dep_edges (values g2) _ _ adj1) as [adj|]; simpl; [| done].
  destruct (maxFlow adj source sink) as [[F adj']|]; simpl; [| done].
  destruct (reachable adj' source) as [reach|]; simpl; [| done].
  rewrite (collect_ids reach (values g1) (values g2)) by done.
  by rewrite view_total.
Qed.

Lemma view_weights_of ids : weights_of g1 ids = weights_of g2 ids.
Proof.
  unfold weights_of. generalize (∅ : gmap string Q).
  induction ids as [|i ids IH]; intros m; [done |]. simpl. by rewrite Hlk, IH.
Qed.

Lemma view_enforce ids k : enforceSizeLimit g1 ids k = enforceSizeLimit g2 ids k.
Proof.
  unfold enforceSizeLimit, trimmed. by rewrite view_weights_of, Hedges.
Qed.

Opaque buildClosure enforceSizeLimit.

Lemma view_search k n :
  ∀ low high best, search g1 k n low high best = search g2 k n low high best.
Proof.
  induction n as [|n IH]; intros low high best; [by rewrite !search_0 |].
  rewrite !search_eq, view_buildClosure.
  destruct (buildClosure g2 _) as [c|]; cbn [mbind option_bind]; [| done].
  destruct (k <? Z.of_nat (Types.size c))%Z; apply IH.
Qed.

Lemma view_search_from n k : search_from n g1 k = search_from n g2 k.
Proof.
  unfold search_from, maximumWeightClosure. rewrite Hws.
  destruct (min_list _) as [minW|]; cbn [mbind option_bind]; [| done].
  destruct (max_list _) as [maxW|]; cbn [mbind option_bind]; [| done].
  rewrite view_search.
  destruct (search g2 k n _ _ None) as [[b|]|]; cbn [mbind option_bind];
    [done | apply view_buildClosure | done].
Qed.

Opaque search_from.

Lemma view_solve k : solveClosureBySize g1 k = solveClosureBySize g2 k.
Proof.
  unfold solveClosureBySize, search_final, maximumWeightClosure.
  rewrite view_length, view_search_from.
  destruct (_ || _); [done |].
  destruct (_ <=? k)%Z; [apply view_buildClosure |].
  destruct (search_from 36 g2 k) as [b|]; cbn [mbind option_bind]; [| done].
  by rewrite view_enforce, !view_total.
Qed.
End SameView.

Transparent search buildClosure enforceSizeLimit search_from.

Lemma default_values g :
  values (with_default_weights g)
  = (λ c, Types.mkChunk (Types.id c) (Some (weight_or0 c))) <$> values g.
Proof.
  unfold values, with_default_weights. cbn [Types.chunks].
  rewrite <- !list_fmap_compose. by apply list_fmap_ext.
Qed.

Lemma default_lookup g i :
  lookup_weight (with_default_weights g) i = lookup_weight g i.
Proof.
  unfold lookup_weight, with_default_weights. cbn [Types.chunks].
  rewrite list_find_fmap.
  by destruct (list_find _ (Types.chunks g)) as [[? [? ?]]|].
Qed.

(** X16.  A chunk without a weight is treated as a chunk of weight 0:
    writing the missing weights out as 0 changes neither the result of
    [buildClosure] nor that of [solveClosureBySize]. *)
Theorem missing_weight_is_zero g p k :
  buildClosure (with_default_weights g) p = buildClosure g p ∧
  solveClosureBySize (with_default_weights g) k = solveClosureBySize g k.
Proof.
  assert (Hids : Types.id <$> values (with_default_weights g)
                 = Types.id <$> values g).
  { rewrite default_values, <- list_fmap_compose. by apply list_fmap_ext. }
  assert (Hws : weight_or0 <$> values (with_default_weights g)
                = weight_or0 <$> values g).
  { rewrite default_values, <- list_fmap_compose. by apply list_fmap_ext. }
  split.
  - apply view_buildClosure; [done | done | done | apply default_lookup].
  - apply view_solve; [done | done | done | apply default_lookup].
Qed.

(** * Further properties of the Size Enforcer *)

Lemma abc_NoDup : NoDup ["A"; "B"; "C"].
Proof. compute_done. Defined.

(** ** More on the Size Enforcer *)

Lemma set_of_id ids : NoDup ids → set_of ids = ids.
Proof.
  unfold set_of.
  assert (H : ∀ acc, NoDup (acc ++ ids) →
                     foldl (λ s x, set_add x s) acc ids = acc ++ ids).
  { induction ids as [|x ids IH]; intros acc Hnd; simpl.
    - by rewrite app_nil_r.
    - assert (Hx : x ∉ acc).
      { apply NoDup_app in Hnd as (_ & Hd & _). intros Hx.
        apply (Hd x Hx). by left. }
      unfold set_add at 2. rewrite bool_decide_eq_false_2 by done.
      rewrite IH; [by rewrite <- app_assoc |].
      by rewrite <- app_assoc. }
  intros Hnd. by rewrite H.
Qed.

Lemma set_delete_notin x s : x ∉ s → set_delete x s = s.
Proof.
  unfold set_delete. induction s as [|y s IH]; intros Hx; [done |].
  apply not_elem_of_cons in Hx as [Hne Hx]. rewrite filter_cons.
  rewrite decide_True by done. by rewrite IH.
Qed.

Lemma set_delete_length x s :
  NoDup s → (length s ≤ S (length (set_delete x s)))%nat.
Proof.
  induction 1 as [|y s Hy Hnd IH]; [simpl; lia |].
  unfold set_delete in *. rewrite filter_cons.
  destruct (decide (y ≠ x)) as [Hne | Heq]; simpl; [lia |].
  assert (y = x) by (destruct (decide (y = x)); [done | by destruct Heq]).
  subst y. pose proof (set_delete_notin x s Hy) as E. unfold set_delete in E.
  rewrite E. lia.
Qed.

Lemma trim_length_ge dependents k removable :
  ∀ keep, NoDup keep → (k <= Z.of_nat (length keep))%Z →
          (k <= Z.of_nat (length (trim dependents k removable keep)))%Z.
Proof.
  induction removable as [|cid rest IH]; intros keep Hnd Hk; simpl; [done |].
  destruct (Z.of_nat (length keep) <=? k)%Z eqn:E; [done |].
  apply Z.leb_gt in E.
  destruct (isDependency dependents keep cid); [by apply IH |].
  apply IH.
  - eapply sublist_NoDup; [done | apply set_delete_sublist].
  - pose proof (set_delete_length cid keep Hnd). lia.
Qed.

Lemma slice0_length_eq {A} k (l : list A) :
  (0 <= k)%Z → length (slice0 k l) = (Z.to_nat k `min` length l)%nat.
Proof.
  intros Hk. unfold slice0. rewrite (proj2 (Z.leb_le 0 k)) by done.
  apply length_take.
Qed.

Lemma enforce_length_eq g ids k :
  NoDup ids → (0 <= k)%Z →
  length (enforceSizeLimit g ids k) = (length ids `min` Z.to_nat k)%nat.
Proof.
  intros Hnd Hk. unfold enforceSizeLimit.
  destruct (Z.of_nat (length ids) <=? k)%Z eqn:E1.
  { apply Z.leb_le in E1. lia. }
  apply Z.leb_gt in E1.
  assert (Hge : (k <= Z.of_nat (length (trimmed g ids k)))%Z).
  { apply trim_length_ge; [apply set_of_NoDup |]. rewrite set_of_id by done. lia. }
  destruct (k <? Z.of_nat (length (trimmed g ids k)))%Z eqn:E2.
  - apply Z.ltb_lt in E2. rewrite slice0_length_eq by done.
    rewrite (Permutation_length (js_sort_perm _ _)). lia.
  - apply Z.ltb_ge in E2. lia.
Qed.

(** *** Sorting *)

Lemma sort_insert_ascending {A} (cmp : A → A → Q) (v : A → Q) x l :
  (∀ a b, gtb (cmp a b) 0 = true ↔ v b < v a) →
  ascending v l → ascending v (sort_insert cmp x l).
Proof.
  intros Hcmp. induction 1 as [|y l Hy Hl IH]; simpl.
  - constructor; [constructor | constructor].
  - destruct (gtb (cmp x y) 0) eqn:E.
    + apply Hcmp in E. constructor; [| done].
      rewrite sort_insert_perm. constructor; [lra | done].
    + assert (Hxy : v x <= v y).
      { apply Qnot_lt_le. intros Hlt. apply Hcmp in Hlt. congruence. }
      constructor; [| by constructor].
      constructor; [done |].
      eapply Forall_impl; [exact Hy |]. intros z Hz. simpl in Hz. lra.
Qed.

Lemma js_sort_ascending {A} (cmp : A → A → Q) (v : A → Q) l :
  (∀ a b, gtb (cmp a b) 0 = true ↔ v b < v a) →
  ascending v (js_sort cmp l).
Proof.
  intros Hcmp. unfold js_sort. induction l as [|x l IH]; simpl; [constructor |].
  by apply sort_insert_ascending.
Qed.

Lemma cmp_up (w : string → Q) a b : gtb (nsub (w a) (w b)) 0 = true ↔ w b < w a.
Proof. rewrite gtb_true, nsub_eq. split; intros; lra. Qed.

Lemma cmp_down (w : string → Q) a b :
  gtb (nsub (w b) (w a)) 0 = true ↔ - w b < - w a.
Proof. rewrite gtb_true, nsub_eq. split; intros; lra. Qed.

Lemma ascending_take_drop {A} (v : A → Q) n l x y :
  ascending v l → x ∈ take n l → y ∈ drop n l → v x <= v y.
Proof.
  intros Hl. revert n. induction Hl as [|z l Hz Hl IH]; intros n Hx Hy.
  - rewrite take_nil in Hx. by apply elem_of_nil in Hx.
  - destruct n as [|n]; simpl in *; [by apply elem_of_nil in Hx |].
    apply elem_of_cons in Hx as [-> | Hx]; [| by eapply IH].
    rewrite Forall_forall in Hz. apply Hz.
    eapply sublist_subseteq; [apply (sublist_drop l n) | done].
Qed.

Lemma weights_of_lookup g ids a :
  a ∈ ids → weight_in (weights_of g ids) a = lookup_weight g a.
Proof.
  unfold weights_of, weight_in.
  assert (H : ∀ acc : gmap string Q,
    (a ∈ ids ∨ acc !! a = Some (lookup_weight g a)) →
    foldl (λ acc i, <[i := lookup_weight g i]> acc) acc ids !! a
    = Some (lookup_weight g a)).
  { induction ids as [|x ids IH]; intros acc Hor; simpl.
    - destruct Hor as [Hin | ?]; [by apply elem_of_nil in Hin | done].
    - apply IH. destruct (decide (a = x)) as [-> | Hne].
      + right. by rewrite lookup_insert_eq.
      + destruct Hor as [[?|?]%elem_of_cons | ?]; [done | by left |].
        right. by rewrite lookup_insert_ne. }
  intros Ha. rewrite H; [done | by left].
Qed.

Lemma ascending_ext {A} (v v' : A → Q) l :
  (∀ a, a ∈ l → v a == v' a) → ascending v l → ascending v' l.
Proof.
  intros Hext Hl. induction Hl as [|x l Hx Hl IH]; [constructor |].
  constructor.
  - apply Forall_forall. intros y Hy. rewrite Forall_forall in Hx.
    rewrite <- (Hext x), <- (Hext y) by (try (by left); by right).
    by apply Hx.
  - apply IH. intros a Ha. apply Hext. by right.
Qed.

(** Without dependencies nothing is pinned. *)
Lemma trim_free (v : string → Q) k r :
  ascending v r →
  ∀ K, K ⊆ r →
    (∀ x y, x ∈ K → x ∉ trim ∅ k r K → y ∈ trim ∅ k r K → v x <= v y) ∧
    ((0 <= k)%Z → (Z.of_nat (length (trim ∅ k r K)) <= k)%Z).
Proof.
  induction 1 as [|c r Hc Hr IH]; intros K HK.
  - assert (K = []) as ->.
    { apply elem_of_nil_inv. intros x Hx. apply HK in Hx. by apply elem_of_nil in Hx. }
    simpl. split; [by intros x y ?%elem_of_nil | intros; simpl; lia].
  - cbn [trim]. destruct (Z.of_nat (length K) <=? k)%Z eqn:E.
    { split; [by intros x y Hx Hnx | intros _; by apply Z.leb_le]. }
    assert (isDependency ∅ K c = false) as ->
      by (unfold isDependency; by rewrite lookup_empty).
    assert (HK' : set_delete c K ⊆ r).
    { intros z [Hne Hz]%set_delete_elem. apply HK in Hz.
      apply elem_of_cons in Hz as [-> | ?]; done. }
    destruct (IH _ HK') as [IH1 IH2]. split; [| done].
    intros x y Hx Hnx Hy. destruct (decide (x = c)) as [-> | Hne].
    + rewrite Forall_forall in Hc. apply Hc, HK'.
      eapply sublist_subseteq; [apply trim_sublist | done].
    + apply IH1; [| done | done]. by apply set_delete_elem.
Qed.

(** X17.  On ids without repetition and for [k ≥ 0] the Size Enforcer
    returns exactly [min(|ids|, k)] ids: it never removes more than it
    must. *)
Theorem enforce_exact g ids k :
  NoDup ids → (0 <= k)%Z →
  length (enforceSizeLimit g ids k) = (length ids `min` Z.to_nat k)%nat.
Proof. apply enforce_length_eq. Qed.

(** X18.  Unless its last-resort branch is taken, the Size Enforcer
    returns its ids in the order in which it received them. *)
Theorem enforce_keeps_order g ids k :
  NoDup ids → fallback_taken g ids k = false →
  sublist (enforceSizeLimit g ids k) ids.
Proof.
  intros Hnd Hfb. unfold enforceSizeLimit, fallback_taken in *.
  destruct (Z.of_nat (length ids) <=? k)%Z; [done |]. simpl in Hfb.
  rewrite Hfb. rewrite <- (set_of_id ids Hnd) at 2. apply trimmed_sublist.
Qed.

Lemma enforce_exact_witness :
  NoDup ["A"; "B"; "C"] ∧ (0 <= 2)%Z ∧
  length (enforceSizeLimit graph_chain ["A"; "B"; "C"] 2)
  = (length ["A"; "B"; "C"] `min` Z.to_nat 2)%nat.
Proof.
  split; [exact abc_NoDup |]. split; [lia |].
  exact (enforce_exact graph_chain ["A"; "B"; "C"] 2 abc_NoDup ltac:(lia)).
Defined.

Lemma enforce_keeps_order_witness :
  NoDup ["A"; "B"; "C"] ∧
  fallback_taken graph_chain ["A"; "B"; "C"] 2 = false ∧
  sublist (enforceSizeLimit graph_chain ["A"; "B"; "C"] 2) ["A"; "B"; "C"].
Proof.
  split; [exact abc_NoDup |]. split; [reflexivity |].
  exact (enforce_keeps_order graph_chain ["A"; "B"; "C"] 2 abc_NoDup eq_refl).
Defined.

Lemma abc_plain : "__proto__" ∉ ["A"; "B"; "C"].
Proof. compute_done. Defined.

(** X19.  On a graph without dependencies, and when none of the ids is
    [__proto__] (a name that the record of weights cannot hold), the
    Size Enforcer keeps the heaviest ids, in their original order: no
    id that it drops weighs more than an id that it keeps. *)
Theorem enforce_heaviest g ids k :
  Types.edges g = [] → NoDup ids → "__proto__" ∉ ids → (0 <= k)%Z →
  sublist (enforceSizeLimit g ids k) ids ∧
  ∀ x y, x ∈ ids → x ∉ enforceSizeLimit g ids k →
         y ∈ enforceSizeLimit g ids k →
         lookup_weight g x <= lookup_weight g y.
Proof.
  intros Hnone Hnd _ Hk. unfold enforceSizeLimit.
  destruct (Z.of_nat (length ids) <=? k)%Z;
    [split; [done | by intros x y Hx Hnx] |].
  unfold trimmed. rewrite Hnone. cbn [dependents_of foldl].
  set (ws := weights_of g ids).
  set (r := js_sort (λ a b, nsub (weight_in ws a) (weight_in ws b)) ids).
  assert (Hr : ascending (weight_in ws) r)
    by (apply js_sort_ascending; intros a b; apply (cmp_up (weight_in ws))).
  assert (Hsub : set_of ids ⊆ r).
  { intros z Hz. unfold r. rewrite js_sort_perm. by apply set_of_elem. }
  destruct (trim_free (weight_in ws) k r Hr (set_of ids) Hsub) as [H1 H2].
  rewrite (proj2 (Z.ltb_ge _ _) (H2 Hk)). split.
  - rewrite <- (set_of_id ids Hnd) at 2. apply trim_sublist.
  - intros x y Hx Hnx Hy.
    rewrite <- (weights_of_lookup g ids x), <- (weights_of_lookup g ids y); try done.
    + apply H1; [by apply set_of_elem | done | done].
    + apply set_of_elem. eapply sublist_subseteq; [apply trim_sublist | done].
Qed.

Lemma enforce_heaviest_witness :
  Types.edges graph_flat = [] ∧ NoDup ["A"; "B"; "C"] ∧
  ("__proto__" ∉ ["A"; "B"; "C"]) ∧ (0 <= 2)%Z ∧
  sublist (enforceSizeLimit graph_flat ["A"; "B"; "C"] 2) ["A"; "B"; "C"] ∧
  ∀ x y, x ∈ ["A"; "B"; "C"] →
         x ∉ enforceSizeLimit graph_flat ["A"; "B"; "C"] 2 →
         y ∈ enforceSizeLimit graph_flat ["A"; "B"; "C"] 2 →
         lookup_weight graph_flat x <= lookup_weight graph_flat y.
Proof.
  split; [reflexivity |]. split; [exact abc_NoDup |].
  split; [exact abc_plain |]. split; [lia |].
  exact (enforce_heaviest graph_flat ["A"; "B"; "C"] 2 eq_refl abc_NoDup
           abc_plain ltac:(lia)).
Defined.

(** X20.  When none of the ids is [__proto__] and the last-resort
    branch of the Size Enforcer is taken, it returns exactly [k] ids in
    order of falling weight, and no id that was still kept after the
    removal loop and is now dropped weighs more than an id that is
    returned. *)
Theorem enforce_fallback g ids k :
  NoDup ids → "__proto__" ∉ ids → (0 <= k)%Z →
  fallback_taken g ids k = true →
  length (enforceSizeLimit g ids k) = Z.to_nat k ∧
  ascending (λ a, - lookup_weight g a) (enforceSizeLimit g ids k) ∧
  ∀ x y, x ∈ trimmed g ids k → x ∉ enforceSizeLimit g ids k →
         y ∈ enforceSizeLimit g ids k →
         lookup_weight g x <= lookup_weight g y.
Proof.
  intros Hnd _ Hk Hfb. unfold fallback_taken in Hfb.
  apply andb_true_iff in Hfb as [E1 E2]. apply negb_true_iff in E1.
  unfold enforceSizeLimit. rewrite E1, E2.
  set (ws := weights_of g ids). set (keep := trimmed g ids k).
  set (sorted := js_sort (λ a b, nsub (weight_in ws b) (weight_in ws a)) keep).
  assert (Hs : ascending (λ a, - weight_in ws a) sorted)
    by (apply js_sort_ascending; intros a b; apply (cmp_down (weight_in ws))).
  assert (Hin : ∀ a, a ∈ sorted → a ∈ ids).
  { intros a Ha. unfold sorted in Ha. rewrite js_sort_perm in Ha.
    apply set_of_elem. eapply sublist_subseteq; [apply trimmed_sublist | done]. }
  assert (Hs' : ascending (λ a, - lookup_weight g a) sorted).
  { eapply ascending_ext; [| exact Hs]. intros a Ha. simpl. unfold ws.
    by rewrite (weights_of_lookup g ids a) by by apply Hin. }
  unfold slice0. rewrite (proj2 (Z.leb_le 0 k)) by done.
  apply Z.ltb_lt in E2. split; [| split].
  - rewrite length_take. unfold sorted.
    rewrite (Permutation_length (js_sort_perm _ _)). unfold keep.
    apply Nat.min_l. lia.
  - clear -Hs'. generalize (Z.to_nat k). induction Hs' as [|x l Hx Hl IH];
      intros [|n]; simpl; try constructor.
    + eapply Forall_forall. intros y Hy. rewrite Forall_forall in Hx.
      apply Hx. eapply sublist_subseteq; [apply sublist_take | done].
    + apply IH.
  - intros x y Hx Hnx Hy.
    assert (Hxd : x ∈ drop (Z.to_nat k) sorted).
    { assert (Hxs : x ∈ sorted) by (unfold sorted; by rewrite js_sort_perm).
      rewrite <- (take_drop (Z.to_nat k) sorted) in Hxs.
      apply elem_of_app in Hxs as [? | ?]; done. }
    pose proof (ascending_take_drop _ _ _ _ _ Hs' Hy Hxd) as H. simpl in H. lra.
Qed.

Lemma enforce_fallback_witness :
  NoDup ["A"; "B"; "C"] ∧ ("__proto__" ∉ ["A"; "B"; "C"]) ∧ (0 <= 1)%Z ∧
  fallback_taken graph_chain ["A"; "B"; "C"] 1 = true ∧
  length (enforceSizeLimit graph_chain ["A"; "B"; "C"] 1) = Z.to_nat 1 ∧
  ascending (λ a, - lookup_weight graph_chain a)
    (enforceSizeLimit graph_chain ["A"; "B"; "C"] 1) ∧
  ∀ x y, x ∈ trimmed graph_chain ["A"; "B"; "C"] 1 →
         x ∉ enforceSizeLimit graph_chain ["A"; "B"; "C"] 1 →
         y ∈ enforceSizeLimit graph_chain ["A"; "B"; "C"] 1 →
         lookup_weight graph_chain x <= lookup_weight graph_chain y.
Proof.
  split; [exact abc_NoDup |]. split; [exact abc_plain |].
  split; [lia |]. split; [reflexivity |].
  exact (enforce_fallback graph_chain ["A"; "B"; "C"] 1 abc_NoDup abc_plain
           ltac:(lia) eq_refl).
Defined.

(** * Further properties of the Size-Target Search *)

(** ** More on the penalty search *)

Lemma nmin_cases a b : (nmin a b = a ∧ a <= b) ∨ (nmin a b = b ∧ b <= a).
Proof.
  unfold nmin. destruct (Qle_bool a b) eqn:E.
  - left. split; [done | by apply Qle_bool_iff].
  - right. split; [done |]. apply Qlt_le_weak. by apply Qle_bool_false.
Qed.

Lemma nmax_cases a b : (nmax a b = b ∧ a <= b) ∨ (nmax a b = a ∧ b <= a).
Proof.
  unfold nmax. destruct (Qle_bool a b) eqn:E.
  - left. split; [done | by apply Qle_bool_iff].
  - right. split; [done |]. apply Qlt_le_weak. by apply Qle_bool_false.
Qed.

Lemma foldl_nmin ws : ∀ w,
  (foldl nmin w ws = w ∨ foldl nmin w ws ∈ ws) ∧
  foldl nmin w ws <= w ∧ Forall (λ x, foldl nmin w ws <= x) ws.
Proof.
  induction ws as [|x ws IH]; intros w; simpl.
  - split; [by left |]. split; [lra | constructor].
  - destruct (IH (nmin w x)) as (Hin & Hle & Hall).
    destruct (nmin_cases w x) as [[E Hwx] | [E Hwx]]; rewrite E in *.
    + split; [destruct Hin as [-> | ?]; [by left | right; by right] |].
      split; [done |]. constructor; [lra | done].
    + split; [destruct Hin as [-> | ?]; right; [by left | by right] |].
      split; [lra |]. constructor; [done | done].
Qed.

Lemma foldl_nmax ws : ∀ w,
  (foldl nmax w ws = w ∨ foldl nmax w ws ∈ ws) ∧
  w <= foldl nmax w ws ∧ Forall (λ x, x <= foldl nmax w ws) ws.
Proof.
  induction ws as [|x ws IH]; intros w; simpl.
  - split; [by left |]. split; [lra | constructor].
  - destruct (IH (nmax w x)) as (Hin & Hle & Hall).
    destruct (nmax_cases w x) as [[E Hwx] | [E Hwx]]; rewrite E in *.
    + split; [destruct Hin as [-> | ?]; right; [by left | by right] |].
      split; [lra |]. constructor; [done | done].
    + split; [destruct Hin as [-> | ?]; [by left | right; by right] |].
      split; [done |]. constructor; [lra | done].
Qed.

Lemma min_list_spec ws m :
  min_list ws = Some m → m ∈ ws ∧ Forall (λ x, m <= x) ws.
Proof.
  destruct ws as [|w ws]; [done |]. intros [= <-].
  destruct (foldl_nmin ws w) as (Hin & Hle & Hall).
  split; [destruct Hin as [-> | ?]; [by left | by right] |].
  constructor; done.
Qed.

Lemma max_list_spec ws m :
  max_list ws = Some m → m ∈ ws ∧ Forall (λ x, x <= m) ws.
Proof.
  destruct ws as [|w ws]; [done |]. intros [= <-].
  destruct (foldl_nmax ws w) as (Hin & Hle & Hall).
  split; [destruct Hin as [-> | ?]; [by left | by right] |].
  constructor; done.
Qed.

Opaque search buildClosure enforceSizeLimit.

(** Every candidate of the search is built at a penalty strictly inside
    the interval the search starts from. *)
Lemma search_range g k (L H : Q) n :
  ∀ low high best r,
    L <= low → low < high → high <= H →
    (∀ b, best = Some b → ∃ p, L < p ∧ p < H ∧ buildClosure g p = Some b) →
    search g k n low high best = Some r →
    ∀ b, r = Some b → ∃ p, L < p ∧ p < H ∧ buildClosure g p = Some b.
Proof.
  induction n as [|n IH]; intros low high best r HL Hlh HH Hbest Hs.
  - rewrite search_0 in Hs. injection Hs as <-. done.
  - rewrite search_eq in Hs.
    assert (Hmid : nhalf (nadd low high) == (low + high) * (1 # 2)).
    { rewrite nhalf_eq. unfold Qdiv. change (/ 2) with (1 # 2).
      apply Qmult_comp; [apply nadd_eq | reflexivity]. }
    set (mid := nhalf (nadd low high)) in *.
    destruct (buildClosure g mid) as [c|] eqn:Hc; simpl in Hs; [| done].
    assert (Hlo : low < mid) by lra.
    assert (Hhi : mid < high) by lra.
    assert (Hb' : ∀ b, (if better best c k then Some c else best) = Some b →
                       ∃ p, L < p ∧ p < H ∧ buildClosure g p = Some b).
    { intros b Hb. destruct (better best c k); [| by apply Hbest].
      injection Hb as <-. exists mid. split; [lra |]. split; [lra | done]. }
    destruct (k <? Z.of_nat (Types.size c))%Z.
    + eapply (IH mid high); [lra | done | done | exact Hb' | exact Hs].
    + eapply (IH low mid); [done | done | lra | exact Hb' | exact Hs].
Qed.

Lemma search_from_range n g k :
  values g ≠ [] →
  ∃ final p minW maxW,
    search_from n g k = Some final ∧ buildClosure g p = Some final ∧
    min_list (weight_or0 <$> values g) = Some minW ∧
    max_list (weight_or0 <$> values g) = Some maxW ∧
    minW - Qabs minW - 5 < p ∧ p < maxW + Qabs maxW + 5.
Proof.
  intros Hne. unfold search_from.
  destruct (values g) as [|c l] eqn:E; [done |].
  cbn [fmap list_fmap min_list max_list mbind option_bind].
  set (minW := foldl nmin _ _). set (maxW := foldl nmax _ _).
  set (low := nsub _ 5). set (high := nadd _ 5).
  assert (Hlow : low == minW - Qabs minW - 5)
    by (unfold low; by rewrite !nsub_eq, nabs_eq).
  assert (Hhigh : high == maxW + Qabs maxW + 5)
    by (unfold high; by rewrite !nadd_eq, nabs_eq).
  assert (Hl5 : low <= -5).
  { rewrite Hlow. pose proof (Qle_Qabs minW). lra. }
  assert (Hh5 : 5 <= high).
  { rewrite Hhigh. pose proof (Qle_Qabs (- maxW)) as Ha.
    rewrite Qabs_opp in Ha. lra. }
  destruct (search_total g k n low high None) as [r Hr]. rewrite Hr. simpl.
  destruct r as [b|].
  - destruct (search_range g k low high n low high None (Some b)) with (b := b)
      as (p & Hp1 & Hp2 & Hp); try done; try lra.
    exists b, p, minW, maxW. do 4 (split; [done |]). split; lra.
  - destruct (buildClosure_total g 0) as [sol Hsol].
    exists sol, 0, minW, maxW. do 4 (split; [done |]). split; lra.
Qed.

Lemma solve_search g k :
  (0 < k)%Z → (k < Z.of_nat (length (values g)))%Z →
  ∃ final p minW maxW,
    buildClosure g p = Some final ∧
    min_list (weight_or0 <$> values g) = Some minW ∧
    max_list (weight_or0 <$> values g) = Some maxW ∧
    minW - Qabs minW - 5 < p ∧ p < maxW + Qabs maxW + 5 ∧
    solveClosureBySize g k =
    Some (Types.mkSolution (enforceSizeLimit g (Types.closure final) k)
            (total_of g (enforceSizeLimit g (Types.closure final) k))
            (length (enforceSizeLimit g (Types.closure final) k))
            (Some p)).
Proof.
  intros Hk Hn.
  assert (Hne : values g ≠ []) by (intros E; rewrite E in Hn; simpl in Hn; lia).
  destruct (search_from_range 36 g k Hne)
    as (final & p & minW & maxW & Hf & Hb & Hmin & Hmax & Hlo & Hhi).
  exists final, p, minW, maxW. do 5 (split; [done |]).
  unfold solveClosureBySize.
  rewrite (proj2 (Z.leb_gt k 0)) by done.
  rewrite bool_decide_eq_false_2 by (intros E; rewrite E in Hn; lia).
  rewrite (proj2 (Z.leb_gt _ _)) by done. cbn [orb].
  change (search_final g k) with (search_from 36 g k). rewrite Hf.
  cbn [mbind option_bind]. by rewrite (buildClosure_penalty _ _ _ Hb).
Qed.

Lemma solve_sized g k :
  ∃ sol, solveClosureBySize g k = Some sol ∧
         Types.size sol = length (Types.closure sol) ∧
         Types.totalWeight sol = total_of g (Types.closure sol) ∧
         ∀ x, x ∈ Types.closure sol → x ∈ ids g.
Proof.
  destruct (solve_cases g k)
    as [[_ ->] | [(_ & _ & _ & ->) | (_ & _ & final & p & _ & Hb & ->)]].
  - eexists. do 3 (split; [done |]). by intros x ?%elem_of_nil.
  - destruct (buildClosure_total g 0) as [sol Hsol]. exists sol.
    pose proof (buildClosure_built _ _ _ Hsol) as [Hsub Hsize Htot _].
    do 3 (split; [done |]). intros x. by apply sublist_subseteq.
  - eexists. do 3 (split; [done |]). cbn [Types.closure]. intros x Hx.
    apply enforce_subseteq in Hx.
    pose proof (buildClosure_built _ _ _ Hb) as [Hsub _ _ _].
    by eapply sublist_subseteq.
Qed.

Transparent search buildClosure enforceSizeLimit.

(** X21.  In every result of [solveClosureBySize] the fields describe
    the closure that is returned: [size] is its length and [totalWeight]
    the sum of the weights of its ids, also after the Size Enforcer has
    trimmed it.  The [penalty] field is missing exactly when [k ≤ 0] or
    the graph has no chunks, and the result is then the empty
    solution. *)
Theorem solve_fields g k :
  ∃ sol, solveClosureBySize g k = Some sol ∧
         Types.size sol = length (Types.closure sol) ∧
         Types.totalWeight sol = total_of g (Types.closure sol) ∧
         (Types.penalty sol = None ↔ (k <= 0)%Z ∨ Types.chunks g = []) ∧
         (Types.penalty sol = None → sol = Types.mkSolution [] 0 0 None).
Proof.
  assert (Hv : values g = [] ↔ Types.chunks g = []).
  { unfold values. split; [apply fmap_nil_inv | by intros ->]. }
  destruct (solve_cases g k)
    as [[Hor ->] | [(Hk & Hne & _ & ->) | (Hk & Hn & final & p & _ & Hb & ->)]].
  - eexists. split; [done |]. split; [done |]. split; [done |].
    split; [| done].
    split; [intros _ | done]. destruct Hor; [by left | right; by apply Hv].
  - destruct (buildClosure_total g 0) as [sol Hsol]. exists sol.
    split; [done |].
    pose proof (buildClosure_built _ _ _ Hsol) as [_ Hsize Htot _].
    split; [done |]. split; [done |].
    rewrite (buildClosure_penalty _ _ _ Hsol). split; [| done].
    split; [done |]. intros [? | E%Hv]; [lia | done].
  - eexists. split; [done |]. split; [done |]. split; [done |].
    cbn [Types.penalty]. rewrite (buildClosure_penalty _ _ _ Hb).
    split; [| done].
    split; [done |]. intros [? | E%Hv]; [lia |]. rewrite E in Hn. simpl in Hn. lia.
Qed.

(** X22.  For [0 < k < |chunks|] on a graph with integer weights, small
    enough for the search to run without rounding, the penalty that
    [solveClosureBySize] reports is one at which [buildClosure] produced
    a candidate that holds every id of the returned closure, and it
    lies strictly inside the interval the search starts from,
    [(min − |min| − 5, max + |max| + 5)] for the least and the greatest
    weight. *)
Theorem solve_penalty g k M :
  (0 < k)%Z → (k < Z.of_nat (length (Types.chunks g)))%Z →
  exact_search g M →
  ∃ sol p cand minW maxW,
    solveClosureBySize g k = Some sol ∧ Types.penalty sol = Some p ∧
    buildClosure g p = Some cand ∧
    Types.closure sol ⊆ Types.closure cand ∧
    minW ∈ weight_or0 <$> values g ∧ maxW ∈ weight_or0 <$> values g ∧
    Forall (λ c, minW <= weight_or0 c <= maxW) (values g) ∧
    minW - Qabs minW - 5 < p ∧ p < maxW + Qabs maxW + 5.
Proof.
  intros Hk Hn _.
  assert (Hn' : (k < Z.of_nat (length (values g)))%Z)
    by (unfold values; by rewrite length_fmap).
  destruct (solve_search g k Hk Hn')
    as (final & p & minW & maxW & Hb & Hmin & Hmax & Hlo & Hhi & ->).
  apply min_list_spec in Hmin as [Hmin1 Hmin2].
  apply max_list_spec in Hmax as [Hmax1 Hmax2].
  eexists _, p, final, minW, maxW. do 3 (split; [done |]).
  split; [apply enforce_subseteq |].
  do 2 (split; [done |]). split; [| done].
  apply Forall_forall. intros c Hc.
  assert (Hw : weight_or0 c ∈ weight_or0 <$> values g)
    by by apply list_elem_of_fmap_2.
  split.
  - exact (proj1 (Forall_forall _ _) Hmin2 _ Hw).
  - exact (proj1 (Forall_forall _ _) Hmax2 _ Hw).
Qed.

Lemma solve_penalty_witness :
  (0 < 1)%Z ∧ (1 < Z.of_nat (length (Types.chunks graph_chain)))%Z ∧
  exact_search graph_chain 10 ∧
  ∃ sol p cand minW maxW,
    solveClosureBySize graph_chain 1 = Some sol ∧ Types.penalty sol = Some p ∧
    buildClosure graph_chain p = Some cand ∧
    Types.closure sol ⊆ Types.closure cand ∧
    minW ∈ weight_or0 <$> values graph_chain ∧
    maxW ∈ weight_or0 <$> values graph_chain ∧
    Forall (λ c, minW <= weight_or0 c <= maxW) (values graph_chain) ∧
    minW - Qabs minW - 5 < p ∧ p < maxW + Qabs maxW + 5.
Proof.
  assert (He : exact_search graph_chain 10).
  { split; [| split].
    - repeat constructor; [by exists 10%Z | by exists 5%Z | by exists 1%Z].
    - repeat constructor; by vm_compute.
    - by vm_compute. }
  split; [lia |]. split; [simpl; lia |]. split; [exact He |].
  exact (solve_penalty graph_chain 1 10 ltac:(lia) ltac:(simpl; lia) He).
Defined.

(** X23.  For [0 < k < |chunks|] on a well-formed graph
    [solveClosureBySize] returns [min(size, k)] ids of the candidate of
    size [size] that was built at the reported penalty; a candidate that
    fits is returned as it is, with its total weight. *)
Theorem solve_trims g k :
  wf_graph g → (0 < k)%Z → (k < Z.of_nat (length (Types.chunks g)))%Z →
  ∃ sol p cand,
    solveClosureBySize g k = Some sol ∧ Types.penalty sol = Some p ∧
    buildClosure g p = Some cand ∧
    Types.size sol = (Types.size cand `min` Z.to_nat k)%nat ∧
    ((Z.of_nat (Types.size cand) <= k)%Z →
     Types.closure sol = Types.closure cand ∧
     Types.totalWeight sol = Types.totalWeight cand).
Proof.
  intros Hwf Hk Hn.
  assert (Hn' : (k < Z.of_nat (length (values g)))%Z)
    by (unfold values; by rewrite length_fmap).
  destruct (solve_search g k Hk Hn')
    as (final & p & minW & maxW & Hb & _ & _ & _ & _ & ->).
  pose proof (buildClosure_built _ _ _ Hb) as [Hsub Hsize Htot _].
  eexists _, p, final. do 3 (split; [done |]). cbn [Types.size Types.closure
    Types.totalWeight]. split.
  - rewrite Hsize. apply enforce_length_eq; [| lia].
    eapply sublist_NoDup; [by apply wf_ids_NoDup | done].
  - intros Hfit. rewrite Hsize in Hfit. unfold enforceSizeLimit.
    rewrite (proj2 (Z.leb_le _ _) Hfit). by split.
Qed.

Lemma solve_trims_witness :
  wf_graph graph_chain ∧ (0 < 2)%Z ∧
  (2 < Z.of_nat (length (Types.chunks graph_chain)))%Z ∧
  ∃ sol p cand,
    solveClosureBySize graph_chain 2 = Some sol ∧ Types.penalty sol = Some p ∧
    buildClosure graph_chain p = Some cand ∧
    Types.size sol = (Types.size cand `min` Z.to_nat 2)%nat ∧
    ((Z.of_nat (Types.size cand) <= 2)%Z →
     Types.closure sol = Types.closure cand ∧
     Types.totalWeight sol = Types.totalWeight cand).
Proof.
  split; [exact wf_graph_chain |]. split; [lia |]. split; [simpl; lia |].
  exact (solve_trims graph_chain 2 wf_graph_chain ltac:(lia) ltac:(simpl; lia)).
Defined.

(** ** The choice among the candidates *)

Arguments visited : simpl never.

Lemma visited_eq g k n low high :
  visited g k (S n) low high =
  (c ← buildClosure g (nhalf (nadd low high));
   rest ← (if (k <? Z.of_nat (Types.size c))%Z
           then visited g k n (nhalf (nadd low high)) high
           else visited g k n low (nhalf (nadd low high)));
   Some (c :: rest)).
Proof. done. Qed.

Lemma visited_0 g k low high : visited g k 0 low high = Some [].
Proof. done. Qed.

Lemma at_least_refl k b : at_least k b b.
Proof. right. split; [done | lra]. Qed.

Lemma at_least_trans k a b c : at_least k a b → at_least k b c → at_least k a c.
Proof.
  unfold at_least. intros [H1 | [H1 H1']] [H2 | [H2 H2']].
  - left. lia.
  - left. lia.
  - left. lia.
  - right. split; [lia | lra].
Qed.

Lemma better_true k b0 c : better (Some b0) c k = true → at_least k c b0.
Proof.
  unfold better, at_least. intros [H | [H1 H2]%andb_true_iff]%orb_true_iff.
  - left. by apply Z.ltb_lt.
  - right. split; [by apply Z.eqb_eq |]. apply gtb_true in H2. lra.
Qed.

Lemma better_false k b0 c : better (Some b0) c k = false → at_least k b0 c.
Proof.
  unfold better, at_least. intros [H1 H2]%orb_false_iff.
  apply Z.ltb_ge in H1. apply andb_false_iff in H2 as [H2 | H2].
  - apply Z.eqb_neq in H2. left. lia.
  - apply gtb_false in H2.
    destruct (decide (size_diff c k = size_diff b0 k)) as [E | E];
      [right; split; [done | lra] | left; lia].
Qed.

Opaque search buildClosure.

Lemma search_visited g k n :
  ∀ low high best,
  ∃ cs r, visited g k n low high = Some cs ∧
          search g k n low high best = Some r ∧ length cs = n ∧
          match r with
          | None => best = None ∧ cs = []
          | Some b => (best = Some b ∨ b ∈ cs) ∧ Forall (at_least k b) cs ∧
                      ∀ b0, best = Some b0 → at_least k b b0
          end.
Proof.
  induction n as [|n IH]; intros low high best.
  - exists [], best. rewrite visited_0, search_0. do 3 (split; [done |]).
    destruct best as [b|]; [| done].
    split; [by left |]. split; [constructor |].
    intros b0 [= <-]. apply at_least_refl.
  - rewrite visited_eq, search_eq.
    destruct (buildClosure_total g (nhalf (nadd low high))) as [c ->].
    cbn [mbind option_bind]. set (mid := nhalf (nadd low high)).
    set (best' := if better best c k then Some c else best).
    assert (Hrec : ∀ lo hi,
      ∃ cs r, visited g k n lo hi = Some cs ∧
              search g k n lo hi best' = Some r ∧ length cs = n ∧
              match r with
              | None => best' = None ∧ cs = []
              | Some b => (best' = Some b ∨ b ∈ cs) ∧ Forall (at_least k b) cs ∧
                          ∀ b0, best' = Some b0 → at_least k b b0
              end) by (intros; apply IH).
    assert (Hbest' : ∃ x, best' = Some x ∧ at_least k x c ∧
                          (x = c ∨ best = Some x) ∧
                          ∀ b0, best = Some b0 → at_least k x b0).
    { unfold best'. destruct best as [b0|].
      - destruct (better (Some b0) c k) eqn:Hbt.
        + exists c. split; [done |]. split; [apply at_least_refl |].
          split; [by left |]. intros ? [= <-]. by apply better_true.
        + exists b0. split; [done |]. split; [by apply better_false |].
          split; [by right |]. intros ? [= <-]. apply at_least_refl.
      - exists c. split; [done |]. split; [apply at_least_refl |].
        split; [by left | done]. }
    destruct Hbest' as (x & Hx & Hxc & Hxor & Hxb).
    assert (Hfin : ∀ lo hi,
      ∃ cs r, (rest ← visited g k n lo hi; Some (c :: rest)) = Some cs ∧
              search g k n lo hi best' = Some r ∧ length cs = S n ∧
              match r with
              | None => best = None ∧ cs = []
              | Some b => (best = Some b ∨ b ∈ cs) ∧ Forall (at_least k b) cs ∧
                          ∀ b0, best = Some b0 → at_least k b b0
              end).
    { intros lo hi. destruct (Hrec lo hi) as (cs & r & Hv & Hs & Hlen & Hr).
      exists (c :: cs), r. rewrite Hv. split; [done |]. split; [done |].
      split; [simpl; by rewrite Hlen |].
      destruct r as [b|]; [| destruct Hr as [Hr _]; congruence].
      destruct Hr as (Hmem & Hall & Hge).
      pose proof (Hge x Hx) as Hbx. split; [| split].
      - destruct Hmem as [Hb | Hb]; [| right; by right].
        assert (b = x) by congruence. subst b.
        destruct Hxor as [-> | ?]; [right; by left | by left].
      - constructor; [by eapply at_least_trans | done].
      - intros b0 Hb0. eapply at_least_trans; [exact Hbx | by apply Hxb]. }
    destruct (k <? Z.of_nat (Types.size c))%Z; apply Hfin.
Qed.

Transparent search buildClosure.

(** X24.  The penalty search builds one candidate per iteration and
    ends with a best one of them: none of the candidates is closer in
    size to [k], and none that is as close has a larger total weight.
    Only a search of no iterations ends without a candidate. *)
Theorem search_picks_best g k n low high :
  ∃ cs r, visited g k n low high = Some cs ∧
          search g k n low high None = Some r ∧ length cs = n ∧
          match r with
          | Some b => b ∈ cs ∧ Forall (at_least k b) cs
          | None => n = 0%nat
          end.
Proof.
  destruct (search_visited g k n low high None) as (cs & r & Hv & Hs & Hlen & Hr).
  exists cs, r. do 3 (split; [done |]). destruct r as [b|].
  - destruct Hr as ([? | ?] & Hall & _); [done | by split].
  - destruct Hr as [_ ->]. by rewrite <- Hlen.
Qed.

(** ** The chunk list of a solution *)

Lemma lookup_weight_chunk g i :
  lookup_weight g i = from_option weight_or0 0 (own_chunk g i).
Proof.
  unfold lookup_weight, own_chunk.
  by destruct (list_find _ _) as [[? [? ?]]|].
Qed.

Lemma own_chunk_Some g i c :
  wf_graph g → own_chunk g i = Some c →
  Types.id c = i ∧ c ∈ values g ∧ i ∈ keys g.
Proof.
  intros [_ Hid]. unfold own_chunk.
  destruct (list_find _ _) as [[j [k c']]|] eqn:Hf; [| done].
  intros [= ->]. apply list_find_Some in Hf as (Hj & Hk & _). simpl in Hk. subst k.
  apply list_elem_of_lookup_2 in Hj.
  rewrite Forall_forall in Hid. split; [exact (Hid _ Hj) |].
  split.
  - unfold values. by apply (list_elem_of_fmap_2 snd _ (i, c)).
  - unfold keys. by apply (list_elem_of_fmap_2 fst _ (i, c)).
Qed.

Lemma own_chunk_None g i : own_chunk g i = None ↔ i ∉ keys g.
Proof.
  unfold own_chunk, keys. split.
  - destruct (list_find _ _) as [[j [k c']]|] eqn:Hf; [done |]. intros _.
    intros ([k c] & -> & Hin)%list_elem_of_fmap.
    rewrite list_find_None, Forall_forall in Hf. by apply (Hf _ Hin).
  - intros Hi. destruct (list_find _ _) as [[j [k c']]|] eqn:Hf; [| done].
    apply list_find_Some in Hf as (Hj & Hk & _). simpl in Hk. subst k.
    destruct Hi. apply list_elem_of_lookup_2 in Hj.
    by apply (list_elem_of_fmap_2 fst _ (i, c')).
Qed.

Lemma sum_weights_perm l1 l2 : l1 ≡ₚ l2 → sum_weights l1 == sum_weights l2.
Proof.
  unfold sum_weights. induction 1; simpl; lra.
Qed.

Lemma total_of_found g ids :
  total_of g ids == sum_weights (omap (own_chunk g) ids).
Proof.
  unfold total_of.
  assert (H : ∀ a, foldl (λ acc i, nadd acc (lookup_weight g i)) a ids
                   == a + sum_weights (omap (own_chunk g) ids)).
  { induction ids as [|i ids IH]; intros a.
    - unfold sum_weights. simpl. lra.
    - cbn [foldl omap list_omap]. rewrite IH, nadd_eq, lookup_weight_chunk.
      destruct (own_chunk g i); unfold sum_weights;
        cbn [foldr from_option]; lra. }
  rewrite H. lra.
Qed.

Lemma found_ids g (ids : list string) :
  wf_graph g →
  Types.id <$> omap (own_chunk g) ids = filter (λ i, i ∈ keys g) ids.
Proof.
  intros Hwf. induction ids as [|i ids IH]; [done |].
  rewrite filter_cons. cbn [omap list_omap].
  destruct (own_chunk g i) as [c|] eqn:E.
  - destruct (own_chunk_Some _ _ _ Hwf E) as (Hid & _ & Hk).
    rewrite decide_True by done. rewrite fmap_cons, Hid. f_equal. exact IH.
  - apply own_chunk_None in E. rewrite decide_False by done. exact IH.
Qed.

Lemma omap_length {A B} (f : A → option B) l :
  (length (omap f l) ≤ length l)%nat.
Proof.
  induction l as [|x l IH]; [done |]. cbn [omap list_omap].
  destruct (f x); simpl; lia.
Qed.

Lemma filter_all {A} (P : A → Prop) `{∀ x, Decision (P x)} l :
  Forall P l → filter P l = l.
Proof.
  induction 1 as [|x l Hx _ IH]; [done |].
  rewrite filter_cons, decide_True by done. by rewrite IH.
Qed.

Lemma cmp_down_gen {A} (w : A → Q) a b :
  gtb (nsub (w b) (w a)) 0 = true ↔ - w b < - w a.
Proof. rewrite gtb_true, nsub_eq. split; intros; lra. Qed.

Lemma own_chunk_value g i c : own_chunk g i = Some c → c ∈ values g.
Proof.
  unfold own_chunk.
  destruct (list_find _ _) as [[j [k c']]|] eqn:Hf; [| done].
  intros [= ->]. apply list_find_Some in Hf as (Hj & _ & _).
  apply list_elem_of_lookup_2 in Hj.
  unfold values. by apply (list_elem_of_fmap_2 snd _ (k, c)).
Qed.

(** Without an inherited member among the reads, the members that pass
    [filter(Boolean)] are the chunks stored under the ids. *)
Lemma members_found g (ids : list string) :
  Forall (λ i, i ∈ keys g ∨ i ∉ object_prototype_keys) ids →
  mapM as_chunk (filter (λ m, truthy m = true) (lookup_chunk g <$> ids))
  = Some (omap (own_chunk g) ids).
Proof.
  induction 1 as [|i ids Hi _ IH]; [done |].
  rewrite fmap_cons. cbn [omap list_omap].
  destruct (own_chunk g i) as [c|] eqn:E.
  - assert (Hl : lookup_chunk g i = OwnChunk c)
      by (unfold lookup_chunk; by rewrite E).
    rewrite Hl, filter_cons_True by done. cbn [mapM as_chunk].
    rewrite IH. done.
  - assert (Hl : lookup_chunk g i = Undefined).
    { unfold lookup_chunk. rewrite E. apply own_chunk_None in E.
      destruct Hi as [Hi | Hi]; [done |].
      by rewrite bool_decide_eq_false_2. }
    rewrite Hl, filter_cons_False by done. exact IH.
Qed.

Lemma chunk_list_Some g sol :
  Forall (λ i, i ∈ keys g ∨ i ∉ object_prototype_keys) (Types.closure sol) →
  Forall (λ c, is_Some (Types.weight c)) (values g) →
  chunkListFromClosure g sol
  = Some (js_sort (λ a b, nsub (weight_or0 b) (weight_or0 a))
            (omap (own_chunk g) (Types.closure sol))).
Proof.
  intros Hk Hw. unfold chunkListFromClosure.
  rewrite (members_found g _ Hk). cbn [mbind option_bind].
  assert (forallb (λ c, bool_decide (is_Some (Types.weight c)))
            (omap (own_chunk g) (Types.closure sol)) = true) as ->; [| done].
  apply forallb_forall. intros c Hc%list_elem_of_In.
  apply list_elem_of_omap in Hc as (i & _ & Hc).
  apply bool_decide_eq_true.
  apply own_chunk_value in Hc.
  by apply (proj1 (Forall_forall _ _) Hw).
Qed.

(** X25.  When no id of the closure that is missing from the keys of
    [graph.chunks] names a member of [Object.prototype], and every chunk
    has a weight, [chunkListFromClosure] lists the chunks stored under
    the ids of the closure, leaving out the ids that are no key, in
    order of falling weight. *)
Theorem chunk_list_general g sol :
  Forall (λ i, i ∈ keys g ∨ i ∉ object_prototype_keys) (Types.closure sol) →
  Forall (λ c, is_Some (Types.weight c)) (values g) →
  ∃ l, chunkListFromClosure g sol = Some l ∧
       l ≡ₚ omap (own_chunk g) (Types.closure sol) ∧
       ascending (λ c, - weight_or0 c) l ∧
       (length l ≤ length (Types.closure sol))%nat.
Proof.
  intros Hk Hw. eexists. split; [by apply chunk_list_Some |].
  split; [apply js_sort_perm |].
  split; [apply js_sort_ascending; intros a b; apply (cmp_down_gen weight_or0) |].
  rewrite (Permutation_length (js_sort_perm _ _)). apply omap_length.
Qed.

Lemma chunk_list_general_witness :
  Forall (λ i, i ∈ keys graph_pull ∨ i ∉ object_prototype_keys)
    (Types.closure (Types.mkSolution ["B"; "Z"; "A"] 7 3 None)) ∧
  Forall (λ c, is_Some (Types.weight c)) (values graph_pull) ∧
  ∃ l, chunkListFromClosure graph_pull
         (Types.mkSolution ["B"; "Z"; "A"] 7 3 None) = Some l ∧
       l ≡ₚ omap (own_chunk graph_pull)
              (Types.closure (Types.mkSolution ["B"; "Z"; "A"] 7 3 None)) ∧
       ascending (λ c, - weight_or0 c) l ∧
       (length l
        ≤ length (Types.closure (Types.mkSolution ["B"; "Z"; "A"] 7%Q 3 None)))%nat.
Proof.
  assert (Hk : Forall (λ i, i ∈ keys graph_pull ∨ i ∉ object_prototype_keys)
                 (Types.closure (Types.mkSolution ["B"; "Z"; "A"] 7 3 None))).
  { apply Forall_cons_2; [left; compute_done |].
    apply Forall_cons_2; [right; compute_done |].
    apply Forall_cons_2; [left; compute_done |]. apply Forall_nil_2. }
  assert (Hw : Forall (λ c, is_Some (Types.weight c)) (values graph_pull))
    by (repeat constructor; by eexists).
  split; [exact Hk |]. split; [exact Hw |].
  exact (chunk_list_general graph_pull
           (Types.mkSolution ["B"; "Z"; "A"] 7 3 None) Hk Hw).
Defined.

(** X26.  On a well-formed graph whose chunks all have a weight, the
    weights being integers that add up, in absolute value, to less than
    2^53, the chunk list of a result of [solveClosureBySize] has one
    chunk for every id of the closure and no other, so [size] chunks,
    and their weights add up to [totalWeight]. *)
Theorem chunk_list_of_solution g k :
  wf_graph g → Forall (λ c, is_Some (Types.weight c)) (values g) →
  int_weights g → exact_range g 0 →
  ∃ sol l, solveClosureBySize g k = Some sol ∧
           chunkListFromClosure g sol = Some l ∧
           Types.id <$> l ≡ₚ Types.closure sol ∧
           length l = Types.size sol ∧
           sum_weights l == Types.totalWeight sol.
Proof.
  intros Hwf Hw _ _.
  destruct (solve_sized g k) as (sol & Hsol & Hsize & Htot & Hkeys).
  rewrite (wf_ids_keys g Hwf) in Hkeys.
  exists sol. eexists. split; [done |].
  split.
  { apply chunk_list_Some; [| done]. apply Forall_forall. intros i Hi.
    left. by apply Hkeys. }
  assert (Hids : Types.id <$> omap (own_chunk g) (Types.closure sol)
                 = Types.closure sol).
  { rewrite found_ids by done. apply filter_all.
    by apply Forall_forall. }
  split; [by rewrite js_sort_perm, Hids |].
  split.
  - rewrite (Permutation_length (js_sort_perm _ _)), Hsize.
    rewrite <- Hids at 2. by rewrite length_fmap.
  - rewrite (sum_weights_perm _ _ (js_sort_perm _ _)), Htot. symmetry.
    apply total_of_found.
Qed.

Lemma chunk_list_of_solution_witness :
  wf_graph graph_chain ∧
  Forall (λ c, is_Some (Types.weight c)) (values graph_chain) ∧
  int_weights graph_chain ∧ exact_range graph_chain 0 ∧
  ∃ sol l, solveClosureBySize graph_chain 2 = Some sol ∧
           chunkListFromClosure graph_chain sol = Some l ∧
           Types.id <$> l ≡ₚ Types.closure sol ∧
           length l = Types.size sol ∧
           sum_weights l == Types.totalWeight sol.
Proof.
  assert (H : Forall (λ c, is_Some (Types.weight c)) (values graph_chain))
    by (repeat constructor; by eexists).
  assert (Hi : int_weights graph_chain).
  { repeat constructor; [by exists 10%Z | by exists 5%Z | by exists 1%Z]. }
  assert (Hr : exact_range graph_chain 0) by (by vm_compute).
  split; [exact wf_graph_chain |]. split; [exact H |].
  split; [exact Hi |]. split; [exact Hr |].
  exact (chunk_list_of_solution graph_chain 2 wf_graph_chain H Hi Hr).
Defined.
